(** * Environmental Monitor (main.c): seismic and lightning pipelines

    A shallow embedding of [main.c] and the properties of its
    fetch / filter / alert / render cycle.

    Conventions of the embedding.
    - C [int], [long long] and [time_t] values are integers in [Z]; the one
      narrowing conversion of the program ([long long] to [int]) is written
      out as a 32-bit wrap-around.
    - A finite [double] or [float] value is the rational it denotes ([Q]);
      the program only compares and copies such values, and the comparison
      of finite IEEE values is the comparison of those rationals.  A JSON
      real is always finite, so a magnitude is a rational.  What [atof]
      returns need not be finite: the thresholds and the location are
      values of [fp], which adds the infinities and not-a-number.  The sign
      of a zero is not represented: it shows in printed numbers only, and
      the text of a printed number is not modelled.
    - A [char] buffer is modelled by the C string it holds.  Every buffer of
      the program is zero-initialised and its last byte is never written, so
      it always holds a terminated string.
    - The globals are the fields of one [state] record that every function
      takes and returns; what a function prints is a list of [event]s.
    - libcurl, jansson and the C library are outside the repository: the
      outcome of a transfer is an input, JSON values are a tree, and the
      library functions used are modelled from their documented behaviour.
      For the two fetch functions a transfer is how it ends together with
      the number of calls of [write_memory_callback] that found no memory,
      each of which prints a line; the callback itself is modelled further
      down, byte by byte and with both outcomes of [realloc], and
      [curl_easy_perform] puts the two together. *)

From Stdlib Require Import QArith Ascii.
From stdpp Require Import list strings sorting pretty.

Local Open Scope Z_scope.
#[local] Set Warnings "-register-all".

(** ** Constants *)

Definition UPDATE_INTERVAL_SECONDS : Z := 120.
Definition MAJOR_QUAKE_THRESHOLD : Q := 6 # 1.
Definition MAX_QUAKES : nat := 200.
Definition MAX_ALERTED_IDS : nat := 50.
Definition LIGHTNING_ALERT_CODE_1 : Z := 95.
Definition LIGHTNING_ALERT_CODE_2 : Z := 96.
Definition LIGHTNING_ALERT_CODE_3 : Z := 99.

(** ** The C library *)

Module Libc.

(** A [double] or [float] value: a finite one is the rational it denotes;
    the infinities and not-a-number are values of their own. *)
Inductive fp : Type :=
| Num (q : Q)
| Infinity (negative : bool)
| NaN.

Coercion Num : Q >-> fp.
Bind Scope Q_scope with fp.

(** [a < b] and [a >= b] on floating-point values: both are false as soon
    as an operand is not-a-number. *)
Definition flt (a b : fp) : bool :=
  match a, b with
  | Num x, Num y => match Qcompare x y with Lt => true | _ => false end
  | Infinity true, Num _ | Infinity true, Infinity false => true
  | Num _, Infinity false => true
  | _, _ => false
  end.
Definition fge (a b : fp) : bool :=
  match a, b with
  | Num x, Num y => Qle_bool y x
  | Infinity false, Num _ | Infinity false, Infinity _ => true
  | Num _, Infinity true | Infinity true, Infinity true => true
  | _, _ => false
  end.

#[global] Arguments flt : simpl never.
#[global] Arguments fge : simpl never.

(** Conversion of a [long long] to [int]: reduction modulo [2^32] into
    the range of [int]. *)
Definition int_of_long_long (z : Z) : Z :=
  (z + 2 ^ 31) `mod` 2 ^ 32 - 2 ^ 31.

(** [strncpy(dst, src, n)] into a buffer whose byte [n] is zero: the
    buffer then holds the first [n] characters of [src]. *)
Definition strncpy (src : string) (n : nat) : string := String.substring 0 n src.

(** [strcmp(a, b) == 0]. *)
Definition streq (a b : string) : bool := String.eqb a b.

(** [snprintf(buffer, size, ...)]: what [buffer] holds afterwards.  With
    [size > 0] it receives the first [size - 1] characters of the formatted
    text and a terminator; with [size = 0] nothing is written. *)
Definition snprintf (buffer : string) (size : nat) (text : string) : string :=
  match size with
  | O => buffer
  | S n => String.substring 0 n text
  end.

(** The [%lld] conversion. *)
Definition fmt_lld (z : Z) : string := pretty z.

(** *** Conversions to floating point *)

(** [a / b] to the nearest integer, a tie to the even one; [0 <= a],
    [0 < b]. *)
Definition round_half_even (a b : Z) : Z :=
  let q := a / b in
  match 2 * (a `mod` b) ?= b with
  | Lt => q
  | Gt => q + 1
  | Eq => if Z.even q then q else q + 1
  end.

(** [m * 2^e]. *)
Definition scale2 (m e : Z) : Q :=
  if 0 <=? e then inject_Z (m * 2 ^ e) else m # Z.to_pos (2 ^ (- e)).

(** The value of the binary format with [prec] bits of precision and
    exponents below [emax] that is nearest to [x], a tie going to the even
    significand (IEEE 754 round-to-nearest): 53 and 1024 for [double], 24
    and 128 for [float].  Values below the normal range are rounded to the
    subnormal grid, values beyond the format give an infinity. *)
Definition round_binary (prec emax : Z) (x : Q) : fp :=
  let n := Z.abs (Qnum x) in
  let d := Z.pos (Qden x) in
  if n =? 0 then Num 0 else
  let e0 := Z.log2 n - Z.log2 d in
  let below := if 0 <=? e0 then n <? d * 2 ^ e0 else n * 2 ^ (- e0) <? d in
  (* 2^e <= n / d < 2^(e + 1) *)
  let e := if below then e0 - 1 else e0 in
  (* the unit in the last place is 2^ulp *)
  let ulp := Z.max e (2 - emax) - (prec - 1) in
  let m := if 0 <=? ulp then round_half_even n (d * 2 ^ ulp)
           else round_half_even (n * 2 ^ (- ulp)) d in
  if (emax <=? e) || ((e =? emax - 1) && (m =? 2 ^ prec))
  then Infinity (Qnum x <? 0)
  else Num (Qred (scale2 (if Qnum x <? 0 then - m else m) ulp)).

(** The conversion of a [double] to [float], as IEEE 754 implementations
    do it: to the nearest [float], and to an infinity beyond the range of
    [float]. *)
Definition float_of_double (x : fp) : fp :=
  match x with
  | Num q => round_binary 24 128 q
  | _ => x
  end.

Definition is_space (c : ascii) : bool :=
  let n := nat_of_ascii c in
  (n =? 32)%nat || ((9 <=? n)%nat && (n <=? 13)%nat).

Definition lower (c : ascii) : ascii :=
  let n := nat_of_ascii c in
  if (65 <=? n)%nat && (n <=? 90)%nat then ascii_of_nat (n + 32) else c.

Definition digit_of (c : ascii) : option Z :=
  let n := Z.of_nat (nat_of_ascii c) in
  if (48 <=? n) && (n <=? 57) then Some (n - 48) else None.

Definition hex_digit_of (c : ascii) : option Z :=
  let n := Z.of_nat (nat_of_ascii (lower c)) in
  if (48 <=? n) && (n <=? 57) then Some (n - 48)
  else if (97 <=? n) && (n <=? 102) then Some (n - 87)
  else None.

Fixpoint skip_spaces (s : string) : string :=
  match s with
  | String c rest => if is_space c then skip_spaces rest else s
  | EmptyString => s
  end.

(** What follows [word] at the start of [s], the case of letters aside;
    [word] is in lower case. *)
Fixpoint after_word (word s : string) : option string :=
  match word, s with
  | EmptyString, _ => Some s
  | String w word', String c rest =>
      if Ascii.eqb w (lower c) then after_word word' rest else None
  | String _ _, EmptyString => None
  end.

(** The digits at the start of [s]: their value in the given base behind
    the digits [acc] already read, their number, and what follows them. *)
Fixpoint digits (digit : ascii → option Z) (base : Z) (s : string) (acc : Z)
    (count : nat) : Z * nat * string :=
  match s with
  | String c rest =>
      match digit c with
      | Some d => digits digit base rest (acc * base + d) (S count)
      | None => (acc, count, s)
      end
  | EmptyString => (acc, count, s)
  end.

(** An exponent part at the start of [s]: the letter [mark], an optional
    sign and at least one decimal digit; 0 when there is none. *)
Definition exponent (mark : ascii) (s : string) : Z :=
  match s with
  | String c rest =>
      if Ascii.eqb (lower c) mark then
        let '(negative, rest') :=
          match rest with
          | String "-" r => (true, r)
          | String "+" r => (false, r)
          | _ => (false, rest)
          end in
        let '(k, count, _) := digits digit_of 10 rest' 0 0 in
        match count with
        | O => 0
        | S _ => if negative then - k else k
        end
      else 0
  | EmptyString => 0
  end.

(** A number at the start of [s]: digits with at most one point among
    them, at least one digit in all, and an exponent part; its value is
    [significand * radix ^ power], and there is none when no digit is
    found. *)
Definition number (digit : ascii → option Z) (base radix : Z) (mark : ascii)
    (per_digit : Z) (s : string) : option Q :=
  let '(i, ni, rest) := digits digit base s 0 0 in
  let '(f, nf, rest') :=
    match rest with
    | String "." r => digits digit base r i 0
    | _ => (i, O, rest)
    end in
  match (ni + nf)%nat with
  | O => None
  | S _ =>
      let power := exponent mark rest' - per_digit * Z.of_nat nf in
      Some (if 0 <=? power then inject_Z (f * radix ^ power)
            else f # Z.to_pos (radix ^ (- power)))
  end.

(** The text that [strtod] converts, in the C locale and after white space
    and a sign: [inf] or [infinity], [nan], a hexadecimal number behind
    [0x], or a decimal number; the value is 0 when the text is none of
    them. *)
Definition unsigned_value (s : string) : fp :=
  match after_word "inf" s with
  | Some _ => Infinity false
  | None =>
      match after_word "nan" s with
      | Some _ => NaN
      | None =>
          let hexadecimal :=
            match after_word "0x" s with
            | Some rest => number hex_digit_of 16 2 "p" 4 rest
            | None => None
            end in
          match hexadecimal with
          | Some q => Num q
          | None =>
              match number digit_of 10 10 "e" 1 s with
              | Some q => Num q
              | None => Num 0
              end
          end
      end
  end.

(** [atof(s)], which is [strtod(s, NULL)]: the [double] nearest to the
    number that [s] starts with. *)
Definition atof (s : string) : fp :=
  let s' := skip_spaces s in
  let '(negative, text) :=
    match s' with
    | String "-" r => (true, r)
    | String "+" r => (false, r)
    | _ => (false, s')
    end in
  match unsigned_value text with
  | Num q => round_binary 53 1024 (if negative then - q else q)%Q
  | Infinity _ => Infinity negative
  | NaN => NaN
  end.

End Libc.

(** ** jansson *)

Module Jansson.

Inductive json_t : Type :=
| JNull
| JTrue
| JFalse
| JInteger (z : Z)
| JReal (q : Q)
| JString (s : string)
| JArray (elems : list json_t)
| JObject (members : list (string * json_t)).

(* A [json_t *] may be [NULL]: [option json_t].  Every accessor accepts
   [NULL] and values of another type and then returns its default.  The
   keys of an object are unique, and a string holds no zero byte
   ([json_loads] is called without flags, so it rejects them). *)

(** The value of [key] among the members of an object. *)
Fixpoint assoc (key : string) (members : list (string * json_t)) : option json_t :=
  match members with
  | [] => None
  | (k, v) :: rest => if String.eqb key k then Some v else assoc key rest
  end.

Definition json_object_get (j : option json_t) (key : string) : option json_t :=
  match j with
  | Some (JObject members) => assoc key members
  | _ => None
  end.

Definition json_is_object (j : option json_t) : bool :=
  match j with Some (JObject _) => true | _ => false end.

Definition json_is_array (j : option json_t) : bool :=
  match j with Some (JArray _) => true | _ => false end.

(** The elements of an array; no element for anything else, for which
    [json_array_size] is 0. *)
Definition json_array_elements (j : option json_t) : list json_t :=
  match j with Some (JArray elems) => elems | _ => [] end.

Definition json_array_size (j : option json_t) : nat :=
  length (json_array_elements j).

Definition json_array_get (j : option json_t) (i : nat) : option json_t :=
  json_array_elements j !! i.

Definition json_real_value (j : option json_t) : Q :=
  match j with Some (JReal q) => q | _ => 0%Q end.

Definition json_integer_value (j : option json_t) : Z :=
  match j with Some (JInteger z) => z | _ => 0 end.

Definition json_string_value (j : option json_t) : option string :=
  match j with Some (JString s) => Some s | _ => None end.

End Jansson.

Import Libc Jansson.

(** ** Transfers *)

(** How [curl_easy_perform] ends: with another code than [CURLE_OK], or
    with a body, which [json_loads] turns into a root value or [NULL]. *)
Inductive curl_result : Type :=
| TransferFailed
| Body (root : option json_t).

(** What one [curl_easy_init] / [curl_easy_perform] / [json_loads] sequence
    gives: no handle, or a transfer.  During the transfer libcurl calls
    [write_memory_callback]; [no_memory] is the number of those calls in
    which [realloc] returned [NULL]. *)
Inductive transfer : Type :=
| NoHandle
| Perform (no_memory : nat) (res : curl_result).

(** A transfer in which every call of the callback got its memory. *)
Definition undisturbed (res : curl_result) : transfer := Perform 0 res.
Coercion undisturbed : curl_result >-> transfer.

(** The root value that a fetch gets to work on, if any. *)
Definition loaded (net : transfer) : option json_t :=
  match net with
  | Perform _ (Body root) => root
  | _ => None
  end.

(** The number of calls of the callback that found no memory. *)
Definition out_of_memory (net : transfer) : nat :=
  match net with
  | Perform no_memory _ => no_memory
  | NoHandle => 0
  end.

(** ** Structs and globals *)

Record Earthquake : Type := mkEarthquake {
  mag : Q;
  place : string;
  time_ago : string;
  id : string
}.

Definition PLACE_SIZE : nat := 256.
Definition TIME_AGO_SIZE : nat := 20.
Definition ID_SIZE : nat := 64.

Definition zero_quake : Earthquake := mkEarthquake 0 EmptyString EmptyString EmptyString.

Record state : Type := mkState {
  g_quakes : list Earthquake;
  g_quake_count : nat;
  g_alerted_ids : list string;
  g_alerted_ids_count : nat;
  g_weather_code : Z;
  g_hourly_weather_codes : list Z;
  g_is_storm_active : Z;
  g_latitude : fp;
  g_longitude : fp
}.

(** The globals at program start: zero-initialised arrays and the default
    location, the [float] values nearest to 54.53 and -1.05. *)
Definition initial_state : state := {|
  g_quakes := replicate MAX_QUAKES zero_quake;
  g_quake_count := 0;
  g_alerted_ids := replicate MAX_ALERTED_IDS EmptyString;
  g_alerted_ids_count := 0;
  g_weather_code := 0;
  g_hourly_weather_codes := replicate 6 0;
  g_is_storm_active := 0;
  g_latitude := 14294712 # 262144;
  g_longitude := - (8808038 # 8388608)
|}.

(** ** Output *)

Inductive banner : Type := Warning | Watch | AllClear.
Inductive color : Type := COLOR_RED | COLOR_YELLOW | COLOR_GREEN.

(** What the program prints; [PrintNoMemory] is the line
    ["Not enough memory (realloc returned NULL)"] of the callback. *)
Inductive event : Type :=
| Bell
| PrintNoMemory
| PrintUnknownArgument (arg : string)
| PrintStartup (min_magnitude alert_threshold lat lon : fp)
| PrintSeismicHeader (min_magnitude : fp) (now : Z)
| PrintQuake (c : color) (q : Earthquake)
| PrintLightningHeader (lat lon : fp)
| PrintBanner (b : banner)
| PrintWaiting.

(** ** format_time_ago *)

(** [now] is what [time(NULL)] returns; the result is what [buffer] holds
    afterwards. *)
Definition format_time_ago (now event_time_ms : Z) (buffer : string) (buffer_size : nat)
  : string :=
  let diff_s := now - event_time_ms `quot` 1000 in
  if diff_s <? 60 then snprintf buffer buffer_size (fmt_lld diff_s +:+ "s ago")
  else snprintf buffer buffer_size (fmt_lld (diff_s `quot` 60) +:+ "m ago").

(** ** compare_quakes and qsort *)

Definition compare_quakes (a b : Earthquake) : Z :=
  if flt (mag a) (mag b) then 1
  else if flt (mag b) (mag a) then -1
  else 0.

(** What the C standard asks of a comparison function: the results on a
    pair and on the swapped pair have opposite signs, and the order is
    transitive. *)
Definition consistent {A : Type} (compar : A → A → Z) : Prop :=
  (∀ a b, Z.sgn (compar b a) = - Z.sgn (compar a b)) ∧
  (∀ a b c, compar a b <= 0 → compar b c <= 0 → compar a c <= 0).

(** [qsort] is libc's.  The standard fixes its result up to the order of
    elements that compare equal: the array is rearranged, and with a
    consistent comparison function no element compares greater than a later
    one. *)
Class Qsort : Type := {
  qsort : ∀ {A : Type}, list A → (A → A → Z) → list A;
  qsort_permutation : ∀ (A : Type) (base : list A) compar,
    qsort base compar ≡ₚ base;
  qsort_sorted : ∀ (A : Type) (base : list A) compar,
    consistent compar →
    StronglySorted (λ a b, compar a b <= 0) (qsort base compar)
}.

(** ** State updates *)

Definition set_quakes (qs : list Earthquake) (n : nat) (st : state) : state :=
  mkState qs n (g_alerted_ids st) (g_alerted_ids_count st)
          (g_weather_code st) (g_hourly_weather_codes st)
          (g_is_storm_active st) (g_latitude st) (g_longitude st).

Definition set_alerted (ids : list string) (n : nat) (st : state) : state :=
  mkState (g_quakes st) (g_quake_count st) ids n
          (g_weather_code st) (g_hourly_weather_codes st)
          (g_is_storm_active st) (g_latitude st) (g_longitude st).

Definition set_weather (code : Z) (hourly : list Z) (st : state) : state :=
  mkState (g_quakes st) (g_quake_count st)
          (g_alerted_ids st) (g_alerted_ids_count st)
          code hourly
          (g_is_storm_active st) (g_latitude st) (g_longitude st).

Definition set_storm_active (flag : Z) (st : state) : state :=
  mkState (g_quakes st) (g_quake_count st)
          (g_alerted_ids st) (g_alerted_ids_count st)
          (g_weather_code st) (g_hourly_weather_codes st)
          flag (g_latitude st) (g_longitude st).

Definition set_location (lat lon : fp) (st : state) : state :=
  mkState (g_quakes st) (g_quake_count st)
          (g_alerted_ids st) (g_alerted_ids_count st)
          (g_weather_code st) (g_hourly_weather_codes st)
          (g_is_storm_active st) lat lon.

(** [g_quakes[i]] and [g_alerted_ids[j]]. *)
Definition quake_at (st : state) (i : nat) : Earthquake :=
  default zero_quake (g_quakes st !! i).
Definition alerted_id_at (ids : list string) (j : nat) : string :=
  default EmptyString (ids !! j).

(** ** check_for_quake_alerts *)

(** The inner loop: is [id] one of the first [count] entries? *)
Fixpoint already_alerted (id : string) (ids : list string) (count : nat) : bool :=
  match count, ids with
  | S count', x :: ids' => if streq id x then true else already_alerted id ids' count'
  | _, _ => false
  end.

(** [for (k = 0; k < MAX_ALERTED_IDS - 1; k++) strcpy(ids[k], ids[k+1]);] *)
Definition shift_ids (ids : list string) : list string :=
  foldl (λ a k, <[k := alerted_id_at a (S k)]> a) ids (seq 0 (MAX_ALERTED_IDS - 1)).

Definition remember_id (id : string) (st : state) : state :=
  let n := g_alerted_ids_count st in
  if decide (n < MAX_ALERTED_IDS)%nat
  then set_alerted (<[n := id]> (g_alerted_ids st)) (S n) st
  else set_alerted (<[(MAX_ALERTED_IDS - 1)%nat := id]> (shift_ids (g_alerted_ids st))) n st.

(** The body of the outer loop for the quake [q = g_quakes[i]]. *)
Definition alert_quake (alert_threshold : fp) (q : Earthquake) (st : state)
  : state * list event :=
  if fge (mag q) alert_threshold then
    if already_alerted (id q) (g_alerted_ids st) (g_alerted_ids_count st)
    then (st, [])
    else (remember_id (id q) st, [Bell])
  else (st, []).

Fixpoint alert_loop (alert_threshold : fp) (qs : list Earthquake) (st : state)
  : state * list event :=
  match qs with
  | [] => (st, [])
  | q :: qs' =>
      let '(st1, out1) := alert_quake alert_threshold q st in
      let '(st2, out2) := alert_loop alert_threshold qs' st1 in
      (st2, out1 ++ out2)
  end.

(** The loop reads [g_quakes[0 .. g_quake_count)], which it does not
    write. *)
Definition check_for_quake_alerts (alert_threshold : fp) (st : state)
  : state * list event :=
  alert_loop alert_threshold (take (g_quake_count st) (g_quakes st)) st.

(** ** fetch_seismic_data *)

(** [json_real_value(json_object_get(properties, "mag"))] of a feature: 0
    when [mag] is absent or is no JSON real. *)
Definition feature_mag (value : json_t) : Q :=
  let properties := json_object_get (Some value) "properties" in
  json_real_value (json_object_get properties "mag").

(** The writes to [g_quakes[g_quake_count]], a slot that holds [old], for a
    retained feature; [now] is what [time(NULL)] returns inside
    [format_time_ago]. *)
Definition fill_slot (now : Z) (value : json_t) (old : Earthquake) : Earthquake :=
  let properties := json_object_get (Some value) "properties" in
  let place' :=
    match json_string_value (json_object_get properties "place") with
    | Some p => strncpy p (PLACE_SIZE - 1)
    | None => place old
    end in
  let id' :=
    match json_string_value (json_object_get properties "id") with
    | Some i => strncpy i (ID_SIZE - 1)
    | None => id old
    end in
  let t := json_integer_value (json_object_get properties "time") in
  mkEarthquake (feature_mag value) place'
               (format_time_ago now t (time_ago old) TIME_AGO_SIZE) id'.

(** The body of the scan loop for one feature. *)
Definition scan_feature (min_magnitude : fp) (now : Z) (value : json_t) (st : state)
  : state :=
  if fge (feature_mag value) min_magnitude then
    let n := g_quake_count st in
    set_quakes (<[n := fill_slot now value (quake_at st n)]> (g_quakes st)) (S n) st
  else st.

(** The scan loop over the elements of [features], from the current one on.
    [time k] is the clock at the call of [format_time_ago] for slot [k]. *)
Fixpoint scan_features (min_magnitude : fp) (time : nat → Z)
    (features : list json_t) (st : state) : state :=
  match features with
  | [] => st
  | value :: rest =>
      if decide (g_quake_count st < MAX_QUAKES)%nat
      then scan_features min_magnitude time rest
             (scan_feature min_magnitude (time (g_quake_count st)) value st)
      else st
  end.

(** [qsort(g_quakes, g_quake_count, sizeof(Earthquake), compare_quakes)] *)
Definition sort_quakes `{Qsort} (st : state) : state :=
  let n := g_quake_count st in
  set_quakes (qsort (take n (g_quakes st)) compare_quakes ++ drop n (g_quakes st)) n st.

(** The lines that [write_memory_callback] prints during a transfer: one
    for each call in which [realloc] returned [NULL]. *)
Definition callback_output (no_memory : nat) : list event :=
  replicate no_memory PrintNoMemory.

Definition fetch_seismic_data `{Qsort} (min_magnitude alert_threshold : fp)
    (net : transfer) (time : nat → Z) (st : state) : state * list event :=
  let st0 := set_quakes (g_quakes st) 0 st in
  match net with
  | NoHandle => (st0, [])
  | Perform no_memory res =>
      let printed := callback_output no_memory in
      match res with
      | Body (Some root) =>
          let features := json_object_get (Some root) "features" in
          let st1 :=
            scan_features min_magnitude time (json_array_elements features) st0 in
          let '(st2, out) := check_for_quake_alerts alert_threshold (sort_quakes st1) in
          (st2, printed ++ out)
      | _ => (st0, printed)
      end
  end.

(** ** fetch_lightning_data *)

(** [for (i = 0; i < 6 && i < json_array_size(hourly_codes); i++)
       g_hourly_weather_codes[i] = json_integer_value(json_array_get(hourly_codes, i));] *)
Definition copy_hourly (hourly_codes : option json_t) (codes : list Z) : list Z :=
  foldl (λ a i, <[i := int_of_long_long (json_integer_value (json_array_get hourly_codes i))]> a)
        codes (seq 0 (6 `min` json_array_size hourly_codes)).

Definition fetch_lightning_data (net : transfer) (st : state) : state * list event :=
  let st0 := set_weather 0 (replicate 6 0) st in
  match net with
  | NoHandle => (st0, [])
  | Perform no_memory res =>
      let printed := callback_output no_memory in
      match res with
      | Body (Some root) =>
          let current := json_object_get (Some root) "current" in
          let code :=
            if json_is_object current
            then int_of_long_long
                   (json_integer_value (json_object_get current "weather_code"))
            else g_weather_code st0 in
          let hourly := json_object_get (Some root) "hourly" in
          let codes :=
            if json_is_object hourly then
              let hourly_codes := json_object_get hourly "weather_code" in
              if json_is_array hourly_codes
              then copy_hourly hourly_codes (g_hourly_weather_codes st0)
              else g_hourly_weather_codes st0
            else g_hourly_weather_codes st0 in
          (set_weather code codes st0, printed)
      | _ => (st0, printed)
      end
  end.

(** ** render_display *)

Definition is_alert_code (code : Z) : bool :=
  (code =? LIGHTNING_ALERT_CODE_1) || (code =? LIGHTNING_ALERT_CODE_2)
  || (code =? LIGHTNING_ALERT_CODE_3).

Definition hourly_at (st : state) (i : nat) : Z :=
  default 0 (g_hourly_weather_codes st !! i).

(** [for (i = 1; i < 6; i++) if (...) { is_watch = 1; break; }] *)
Definition is_watch (st : state) : bool :=
  existsb (λ i, is_alert_code (hourly_at st i)) (seq 1 5).

Definition is_warning (st : state) : bool := is_alert_code (g_weather_code st).

Definition quake_color (q : Earthquake) : color :=
  if fge (mag q) (6 # 1) then COLOR_RED
  else if fge (mag q) (4 # 1) then COLOR_YELLOW
  else COLOR_GREEN.

(** The lightning status section: the banner, the bell and the
    storm-active flag. *)
Definition render_lightning (st : state) : state * list event :=
  if is_warning st then
    if g_is_storm_active st =? 0
    then (set_storm_active 1 st, [PrintBanner Warning; Bell])
    else (st, [PrintBanner Warning])
  else if is_watch st then (set_storm_active 0 st, [PrintBanner Watch])
  else (set_storm_active 0 st, [PrintBanner AllClear]).

Definition render_display (min_magnitude : fp) (now : Z) (st : state)
  : state * list event :=
  let quakes :=
    map (λ q, PrintQuake (quake_color q) q) (take (g_quake_count st) (g_quakes st)) in
  let '(st', status) := render_lightning st in
  (st',
   PrintSeismicHeader min_magnitude now :: quakes
   ++ PrintLightningHeader (g_latitude st) (g_longitude st) :: status).

(** ** main *)

(** One iteration of the [while (1)] loop needs two transfers and the
    clock. *)
Record cycle_input : Type := mkCycleInput {
  seismic_transfer : transfer;
  seismic_clock : nat → Z;
  lightning_transfer : transfer;
  render_clock : Z
}.

Definition cycle `{Qsort} (min_magnitude alert_threshold : fp)
    (inp : cycle_input) (st : state) : state * list event :=
  let '(st1, out1) :=
    fetch_seismic_data min_magnitude alert_threshold
      (seismic_transfer inp) (seismic_clock inp) st in
  let '(st2, out2) := fetch_lightning_data (lightning_transfer inp) st1 in
  let '(st3, out3) := render_display min_magnitude (render_clock inp) st2 in
  (st3, out1 ++ out2 ++ out3 ++ [PrintWaiting]).

(** The first [length inputs] iterations of the loop. *)
Fixpoint cycles `{Qsort} (min_magnitude alert_threshold : fp)
    (inputs : list cycle_input) (st : state) : state * list event :=
  match inputs with
  | [] => (st, [])
  | inp :: rest =>
      let '(st1, out1) := cycle min_magnitude alert_threshold inp st in
      let '(st2, out2) := cycles min_magnitude alert_threshold rest st1 in
      (st2, out1 ++ out2)
  end.

(** The locals and globals that argument parsing sets. *)
Record settings : Type := mkSettings {
  min_magnitude : fp;
  alert_threshold : fp;
  monitor : state
}.

Section Main.

(** [atof] is libc's; [float_of_double] is the conversion that an
    assignment of a [double] to a [float] variable performs. *)
Variable atof : string → fp.
Variable float_of_double : fp → fp.

Definition initial_settings : settings :=
  mkSettings 0 MAJOR_QUAKE_THRESHOLD initial_state.

(** [-q]'s value: [min_magnitude = atof(argv[i + 1]);
    if (min_magnitude < 0) min_magnitude = 0.0;] *)
Definition parse_min_magnitude (arg : string) : fp :=
  let m := float_of_double (atof arg) in
  if flt m 0 then 0%Q else m.

(** The argument loop over [argv[i], argv[i + 1], ...]. *)
Fixpoint parse_args (args : list string) (s : settings) : settings * list event :=
  match args with
  | [] => (s, [])
  | a :: rest =>
      match streq a "-q", rest with
      | true, x :: rest' =>
          let m := parse_min_magnitude x in
          parse_args rest' (mkSettings m m (monitor s))
      | _, _ =>
          match streq a "-l", rest with
          | true, x :: y :: rest' =>
              parse_args rest'
                (mkSettings (min_magnitude s) (alert_threshold s)
                   (set_location (float_of_double (atof x))
                                 (float_of_double (atof y)) (monitor s)))
          | _, _ =>
              if streq a "test"
              then parse_args rest (mkSettings (min_magnitude s) 0 (monitor s))
              else
                let '(s', out) := parse_args rest s in
                (s', PrintUnknownArgument a :: out)
          end
      end
  end.

(** [main] up to the end of the given iterations of its loop;
    [argv] without the program name. *)
Definition main `{Qsort} (argv : list string) (inputs : list cycle_input)
  : state * list event :=
  let '(s, out0) := parse_args argv initial_settings in
  let startup :=
    PrintStartup (min_magnitude s) (alert_threshold s)
                 (g_latitude (monitor s)) (g_longitude (monitor s)) in
  let '(st, out) := cycles (min_magnitude s) (alert_threshold s) inputs (monitor s) in
  (st, out0 ++ startup :: out).

End Main.

(** ** The labels of the specification *)

(** The relative-age label as the specification words it: seconds under a
    minute, whole minutes otherwise, with no bound on its length. *)
Definition relative_age (now event_time_ms : Z) : string :=
  let diff := now - event_time_ms `quot` 1000 in
  if diff <? 60 then fmt_lld diff +:+ "s ago"
  else fmt_lld (diff `quot` 60) +:+ "m ago".

(** ** Reading the output *)

Definition is_bell (e : event) : bool :=
  match e with Bell => true | _ => false end.

(** A line of the callback or a bell: what a fetch can put on the
    output. *)
Definition quiet (e : event) : Prop := e = PrintNoMemory ∨ e = Bell.

(** The number of audible alerts in an output. *)
Definition bells (out : list event) : nat := length (List.filter is_bell out).

(** The status banners in an output, in order. *)
Definition banners (out : list event) : list banner :=
  omap (λ e, match e with PrintBanner b => Some b | _ => None end) out.

(** The three thunderstorm codes. *)
Definition storm_code (code : Z) : Prop := code = 95 ∨ code = 96 ∨ code = 99.

(** One of the hourly codes at the indices 1 to 5 is a thunderstorm code. *)
Definition storm_ahead (st : state) : Prop :=
  ∃ (i : nat) (code : Z),
    (1 ≤ i ≤ 5)%nat ∧ g_hourly_weather_codes st !! i = Some code ∧ storm_code code.

(** ** The ranked quake list *)

(** The entries of the list: [g_quakes[0 .. g_quake_count)]. *)
Definition ranked (st : state) : list Earthquake :=
  take (g_quake_count st) (g_quakes st).

(** The features that a scan retains when [c] slots are taken: the first
    [MAX_QUAKES - c] of those, in feed order, whose magnitude is at least
    [min_magnitude]. *)
Definition retained_from (min_magnitude : fp) (c : nat) (features : list json_t)
  : list json_t :=
  take (MAX_QUAKES - c) (List.filter (λ v, fge (feature_mag v) min_magnitude) features).

(** The features that a fetch retains: the first [MAX_QUAKES] of them. *)
Definition retained (min_magnitude : fp) (features : list json_t) : list json_t :=
  retained_from min_magnitude 0 features.

(** The features of a feed. *)
Definition feed_features (root : json_t) : list json_t :=
  json_array_elements (json_object_get (Some root) "features").





(** The records that the retained features [sel] leave in the slots
    [c, c + 1, ...] of the array of [st], before sorting. *)
Definition stored_from (time : nat → Z) (c : nat) (st : state) (sel : list json_t)
  : list Earthquake :=
  imap (λ k v, fill_slot (time (c + k)%nat) v (quake_at st (c + k))) sel.

Definition stored (time : nat → Z) (st : state) (sel : list json_t) : list Earthquake :=
  stored_from time 0 st sel.

(** Descending by magnitude. *)
Definition descending (qs : list Earthquake) : Prop :=
  StronglySorted (λ a b, (mag b <= mag a)%Q) qs.

(** The arrays have their declared sizes and the counters stay within
    them. *)
Definition wf_state (st : state) : Prop :=
  length (g_quakes st) = MAX_QUAKES
  ∧ (g_quake_count st ≤ MAX_QUAKES)%nat
  ∧ length (g_alerted_ids st) = MAX_ALERTED_IDS
  ∧ (g_alerted_ids_count st ≤ MAX_ALERTED_IDS)%nat
  ∧ length (g_hourly_weather_codes st) = 6%nat.

(** [st'] differs from [st] in the alerted-id ring at most. *)
Definition same_but_ring (st st' : state) : Prop :=
  g_quakes st' = g_quakes st
  ∧ g_quake_count st' = g_quake_count st
  ∧ g_weather_code st' = g_weather_code st
  ∧ g_hourly_weather_codes st' = g_hourly_weather_codes st
  ∧ g_is_storm_active st' = g_is_storm_active st
  ∧ g_latitude st' = g_latitude st
  ∧ g_longitude st' = g_longitude st.

(** ** A qsort to run the model with *)

(** The order that a comparison function induces, and a merge sort along
    it. *)
Definition precedes {A : Type} (compar : A → A → Z) (a b : A) : Prop :=
  compar a b <= 0.

#[global] Instance precedes_dec {A : Type} (compar : A → A → Z) (a b : A)
  : Decision (precedes compar a b) := decide (compar a b <= 0).

Definition merge_qsort {A : Type} (base : list A) (compar : A → A → Z) : list A :=
  merge_sort (precedes compar) base.

(** ** The alerted-id ring *)

(** The identifiers in the ring, oldest first:
    [g_alerted_ids[0 .. g_alerted_ids_count)]. *)
Definition ring (st : state) : list string :=
  take (g_alerted_ids_count st) (g_alerted_ids st).

(** First-in first-out insertion into a ring of [MAX_ALERTED_IDS] slots:
    append, and when the ring is full drop the oldest entry first. *)
Definition push (id : string) (r : list string) : list string :=
  if decide (length r < MAX_ALERTED_IDS)%nat then r ++ [id] else drop 1 r ++ [id].

(** The identifiers of the quakes of [qs] that ring the bell when the alert
    loop runs over [qs] from [st], in order. *)
Fixpoint alerted_ids_of (alert_threshold : fp) (qs : list Earthquake) (st : state)
  : list string :=
  match qs with
  | [] => []
  | q :: qs' =>
      let '(st1, out1) := alert_quake alert_threshold q st in
      (if decide (out1 = []) then [] else [id q])
      ++ alerted_ids_of alert_threshold qs' st1
  end.

(** The ring array has its declared size and its counter stays within it. *)
Definition wf_ring (st : state) : Prop :=
  length (g_alerted_ids st) = MAX_ALERTED_IDS
  ∧ (g_alerted_ids_count st ≤ MAX_ALERTED_IDS)%nat.

(** ** Example feeds *)

Definition feature (m : Q) (place id : string) (time_ms : Z) : json_t :=
  JObject [("properties",
            JObject [("mag", JReal m); ("place", JString place);
                     ("id", JString id); ("time", JInteger time_ms)])].

(** A feature whose [id] is missing. *)
Definition feature_without_id (m : Q) (place : string) (time_ms : Z) : json_t :=
  JObject [("properties",
            JObject [("mag", JReal m); ("place", JString place);
                     ("time", JInteger time_ms)])].

Definition feed (features : list json_t) : json_t :=
  JObject [("features", JArray features)].

Definition example_feed : json_t :=
  feed [feature (45 # 10) "Tonga" "us1" 1699999970000;
        feature (2 # 1) "Alaska" "ak2" 1699999815000;
        feature (61 # 10) "Chile" "us3" 1699999000000].

(** [n] strong quakes with the identifiers ["0"], ["1"], ... *)
Definition numbered_quakes (n : nat) : list Earthquake :=
  (λ k : nat, mkEarthquake (7 # 1) EmptyString EmptyString (pretty k)) <$> seq 0 n.

Definition example_quake : Earthquake := mkEarthquake (7 # 1) "Fiji" "5m ago" "us7".

(** Two feeds of one strong quake each; the second quake has no [id]. *)
Definition first_feed : json_t :=
  feed [feature (7 # 1) "Fiji" "us7" 1699999700000].
Definition second_feed : json_t :=
  feed [feature_without_id (65 # 10) "Japan" 1699999970000].

(** ** The weather feed *)

(** The current condition code of a feed: [current.weather_code], 0 when it
    is absent or no integer. *)
Definition feed_weather_code (root : json_t) : Z :=
  json_integer_value
    (json_object_get (json_object_get (Some root) "current") "weather_code").

(** The entries of [hourly.weather_code]; none when it is absent or no
    array. *)
Definition feed_hourly_codes (root : json_t) : list json_t :=
  json_array_elements
    (json_object_get (json_object_get (Some root) "hourly") "weather_code").

(** A value of the feed fits an [int]. *)
Definition fits_int (z : Z) : Prop := - 2 ^ 31 ≤ z < 2 ^ 31.

(** A forecast whose current code is [code]. *)
Definition forecast (code : Z) (hourly : list Z) : json_t :=
  JObject [("current", JObject [("weather_code", JInteger code)]);
           ("hourly", JObject [("weather_code", JArray (JInteger <$> hourly))])].

(** ** More on the ring *)

(** The [k] newest entries of a history, oldest first. *)
Definition newest {A : Type} (k : nat) (l : list A) : list A :=
  drop (length l - k) l.

(** A quake that the alert loop considers. *)
Definition eligible (alert_threshold : fp) (q : Earthquake) : Prop :=
  fge (mag q) alert_threshold = true.

#[global] Instance eligible_dec (alert_threshold : fp) (q : Earthquake)
  : Decision (eligible alert_threshold q) :=
  decide (fge (mag q) alert_threshold = true).

(** The ring is within its array and holds no identifier twice. *)
Definition ring_ok (st : state) : Prop := wf_ring st ∧ NoDup (ring st).

(** The state in which the first [n] numbered quakes are the ranked list. *)
Definition crowded_state (n : nat) : state :=
  set_quakes (numbered_quakes n ++ replicate (MAX_QUAKES - n) zero_quake) n
             initial_state.

(** ** Buffers *)

(** The strings of a record fit their buffers, terminator included. *)
Definition bounded_quake (q : Earthquake) : Prop :=
  (String.length (place q) < PLACE_SIZE)%nat
  ∧ (String.length (time_ago q) < TIME_AGO_SIZE)%nat
  ∧ (String.length (id q) < ID_SIZE)%nat.

(** An identifier fits a slot of [g_alerted_ids], which has 64 bytes. *)
Definition bounded_id (s : string) : Prop := (String.length s < 64)%nat.

Definition bounded_state (st : state) : Prop :=
  Forall bounded_quake (g_quakes st) ∧ Forall bounded_id (g_alerted_ids st).

(** [n] features of magnitude 5 with the identifiers ["0"], ["1"], ... *)
Definition numbered_features (n : nat) : list json_t :=
  (λ k : nat, feature (5 # 1) "Peru" (pretty k) 1699999970000) <$> seq 0 n.

(** ** Reading the display *)

(** The quake lines of an output, in order: the colour and the record. *)
Definition quake_lines (out : list event) : list (color * Earthquake) :=
  omap (λ e, match e with PrintQuake c q => Some (c, q) | _ => None end) out.

(** The rank of a colour: red before yellow before green. *)
Definition tier (c : color) : nat :=
  match c with COLOR_RED => 0 | COLOR_YELLOW => 1 | COLOR_GREEN => 2 end.

(** The storm-active flag is 0 or 1. *)
Definition flag_is_boolean (st : state) : Prop :=
  g_is_storm_active st = 0 ∨ g_is_storm_active st = 1.

(** [st'] differs from [st] in the storm-active flag at most. *)
Definition same_but_flag (st st' : state) : Prop :=
  g_quakes st' = g_quakes st
  ∧ g_quake_count st' = g_quake_count st
  ∧ g_alerted_ids st' = g_alerted_ids st
  ∧ g_alerted_ids_count st' = g_alerted_ids_count st
  ∧ g_weather_code st' = g_weather_code st
  ∧ g_hourly_weather_codes st' = g_hourly_weather_codes st
  ∧ g_latitude st' = g_latitude st
  ∧ g_longitude st' = g_longitude st.

(** ** Settings *)

(** What argument parsing keeps true of the two thresholds: the filter is
    not below 0, and the alert threshold is the filter's value, or 0, or
    still the default while the filter is 0. *)
Definition thresholds_ok (s : settings) : Prop :=
  flt (min_magnitude s) 0 = false
  ∧ (alert_threshold s = min_magnitude s
     ∨ alert_threshold s = 0%Q
     ∨ (alert_threshold s = MAJOR_QUAKE_THRESHOLD ∧ min_magnitude s = 0%Q)).

(** [st'] differs from [st] in the monitor location at most. *)
Definition same_but_location (st st' : state) : Prop :=
  g_quakes st' = g_quakes st
  ∧ g_quake_count st' = g_quake_count st
  ∧ g_alerted_ids st' = g_alerted_ids st
  ∧ g_alerted_ids_count st' = g_alerted_ids_count st
  ∧ g_weather_code st' = g_weather_code st
  ∧ g_hourly_weather_codes st' = g_hourly_weather_codes st
  ∧ g_is_storm_active st' = g_is_storm_active st.

(** ** write_memory_callback *)

(** [struct MemoryStruct]: the block at [memory], byte by byte, and the
    number of body bytes in it. *)
Module MemoryStruct.
Record t : Type := mk { memory : list Byte.byte; size : Z }.
End MemoryStruct.

(** Arithmetic on [size_t] is modulo [2^64]. *)
Definition size_t (z : Z) : Z := z `mod` 2 ^ 64.

(** [realloc(ptr, n)].  [heap] is what the allocator does: [None] when it
    fails, and otherwise the bytes that the new block holds beyond the old
    ones, which are indeterminate.  The new block has [n] bytes and starts
    with the bytes of the old one. *)
Definition realloc (ptr : list Byte.byte) (n : Z) (heap : option (list Byte.byte))
  : option (list Byte.byte) :=
  match heap with
  | None => None
  | Some junk => Some (resize (Z.to_nat n) Byte.x00 (ptr ++ junk))
  end.

(** [memcpy(&dst[offset], src, n)] *)
Definition memcpy (dst : list Byte.byte) (offset : nat) (src : list Byte.byte) (n : nat)
  : list Byte.byte :=
  list_inserts offset (take n src) dst.

(** The callback gives back the chunk, the count it returns and the lines
    it prints. *)
Definition write_memory_callback (contents : list Byte.byte) (size nmemb : Z)
    (userp : MemoryStruct.t) (heap : option (list Byte.byte))
  : MemoryStruct.t * Z * list string :=
  let realsize := size_t (size * nmemb) in
  match realloc (MemoryStruct.memory userp)
                (size_t (MemoryStruct.size userp + realsize + 1)) heap with
  | None => (userp, 0, ["Not enough memory (realloc returned NULL)"])
  | Some ptr =>
      let copied :=
        memcpy ptr (Z.to_nat (MemoryStruct.size userp)) contents (Z.to_nat realsize) in
      let size' := size_t (MemoryStruct.size userp + realsize) in
      (MemoryStruct.mk (<[Z.to_nat size' := Byte.x00]> copied) size', realsize, [])
  end.

(** [{ .memory = malloc(1), .size = 0 }]: one byte, not initialised. *)
Definition fresh_chunk (b : Byte.byte) : MemoryStruct.t := MemoryStruct.mk [b] 0.

(** The calls that libcurl makes during a transfer: one for each piece of
    the body, with [size] 1 and the length of the piece, until the callback
    returns another count than the one it was given.  The result is the
    chunk, whether the transfer went through, and the lines printed. *)
Fixpoint receive (pieces : list (list Byte.byte * option (list Byte.byte)))
    (chunk : MemoryStruct.t) : MemoryStruct.t * bool * list string :=
  match pieces with
  | [] => (chunk, true, [])
  | (contents, heap) :: rest =>
      let '(chunk1, count, out1) :=
        write_memory_callback contents 1 (Z.of_nat (length contents)) chunk heap in
      if count =? Z.of_nat (length contents) then
        let '(chunk2, ok, out2) := receive rest chunk1 in
        (chunk2, ok, out1 ++ out2)
      else (chunk1, false, out1)
  end.

(** [curl_easy_perform] as the fetch functions see it: libcurl delivers the
    pieces to the callback, which prints a line for each call that finds no
    memory; the transfer ends with [CURLE_OK] when every piece was taken and
    nothing else went wrong, and then [json_loads] reads the block. *)
Definition curl_easy_perform
    (pieces : list (list Byte.byte * option (list Byte.byte)))
    (chunk : MemoryStruct.t) (completes : bool)
    (json_loads : list Byte.byte → option json_t) : transfer :=
  let '(chunk', taken, printed) := receive pieces chunk in
  Perform (length printed)
          (if taken && completes
           then Body (json_loads (MemoryStruct.memory chunk'))
           else TransferFailed).

(** The block has one byte more than the body received so far, as after
    [malloc(1)] and after every call of the callback. *)
Definition chunk_ok (chunk : MemoryStruct.t) : Prop :=
  0 <= MemoryStruct.size chunk
  ∧ length (MemoryStruct.memory chunk) = S (Z.to_nat (MemoryStruct.size chunk)).

(** The body received so far. *)
Definition chunk_body (chunk : MemoryStruct.t) : list Byte.byte :=
  take (Z.to_nat (MemoryStruct.size chunk)) (MemoryStruct.memory chunk).

(** * Properties *)

(** ** Strings and the C library *)

Section LibcFacts.

Lemma length_append (s t : string) :
  String.length (s +:+ t) = (String.length s + String.length t)%nat.
Proof. induction s as [|c s IH]; simpl; [done | by rewrite IH]. Qed.

Lemma substring_whole (s : string) (n : nat) :
  (String.length s ≤ n)%nat → String.substring 0 n s = s.
Proof.
  revert n; induction s as [|c s IH]; intros [|n] Hn; simpl in *; try done; try lia.
  f_equal. apply IH. lia.
Qed.

Lemma length_substring_le (s : string) (n : nat) :
  (String.length (String.substring 0 n s) ≤ n)%nat.
Proof.
  revert n; induction s as [|c s IH]; intros [|n]; simpl; try lia.
  specialize (IH n). lia.
Qed.

(** The first characters of a text are the start of it. *)
Lemma substring_prefix (s : string) (n : nat) :
  ∃ rest, s = String.substring 0 n s +:+ rest.
Proof.
  revert n; induction s as [|c s IH]; intros [|n]; simpl; eauto.
  destruct (IH n) as [rest Hrest]. exists rest.
  change (String c s = String c (String.substring 0 n s +:+ rest)). by f_equal.
Qed.

(** A text that fits in the buffer is stored whole. *)
Lemma snprintf_fits (buffer : string) (size : nat) (text : string) :
  (String.length text < size)%nat → snprintf buffer size text = text.
Proof. intros Hlen. destruct size as [|n]; [lia|]. apply substring_whole. lia. Qed.

(** A buffer that has room for the terminator does not overflow. *)
Lemma snprintf_length (buffer : string) (size : nat) (text : string) :
  (0 < size)%nat → (String.length (snprintf buffer size text) ≤ size - 1)%nat.
Proof.
  destruct size as [|n]; [lia|]. intros _. cbn [snprintf].
  rewrite Nat.sub_succ, Nat.sub_0_r. apply length_substring_le.
Qed.

Lemma pretty_N_go_length (k : nat) (x : N) (s : string) :
  (x < 10 ^ N.of_nat k)%N →
  (String.length (pretty_N_go x s) ≤ String.length s + k)%nat.
Proof.
  revert x s; induction k as [|k IH]; intros x s Hx.
  - assert (x = 0%N) as -> by (simpl in Hx; lia).
    rewrite pretty_N_go_0. lia.
  - destruct (decide (x = 0%N)) as [->|Hne].
    + rewrite pretty_N_go_0. lia.
    + rewrite pretty_N_go_step by lia.
      etrans; [apply IH|simpl; lia].
      rewrite Nat2N.inj_succ, N.pow_succ_r' in Hx.
      apply N.Div0.div_lt_upper_bound. lia.
Qed.

Lemma pretty_N_length (k : nat) (x : N) :
  (x < 10 ^ N.of_nat (S k))%N → (String.length (pretty x) ≤ S k)%nat.
Proof.
  intros Hx. unfold pretty, pretty_N. case_decide; [simpl; lia|].
  apply (pretty_N_go_length (S k) x EmptyString). done.
Qed.

(** [%lld] prints at most [k] digits, and a sign, for a value of
    magnitude below [10^k]. *)
Lemma fmt_lld_length (k : nat) (z : Z) :
  - 10 ^ Z.of_nat (S k) < z < 10 ^ Z.of_nat (S k) →
  (String.length (fmt_lld z) ≤ (if (z <? 0)%Z then S (S k) else S k))%nat.
Proof.
  intros Hz. unfold fmt_lld, pretty, pretty_Z.
  assert (∀ p : positive, Z.pos p < 10 ^ Z.of_nat (S k) →
          (String.length (pretty p) ≤ S k)%nat) as Hpos.
  { intros p Hp. unfold pretty, pretty_positive. apply pretty_N_length.
    apply N2Z.inj_lt. rewrite N2Z.inj_pow, nat_N_Z. simpl (Z.of_N 10). lia. }
  destruct z as [|p|p].
  - simpl. lia.
  - apply Hpos. lia.
  - change (Z.neg p <? 0) with true. cbv iota.
    rewrite length_append. change (String.length "-") with 1%nat.
    specialize (Hpos p). lia.
Qed.

End LibcFacts.

(** ** format_time_ago *)

Section TimeFormatter.

Lemma format_time_ago_snprintf (now event_time_ms : Z) (buffer : string) (size : nat) :
  format_time_ago now event_time_ms buffer size
  = snprintf buffer size (relative_age now event_time_ms).
Proof. unfold format_time_ago, relative_age. simpl. by case_match. Qed.

(** The difference is computed without overflow for every [long long]
    timestamp and every clock value of magnitude below [2^62]. *)
Lemma diff_s_in_range (now event_time_ms : Z) :
  - 2 ^ 63 ≤ event_time_ms < 2 ^ 63 → - 2 ^ 62 ≤ now < 2 ^ 62 →
  - 2 ^ 63 ≤ now - event_time_ms `quot` 1000 < 2 ^ 63.
Proof.
  intros Hev Hnow.
  assert (- 2 ^ 60 ≤ event_time_ms `quot` 1000 ≤ 2 ^ 60); [|lia].
  split.
  - apply Z.quot_le_lower_bound; lia.
  - apply Z.quot_le_upper_bound; lia.
Qed.

Lemma relative_age_fits (now event_time_ms : Z) :
  - 10 ^ 13 < now - event_time_ms `quot` 1000 < 6 * 10 ^ 15 →
  (String.length (relative_age now event_time_ms) < TIME_AGO_SIZE)%nat.
Proof.
  intros Hd. unfold relative_age, TIME_AGO_SIZE. simpl.
  set (d := now - event_time_ms `quot` 1000) in *.
  destruct (Z.ltb_spec d 60) as [Hlt|Hge]; rewrite length_append; simpl.
  - pose proof (fmt_lld_length 12 d) as Hlen.
    destruct (Z.ltb_spec d 0); lia.
  - assert (0 ≤ d `quot` 60 < 10 ^ 14) as Hq.
    { split; [apply Z.quot_pos; lia|apply Z.quot_lt_upper_bound; lia]. }
    pose proof (fmt_lld_length 13 (d `quot` 60)) as Hlen.
    destruct (Z.ltb_spec (d `quot` 60) 0); lia.
Qed.

Lemma quot_1000_exact (s : Z) : (s * 1000) `quot` 1000 = s.
Proof. apply Z.quot_mul. lia. Qed.

End TimeFormatter.

(** C8 (amended).  The age label is made from [diff = now - event_time_ms / 1000]:
    the first 19 characters, which the 20-byte buffer holds, of
    ["<diff>s ago"] when [diff] is under 60 and of ["<diff/60>m ago"]
    (integer division, no hours or days) otherwise; the text is whole
    whenever [-10^13 < diff < 6 * 10^15].  An event 30 000 ms before now is
    labelled ["30s ago"], one 185 000 ms before now ["3m ago"]. *)
Theorem format_time_ago_label (now event_time_ms : Z) (buffer : string) :
  format_time_ago now event_time_ms buffer TIME_AGO_SIZE
  = snprintf buffer TIME_AGO_SIZE (relative_age now event_time_ms)
  ∧ (- 10 ^ 13 < now - event_time_ms `quot` 1000 < 6 * 10 ^ 15 →
     format_time_ago now event_time_ms buffer TIME_AGO_SIZE = relative_age now event_time_ms)
  ∧ (event_time_ms = now * 1000 - 30000 →
     format_time_ago now event_time_ms buffer TIME_AGO_SIZE = "30s ago")
  ∧ (event_time_ms = now * 1000 - 185000 →
     format_time_ago now event_time_ms buffer TIME_AGO_SIZE = "3m ago").
Proof.
  split; [apply format_time_ago_snprintf|].
  split; [|split].
  - intros Hd. rewrite format_time_ago_snprintf.
    apply snprintf_fits, relative_age_fits, Hd.
  - intros ->. unfold format_time_ago.
    replace (now * 1000 - 30000) with ((now - 30) * 1000) by lia.
    rewrite quot_1000_exact.
    replace (now - (now - 30)) with 30 by lia. reflexivity.
  - intros ->. unfold format_time_ago.
    replace (now * 1000 - 185000) with ((now - 185) * 1000) by lia.
    rewrite quot_1000_exact.
    replace (now - (now - 185)) with 185 by lia. reflexivity.
Qed.

Lemma format_time_ago_label_witness :
  format_time_ago 1700000000 1699999815000 EmptyString TIME_AGO_SIZE
  = relative_age 1700000000 1699999815000
  ∧ format_time_ago 1700000000 (1700000000 * 1000 - 30000) EmptyString TIME_AGO_SIZE
    = "30s ago"
  ∧ format_time_ago 1700000000 (1700000000 * 1000 - 185000) EmptyString TIME_AGO_SIZE
    = "3m ago".
Proof.
  split; [|split].
  - apply (format_time_ago_label 1700000000 1699999815000 EmptyString).
    vm_compute. done.
  - apply (format_time_ago_label 1700000000 (1700000000 * 1000 - 30000) EmptyString).
    reflexivity.
  - apply (format_time_ago_label 1700000000 (1700000000 * 1000 - 185000) EmptyString).
    reflexivity.
Defined.

(** C8 as stated fails for a timestamp far in the past: the minutes text
    of an event of about 190 million years ago has 20 characters, and the
    buffer keeps 19 of them. *)
Lemma format_time_ago_label_truncated :
  format_time_ago 1700000000 (-6000000000000000000) EmptyString TIME_AGO_SIZE
  ≠ relative_age 1700000000 (-6000000000000000000)
  ∧ format_time_ago 1700000000 (-6000000000000000000) EmptyString TIME_AGO_SIZE
    = "100000028333333m ag".
Proof. split; [by vm_compute|reflexivity]. Qed.

(** C10 (amended).  For an event timestamp in the future
    ([event_time_ms / 1000] greater than [now]) the difference is negative,
    hence under 60: the seconds text ["<negative n>s ago"] is formatted,
    never the minutes text, however far ahead the timestamp lies.  The label
    is the first 19 characters of that text, so it starts with the minus
    sign, and it is the whole text whenever the event is less than [10^13]
    seconds ahead; two minutes ahead it is ["-120s ago"]. *)
Theorem format_time_ago_future (now event_time_ms : Z) (buffer : string) :
  now < event_time_ms `quot` 1000 →
  let diff := now - event_time_ms `quot` 1000 in
  diff < 0
  ∧ format_time_ago now event_time_ms buffer TIME_AGO_SIZE
    = snprintf buffer TIME_AGO_SIZE (fmt_lld diff +:+ "s ago")
  ∧ (∃ rest, format_time_ago now event_time_ms buffer TIME_AGO_SIZE = String "-"%char rest)
  ∧ (- 10 ^ 13 < diff →
     format_time_ago now event_time_ms buffer TIME_AGO_SIZE = fmt_lld diff +:+ "s ago")
  ∧ (event_time_ms = (now + 120) * 1000 →
     format_time_ago now event_time_ms buffer TIME_AGO_SIZE = "-120s ago").
Proof.
  intros Hfuture diff.
  assert (diff < 0) as Hneg by (unfold diff; lia).
  assert (format_time_ago now event_time_ms buffer TIME_AGO_SIZE
          = snprintf buffer TIME_AGO_SIZE (fmt_lld diff +:+ "s ago")) as Hlabel.
  { unfold format_time_ago. fold diff. simpl.
    destruct (Z.ltb_spec diff 60); [done|lia]. }
  split; [done|]. split; [done|]. split; [|split].
  - rewrite Hlabel. destruct diff as [|p|p]; try lia.
    unfold fmt_lld, pretty, pretty_Z. simpl. eauto.
  - intros Hd. rewrite format_time_ago_snprintf, snprintf_fits
      by (apply relative_age_fits; fold diff; lia).
    unfold relative_age. fold diff. simpl.
    destruct (Z.ltb_spec diff 60); [done|lia].
  - intros Hev. rewrite Hlabel. unfold diff. rewrite Hev, quot_1000_exact.
    replace (now - (now + 120)) with (-120) by lia. reflexivity.
Qed.

Lemma format_time_ago_future_witness :
  format_time_ago 1700000000 1700000120000 EmptyString TIME_AGO_SIZE = "-120s ago".
Proof.
  apply (format_time_ago_future 1700000000 1700000120000 EmptyString);
    [vm_compute|]; reflexivity.
Defined.

(** C10 as stated fails far enough in the future: for a timestamp of
    [9 * 10^18] ms the seconds text has 22 characters, and what the buffer
    keeps does not end in ["s ago"]. *)
Lemma format_time_ago_future_truncated :
  1700000000 < 9000000000000000000 `quot` 1000
  ∧ format_time_ago 1700000000 9000000000000000000 EmptyString TIME_AGO_SIZE
    = "-8999998300000000s "
  ∧ ∀ text, format_time_ago 1700000000 9000000000000000000 EmptyString TIME_AGO_SIZE
            ≠ text +:+ "s ago".
Proof.
  assert (format_time_ago 1700000000 9000000000000000000 EmptyString TIME_AGO_SIZE
          = "-8999998300000000s ") as Hlabel by reflexivity.
  split; [by vm_compute|]. split; [done|].
  intros text. rewrite Hlabel. intros H. symmetry in H.
  repeat (destruct text as [|? text]; simpl in H; [discriminate H|injection H as _ H]).
  destruct text; discriminate H.
Qed.

(** ** render_display *)

Section Renderer.

Lemma is_alert_code_spec (code : Z) : is_alert_code code = true ↔ storm_code code.
Proof.
  unfold is_alert_code, storm_code, LIGHTNING_ALERT_CODE_1,
    LIGHTNING_ALERT_CODE_2, LIGHTNING_ALERT_CODE_3.
  rewrite !orb_true_iff, !Z.eqb_eq. tauto.
Qed.

Lemma is_warning_spec (st : state) :
  is_warning st = true ↔ storm_code (g_weather_code st).
Proof. apply is_alert_code_spec. Qed.

Lemma is_watch_spec (st : state) : is_watch st = true ↔ storm_ahead st.
Proof.
  unfold is_watch, storm_ahead. rewrite existsb_exists. split.
  - intros (i & Hi & Hcode). apply in_seq in Hi.
    apply is_alert_code_spec in Hcode. unfold hourly_at in Hcode.
    destruct (g_hourly_weather_codes st !! i) as [code|] eqn:Hlook.
    + exists i, code. split; [lia|]. done.
    + simpl in Hcode. unfold storm_code in Hcode. lia.
  - intros (i & code & Hi & Hlook & Hcode). exists i. split.
    + apply in_seq. lia.
    + apply is_alert_code_spec. unfold hourly_at. by rewrite Hlook.
Qed.

(** The banner and the bell of a render are those of its lightning
    section; the quake lines carry neither. *)
Lemma render_display_lightning (min_magnitude : fp) (now : Z) (st : state) :
  (render_display min_magnitude now st).1 = (render_lightning st).1
  ∧ banners (render_display min_magnitude now st).2 = banners (render_lightning st).2
  ∧ bells (render_display min_magnitude now st).2 = bells (render_lightning st).2.
Proof.
  unfold render_display. destruct (render_lightning st) as [st' status]. simpl.
  split; [done|].
  induction (take (g_quake_count st) (g_quakes st)) as [|q qs IH]; simpl; [done|].
  unfold banners, bells in *. simpl. done.
Qed.

Lemma quake_lines_app (out1 out2 : list event) :
  quake_lines (out1 ++ out2) = quake_lines out1 ++ quake_lines out2.
Proof. apply omap_app. Qed.

Lemma render_display_quake_lines (min_magnitude : fp) (now : Z) (st : state) :
  quake_lines (render_display min_magnitude now st).2
  = (λ q, (quake_color q, q)) <$> ranked st.
Proof.
  unfold render_display, ranked.
  assert (quake_lines (render_lightning st).2 = []) as Hstatus.
  { unfold render_lightning. by repeat case_match. }
  destruct (render_lightning st) as [st' status]. cbn [snd] in *.
  change (PrintSeismicHeader min_magnitude now :: ?l) with
    ([PrintSeismicHeader min_magnitude now] ++ l).
  rewrite !quake_lines_app.
  change (PrintLightningHeader ?a ?b :: status) with
    ([PrintLightningHeader a b] ++ status).
  rewrite quake_lines_app, Hstatus. cbn [quake_lines omap app list_omap].
  rewrite app_nil_r.
  induction (take (g_quake_count st) (g_quakes st)) as [|q qs IH]; [done|].
  cbn. by rewrite <- IH.
Qed.

Lemma render_display_same_but_flag (min_magnitude : fp) (now : Z) (st : state) :
  same_but_flag st (render_display min_magnitude now st).1.
Proof.
  destruct (render_display_lightning min_magnitude now st) as (-> & _).
  unfold render_lightning, same_but_flag. by repeat case_match.
Qed.

Lemma banners_app (out1 out2 : list event) :
  banners (out1 ++ out2) = banners out1 ++ banners out2.
Proof. apply omap_app. Qed.

Lemma render_display_one_banner (min_magnitude : fp) (now : Z) (st : state) :
  length (banners (render_display min_magnitude now st).2) = 1%nat.
Proof.
  destruct (render_display_lightning min_magnitude now st) as (_ & -> & _).
  unfold render_lightning. by repeat case_match.
Qed.

End Renderer.

(** C3.  The banner of a render is chosen by strict priority: the warning
    banner when the current code is one of 95, 96, 99, whatever the hourly
    codes; otherwise the watch banner when one of the hourly codes at the
    indices 1 to 5 is one of them; otherwise the all-clear banner.  In the
    last two cases the storm-active flag is false after the render. *)
Theorem render_display_banner_priority (min_magnitude : fp) (now : Z) (st : state) :
  let st' := (render_display min_magnitude now st).1 in
  let out := (render_display min_magnitude now st).2 in
  (storm_code (g_weather_code st) → banners out = [Warning])
  ∧ (¬ storm_code (g_weather_code st) → storm_ahead st →
     banners out = [Watch] ∧ g_is_storm_active st' = 0)
  ∧ (¬ storm_code (g_weather_code st) → ¬ storm_ahead st →
     banners out = [AllClear] ∧ g_is_storm_active st' = 0).
Proof.
  intros st' out. subst st' out.
  destruct (render_display_lightning min_magnitude now st) as (-> & -> & _).
  unfold render_lightning.
  rewrite <- is_warning_spec, <- is_watch_spec.
  destruct (is_warning st), (is_watch st), (g_is_storm_active st =? 0);
    simpl; repeat split; intros; try done.
Qed.

Lemma render_display_banner_priority_witness :
  banners (render_display 0 1700000000
             (set_weather 99 [0; 95; 0; 0; 0; 0] initial_state)).2 = [Warning]
  ∧ banners (render_display 0 1700000000
               (set_weather 3 [95; 0; 0; 0; 0; 96] initial_state)).2 = [Watch]
  ∧ banners (render_display 0 1700000000
               (set_weather 3 [95; 0; 0; 0; 0; 0] initial_state)).2 = [AllClear].
Proof.
  split; [|split].
  - apply (render_display_banner_priority 0 1700000000
             (set_weather 99 [0; 95; 0; 0; 0; 0] initial_state)).
    unfold storm_code. simpl. lia.
  - apply (render_display_banner_priority 0 1700000000
             (set_weather 3 [95; 0; 0; 0; 0; 96] initial_state)).
    + unfold storm_code. simpl. lia.
    + exists 5%nat, 96. unfold storm_code. simpl. split; [lia|]. split; [done|lia].
  - apply (render_display_banner_priority 0 1700000000
             (set_weather 3 [95; 0; 0; 0; 0; 0] initial_state)).
    + unfold storm_code. simpl. lia.
    + intros (i & code & Hi & Hlook & Hcode). unfold storm_code in Hcode.
      simpl in Hlook.
      destruct i as [|[|[|[|[|[|i]]]]]]; simpl in Hlook; try lia;
        injection Hlook as <-; lia.
Defined.

(** ** The scan loop of fetch_seismic_data *)

Section Scan.

Variables (min_magnitude : fp) (time : nat → Z).

Lemma scan_feature_other_fields (now : Z) (value : json_t) (st : state) :
  let st' := scan_feature min_magnitude now value st in
  g_alerted_ids st' = g_alerted_ids st
  ∧ g_alerted_ids_count st' = g_alerted_ids_count st
  ∧ g_weather_code st' = g_weather_code st
  ∧ g_hourly_weather_codes st' = g_hourly_weather_codes st
  ∧ g_is_storm_active st' = g_is_storm_active st
  ∧ g_latitude st' = g_latitude st
  ∧ g_longitude st' = g_longitude st.
Proof. unfold scan_feature. by case_match. Qed.

Lemma scan_features_other_fields (features : list json_t) (st : state) :
  let st' := scan_features min_magnitude time features st in
  g_alerted_ids st' = g_alerted_ids st
  ∧ g_alerted_ids_count st' = g_alerted_ids_count st
  ∧ g_weather_code st' = g_weather_code st
  ∧ g_hourly_weather_codes st' = g_hourly_weather_codes st
  ∧ g_is_storm_active st' = g_is_storm_active st
  ∧ g_latitude st' = g_latitude st
  ∧ g_longitude st' = g_longitude st.
Proof.
  revert st; induction features as [|v rest IH]; intros st; simpl; [done|].
  case_decide; [|done].
  specialize (IH (scan_feature min_magnitude (time (g_quake_count st)) v st)).
  pose proof (scan_feature_other_fields (time (g_quake_count st)) v st) as Hf.
  simpl in *. intuition congruence.
Qed.

(** The loop fills consecutive slots with the retained features and
    touches no other slot. *)
Lemma scan_features_slots (features : list json_t) (st : state) :
  length (g_quakes st) = MAX_QUAKES →
  (g_quake_count st ≤ MAX_QUAKES)%nat →
  let c := g_quake_count st in
  let sel := retained_from min_magnitude c features in
  let st' := scan_features min_magnitude time features st in
  g_quake_count st' = (c + length sel)%nat
  ∧ g_quakes st' =
      take c (g_quakes st) ++ stored_from time c st sel
      ++ drop (c + length sel) (g_quakes st).
Proof.
  unfold MAX_QUAKES.
  revert st; induction features as [|v rest IH]; intros st Hlen Hc; simpl.
  - unfold retained_from. simpl. rewrite take_nil. simpl.
    rewrite Nat.add_0_r, take_drop. done.
  - case_decide as Hlt.
    + unfold scan_feature, retained_from, MAX_QUAKES in *. simpl.
      destruct (fge (feature_mag v) min_magnitude) eqn:Hkeep.
      * set (x := fill_slot (time (g_quake_count st)) v (quake_at st (g_quake_count st))).
        set (st1 := set_quakes _ _ st).
        destruct (IH st1) as [Hcount Hq].
        { subst st1. simpl. by rewrite length_insert. }
        { subst st1. simpl. lia. }
        subst st1. cbn [set_quakes g_quake_count g_quakes] in Hcount, Hq.
        replace (200 - g_quake_count st)%nat
          with (S (200 - S (g_quake_count st))) by lia.
        cbn [take length]. rewrite Hcount, Hq. split; [lia|].
        set (sel := take (200 - _) _).
        rewrite (take_S_r _ _ x) by (apply list_lookup_insert_eq; lia).
        rewrite take_insert_ge by lia.
        rewrite drop_insert_lt by lia.
        rewrite <- app_assoc. unfold stored_from. rewrite imap_cons.
        cbn [app]. rewrite Nat.add_0_r. fold x. f_equal. f_equal. f_equal.
        2:{ f_equal. lia. }
        apply imap_ext. intros k w _. unfold quake_at, compose.
        cbn [set_quakes g_quakes].
        rewrite list_lookup_insert_ne by lia.
        by replace (g_quake_count st + S k)%nat with (S (g_quake_count st + k)) by lia.
      * apply IH; done.
    + assert (g_quake_count st = 200%nat) as Heq by (unfold MAX_QUAKES in *; lia).
      unfold retained_from, MAX_QUAKES. rewrite Heq, Nat.sub_diag, take_0.
      cbn [stored_from imap length app].
      by rewrite Nat.add_0_r, take_drop.
Qed.

End Scan.

(** ** compare_quakes *)

Section Comparison.

Lemma flt_spec (a b : Q) : flt a b = true ↔ (a < b)%Q.
Proof.
  unfold flt. rewrite Qlt_alt. destruct (a ?= b)%Q; split; intros; done.
Qed.

Lemma fge_spec (a b : Q) : fge a b = true ↔ (b <= a)%Q.
Proof. apply Qle_bool_iff. Qed.

(** Nothing compares with not-a-number. *)
Lemma compare_NaN (a : fp) :
  flt a NaN = false ∧ fge a NaN = false ∧ flt NaN a = false ∧ fge NaN a = false.
Proof. by destruct a as [q|[]|]. Qed.

(** Values other than not-a-number are totally ordered. *)
Lemma fge_not_flt (a b : fp) : a ≠ NaN → b ≠ NaN → fge a b = negb (flt a b).
Proof.
  destruct a as [x|[]|], b as [y|[]|]; try done. intros _ _.
  destruct (flt x y) eqn:Hlt; cbn [negb].
  - apply flt_spec in Hlt. apply not_true_is_false. rewrite fge_spec.
    intros Hle. by eapply Qlt_not_le.
  - apply fge_spec, Qnot_lt_le. rewrite <- flt_spec. congruence.
Qed.

Lemma compare_quakes_cases (a b : Earthquake) :
  ((mag a < mag b)%Q ∧ compare_quakes a b = 1)
  ∨ ((mag b < mag a)%Q ∧ compare_quakes a b = -1)
  ∨ ((mag a == mag b)%Q ∧ compare_quakes a b = 0).
Proof.
  unfold compare_quakes.
  destruct (flt (mag a) (mag b)) eqn:Hab; [left; by rewrite <- flt_spec|].
  destruct (flt (mag b) (mag a)) eqn:Hba; [right; left; by rewrite <- flt_spec|].
  right; right. split; [|done].
  apply Qle_antisym; apply Qnot_lt_le; rewrite <- flt_spec; congruence.
Qed.

(** [compare_quakes] puts [a] no later than [b] exactly when [a] is at
    least as strong. *)
Lemma compare_quakes_le (a b : Earthquake) :
  compare_quakes a b <= 0 ↔ (mag b <= mag a)%Q.
Proof.
  destruct (compare_quakes_cases a b) as [[H ->]|[[H ->]|[H ->]]]; split; intros; try lia.
  - exfalso. eapply Qlt_not_le; eauto.
  - by apply Qlt_le_weak.
  - rewrite H. apply Qle_refl.
Qed.

Lemma compare_quakes_consistent : consistent compare_quakes.
Proof.
  split.
  - intros a b.
    destruct (compare_quakes_cases a b) as [[H ->]|[[H ->]|[H ->]]];
      destruct (compare_quakes_cases b a) as [[H' ->]|[[H' ->]|[H' ->]]];
      try done; exfalso.
    + eapply Qlt_irrefl, Qlt_trans; eauto.
    + rewrite H' in H. by apply Qlt_irrefl in H.
    + eapply Qlt_irrefl, Qlt_trans; eauto.
    + rewrite H' in H. by apply Qlt_irrefl in H.
    + rewrite H in H'. by apply Qlt_irrefl in H'.
    + rewrite H in H'. by apply Qlt_irrefl in H'.
  - intros a b c. rewrite !compare_quakes_le. intros ??. by eapply Qle_trans.
Qed.

End Comparison.

(** ** check_for_quake_alerts: what it leaves alone *)

Section AlertFrame.

Lemma alert_quake_frame (alert_threshold : fp) (q : Earthquake) (st : state) :
  same_but_ring st (alert_quake alert_threshold q st).1.
Proof.
  unfold alert_quake, remember_id, same_but_ring.
  repeat case_match; simpl; done.
Qed.

Lemma alert_loop_frame (alert_threshold : fp) (qs : list Earthquake) (st : state) :
  same_but_ring st (alert_loop alert_threshold qs st).1.
Proof.
  revert st; induction qs as [|q qs IH]; intros st; simpl; [done|].
  pose proof (alert_quake_frame alert_threshold q st) as Hq.
  destruct (alert_quake alert_threshold q st) as [st1 out1].
  specialize (IH st1).
  destruct (alert_loop alert_threshold qs st1) as [st2 out2].
  unfold same_but_ring in *. simpl in *. intuition congruence.
Qed.

End AlertFrame.

(** ** The merge sort meets the contract of qsort *)

Section MergeQsort.

Context {A : Type} (compar : A → A → Z).

Lemma merge_qsort_permutation (base : list A) : merge_qsort base compar ≡ₚ base.
Proof. apply merge_sort_Permutation. Qed.

Lemma precedes_total : consistent compar → Total (precedes compar).
Proof.
  intros [Hsgn _] a b. unfold precedes. specialize (Hsgn a b).
  destruct (Z.sgn_spec (compar a b)) as [[? ?]|[[? ?]|[? ?]]];
    destruct (Z.sgn_spec (compar b a)) as [[? ?]|[[? ?]|[? ?]]]; lia.
Qed.

Lemma precedes_transitive : consistent compar → Transitive (precedes compar).
Proof. intros [_ Htrans] a b c. apply Htrans. Qed.

Lemma merge_qsort_sorted (base : list A) :
  consistent compar →
  StronglySorted (λ a b, compar a b <= 0) (merge_qsort base compar).
Proof.
  intros Hc.
  pose proof (precedes_total Hc). pose proof (precedes_transitive Hc).
  apply (StronglySorted_merge_sort (precedes compar)).
Qed.

End MergeQsort.

#[export] Instance merge_sort_is_qsort : Qsort := {|
  qsort := @merge_qsort;
  qsort_permutation := λ A base compar, merge_qsort_permutation compar base;
  qsort_sorted := λ A base compar, merge_qsort_sorted compar base
|}.

(** ** fetch_seismic_data *)

Section Seismic.

Context `{Qsort}.

Lemma qsort_length {A : Type} (base : list A) (compar : A → A → Z) :
  length (qsort base compar) = length base.
Proof. apply Permutation_length, qsort_permutation. Qed.

Lemma stored_length (time : nat → Z) (st : state) (sel : list json_t) :
  length (stored time st sel) = length sel.
Proof. apply length_imap. Qed.

Lemma retained_length (min_magnitude : fp) (features : list json_t) :
  (length (retained min_magnitude features) ≤ MAX_QUAKES)%nat.
Proof. unfold retained, retained_from. rewrite length_take. lia. Qed.






(** The state after the scan loop, from a cleared list. *)
Lemma scan_features_state (min_magnitude : fp) (time : nat → Z)
    (features : list json_t) (st : state) :
  length (g_quakes st) = MAX_QUAKES →
  let sel := retained min_magnitude features in
  scan_features min_magnitude time features (set_quakes (g_quakes st) 0 st)
  = set_quakes (stored time st sel ++ drop (length sel) (g_quakes st)) (length sel) st.
Proof.
  intros Hlen sel.
  set (st0 := set_quakes (g_quakes st) 0 st).
  destruct (scan_features_slots min_magnitude time features st0)
    as [Hcount Hq]; [done|simpl; lia|].
  pose proof (scan_features_other_fields min_magnitude time features st0) as Hrest.
  change (g_quake_count st0) with 0%nat in Hcount, Hq.
  fold (retained min_magnitude features) in Hcount, Hq. fold sel in Hcount, Hq.
  change (stored_from time 0 st0 sel) with (stored time st sel) in Hq.
  change (g_quakes st0) with (g_quakes st) in Hq.
  rewrite take_0 in Hq. cbn [app Nat.add] in Hcount, Hq.
  destruct (scan_features min_magnitude time features st0). simpl in *.
  unfold set_quakes. destruct Hrest as (-> & -> & -> & -> & -> & -> & ->).
  by rewrite Hcount, Hq.
Qed.

(** The outcomes of a transfer by what the fetch gets to work on. *)
Lemma loaded_cases (net : transfer) :
  (∃ root, loaded net = Some root
           ∧ net = Perform (out_of_memory net) (Body (Some root)))
  ∨ (loaded net = None
     ∧ (net = NoHandle ∨ net = Perform (out_of_memory net) TransferFailed
        ∨ net = Perform (out_of_memory net) (Body None))).
Proof. destruct net as [|n [|[root|]]]; cbn; eauto 6. Qed.

(** A fetch whose body parses: the array holds what [qsort] makes of the
    records stored for the retained features, and the alert check runs over
    them, after the lines of the callback. *)
Lemma fetch_seismic_data_loaded (min_magnitude alert_threshold : fp) (net : transfer)
    (root : json_t) (time : nat → Z) (st : state) :
  length (g_quakes st) = MAX_QUAKES →
  loaded net = Some root →
  let sel := retained min_magnitude (feed_features root) in
  let sorted := qsort (stored time st sel) compare_quakes in
  let res := alert_loop alert_threshold sorted
               (set_quakes (sorted ++ drop (length sel) (g_quakes st)) (length sel) st) in
  fetch_seismic_data min_magnitude alert_threshold net time st
  = (res.1, callback_output (out_of_memory net) ++ res.2).
Proof.
  intros Hlen Hroot sel sorted res.
  destruct (loaded_cases net) as [(root' & Hroot' & ->)|[Hnone _]]; [|congruence].
  assert (root' = root) as -> by congruence.
  unfold fetch_seismic_data. cbn [out_of_memory].
  fold (feed_features root). rewrite scan_features_state by done. fold sel.
  unfold check_for_quake_alerts, sort_quakes.
  cbn [g_quakes g_quake_count set_quakes].
  rewrite (take_app_length' (stored time st sel)) by (by rewrite stored_length).
  rewrite (drop_app_length' (stored time st sel)) by (by rewrite stored_length).
  fold sorted.
  rewrite (take_app_length' sorted)
    by (subst sorted; by rewrite qsort_length, stored_length).
  change (alert_loop alert_threshold sorted (set_quakes _ _ (set_quakes _ _ st)))
    with res.
  by destruct res.
Qed.

Lemma fetch_seismic_data_body (min_magnitude alert_threshold : fp) (root : json_t)
    (time : nat → Z) (st : state) :
  length (g_quakes st) = MAX_QUAKES →
  let sel := retained min_magnitude (feed_features root) in
  let sorted := qsort (stored time st sel) compare_quakes in
  fetch_seismic_data min_magnitude alert_threshold (Body (Some root)) time st
  = alert_loop alert_threshold sorted
      (set_quakes (sorted ++ drop (length sel) (g_quakes st)) (length sel) st).
Proof.
  intros Hlen sel sorted.
  rewrite (fetch_seismic_data_loaded _ _ _ root) by done. fold sel sorted.
  by destruct (alert_loop _ _ _).
Qed.

Lemma ranked_after_loaded (min_magnitude alert_threshold : fp) (net : transfer)
    (root : json_t) (time : nat → Z) (st : state) :
  length (g_quakes st) = MAX_QUAKES →
  loaded net = Some root →
  let st' := (fetch_seismic_data min_magnitude alert_threshold net time st).1 in
  let sel := retained min_magnitude (feed_features root) in
  ranked st' = qsort (stored time st sel) compare_quakes
  ∧ g_quake_count st' = length sel
  ∧ length (g_quakes st') = MAX_QUAKES.
Proof.
  intros Hlen Hroot st' sel. subst st'.
  rewrite (fetch_seismic_data_loaded _ _ _ root) by done. fold sel. cbn [fst].
  set (sorted := qsort (stored time st sel) compare_quakes).
  assert (length sorted = length sel) as Hsorted
    by (subst sorted; by rewrite qsort_length, stored_length).
  pose proof (alert_loop_frame alert_threshold sorted
    (set_quakes (sorted ++ drop (length sel) (g_quakes st)) (length sel) st))
    as (Hq & Hc & _).
  unfold ranked. rewrite Hq, Hc. cbn [g_quakes g_quake_count set_quakes].
  split; [by apply take_app_length'|]. split; [done|].
  rewrite length_app, Hsorted, length_drop, Hlen.
  pose proof (retained_length min_magnitude (feed_features root)) as Hr.
  fold sel in Hr. lia.
Qed.

Lemma ranked_after_body (min_magnitude alert_threshold : fp) (root : json_t)
    (time : nat → Z) (st : state) :
  length (g_quakes st) = MAX_QUAKES →
  let st' := (fetch_seismic_data min_magnitude alert_threshold
                (Body (Some root)) time st).1 in
  let sel := retained min_magnitude (feed_features root) in
  ranked st' = qsort (stored time st sel) compare_quakes
  ∧ g_quake_count st' = length sel
  ∧ length (g_quakes st') = MAX_QUAKES.
Proof. intros Hlen. by apply ranked_after_loaded. Qed.

(** A fetch without a parsed body only clears the list; what is printed is
    what the callback printed. *)
Lemma fetch_seismic_data_no_body (min_magnitude alert_threshold : fp) (net : transfer)
    (time : nat → Z) (st : state) :
  loaded net = None →
  fetch_seismic_data min_magnitude alert_threshold net time st
  = (set_quakes (g_quakes st) 0 st, callback_output (out_of_memory net)).
Proof. by destruct net as [|n [|[root|]]]. Qed.

Lemma StronglySorted_weaken {A : Type} (R R' : A → A → Prop) (l : list A) :
  (∀ a b, R a b → R' a b) → StronglySorted R l → StronglySorted R' l.
Proof.
  intros HR. induction 1 as [|a l Hl IH Ha]; constructor; [done|].
  eapply Forall_impl; eauto.
Qed.

Lemma qsort_descending (qs : list Earthquake) : descending (qsort qs compare_quakes).
Proof.
  eapply StronglySorted_weaken; [|apply qsort_sorted, compare_quakes_consistent].
  intros a b. apply compare_quakes_le.
Qed.


End Seismic.




Example fetch_seismic_data_example :
  ranked (fetch_seismic_data (3 # 1) (6 # 1) (Body (Some example_feed))
            (λ _, 1700000000) initial_state).1
  = [mkEarthquake (61 # 10) "Chile" "16m ago" "us3";
     mkEarthquake (45 # 10) "Tonga" "30s ago" "us1"].
Proof. vm_compute. reflexivity. Qed.

(** ** What a fetch prints *)

Section SeismicOutput.

Context `{Qsort}.

Lemma alert_loop_only_bells (alert_threshold : fp) (qs : list Earthquake) (st : state) :
  Forall (λ e, e = Bell) (alert_loop alert_threshold qs st).2.
Proof.
  revert st; induction qs as [|q qs IH]; intros st; simpl; [constructor|].
  assert (Forall (λ e, e = Bell) (alert_quake alert_threshold q st).2) as Hq.
  { unfold alert_quake. repeat case_match; simpl; repeat constructor. }
  destruct (alert_quake alert_threshold q st) as [st1 out1].
  specialize (IH st1).
  destruct (alert_loop alert_threshold qs st1) as [st2 out2].
  apply Forall_app. done.
Qed.

Lemma callback_output_quiet (n : nat) : Forall quiet (callback_output n).
Proof. apply Forall_replicate. by left. Qed.

Lemma bells_app (out1 out2 : list event) :
  bells (out1 ++ out2) = (bells out1 + bells out2)%nat.
Proof. unfold bells. by rewrite List.filter_app, length_app. Qed.

Lemma callback_output_bells (n : nat) : bells (callback_output n) = 0%nat.
Proof. induction n as [|n IH]; [done|exact IH]. Qed.

(** Lines of the callback and bells are neither banners nor quake lines. *)
Lemma quiet_shows_nothing (out : list event) :
  Forall quiet out → banners out = [] ∧ quake_lines out = [].
Proof. induction 1 as [|e out [->| ->] _ IH]; [done|exact IH..]. Qed.

(** A fetch prints the lines of the callback and rings; it shows neither a
    quake nor a banner. *)
Lemma fetch_seismic_data_quiet (min_magnitude alert_threshold : fp)
    (net : transfer) (time : nat → Z) (st : state) :
  Forall quiet (fetch_seismic_data min_magnitude alert_threshold net time st).2.
Proof.
  unfold fetch_seismic_data, check_for_quake_alerts.
  destruct net as [|n [|[root|]]]; try constructor; try apply callback_output_quiet.
  match goal with |- context [alert_loop ?a ?qs ?st1] =>
    pose proof (alert_loop_only_bells a qs st1) as Hb;
    destruct (alert_loop a qs st1) as [st2 out] end.
  cbn [snd] in *. apply Forall_app. split; [apply callback_output_quiet|].
  eapply Forall_impl; [exact Hb|]. intros e ->. by right.
Qed.

Lemma fetch_lightning_data_quiet (net : transfer) (st : state) :
  Forall quiet (fetch_lightning_data net st).2.
Proof.
  unfold fetch_lightning_data.
  destruct net as [|n [|[root|]]]; try constructor; apply callback_output_quiet.
Qed.

(** The list is cleared first: the count that a fetch starts from does not
    matter. *)
Lemma fetch_seismic_data_clears (min_magnitude alert_threshold : fp)
    (net : transfer) (time : nat → Z) (st : state) :
  fetch_seismic_data min_magnitude alert_threshold net time
    (set_quakes (g_quakes st) 0 st)
  = fetch_seismic_data min_magnitude alert_threshold net time st.
Proof. by destruct st. Qed.

End SeismicOutput.

(** ** The alerted-id ring *)

Section Ring.

(** After [n] steps of the shifting loop the first [n] entries have moved
    one slot down and the others are as they were. *)
Lemma shift_loop (n : nat) (ids : list string) :
  (n < length ids)%nat →
  foldl (λ a k, <[k := alerted_id_at a (S k)]> a) ids (seq 0 n)
  = take n (drop 1 ids) ++ drop n ids.
Proof.
  induction n as [|n IH]; intros Hn; [done|].
  rewrite seq_S, foldl_app, IH by lia. cbn [foldl Nat.add].
  assert (length (take n (drop 1 ids)) = n) as Hlen
    by (rewrite length_take, length_drop; lia).
  destruct (lookup_lt_is_Some_2 ids (S n)) as [x Hx]; [lia|].
  destruct (lookup_lt_is_Some_2 ids n) as [y Hy]; [lia|].
  assert (alerted_id_at (take n (drop 1 ids) ++ drop n ids) (S n) = x) as ->.
  { unfold alerted_id_at. rewrite lookup_app_r by lia. rewrite Hlen.
    replace (S n - n)%nat with 1%nat by lia.
    rewrite lookup_drop. replace (n + 1)%nat with (S n) by lia. by rewrite Hx. }
  rewrite (drop_S ids y n) by done.
  replace n with (length (take n (drop 1 ids)) + 0)%nat at 1 by lia.
  rewrite insert_app_r. cbn [insert list_insert].
  rewrite (take_S_r _ n x) by (rewrite lookup_drop; done).
  by rewrite <- app_assoc.
Qed.

(** The shifting loop moves every entry one slot down and leaves the last
    slot as it was. *)
Lemma shift_ids_spec (ids : list string) :
  length ids = MAX_ALERTED_IDS →
  shift_ids ids = drop 1 ids ++ [alerted_id_at ids (MAX_ALERTED_IDS - 1)].
Proof.
  unfold shift_ids, MAX_ALERTED_IDS. intros Hlen.
  change (50 - 1)%nat with 49%nat.
  rewrite shift_loop by lia.
  rewrite take_ge by (rewrite length_drop; lia).
  destruct (lookup_lt_is_Some_2 ids 49) as [x Hx]; [lia|].
  rewrite (drop_S ids x 49) by done.
  rewrite (drop_ge ids 50) by lia.
  unfold alerted_id_at. by rewrite Hx.
Qed.

Lemma already_alerted_spec (id : string) (ids : list string) (count : nat) :
  already_alerted id ids count = true ↔ id ∈ take count ids.
Proof.
  revert ids; induction count as [|count IH]; intros [|x ids]; simpl;
    try (split; [done|by intros ?%elem_of_nil]).
  unfold streq. rewrite elem_of_cons.
  destruct (String.eqb_spec id x) as [->|Hne]; [tauto|].
  rewrite IH. tauto.
Qed.

(** [remember_id] is the first-in first-out insertion. *)
Lemma remember_id_ring (id : string) (st : state) :
  wf_ring st →
  ring (remember_id id st) = push id (ring st) ∧ wf_ring (remember_id id st).
Proof.
  unfold wf_ring, ring, remember_id, push. intros [Hlen Hcount].
  rewrite length_take, Hlen.
  destruct (decide (g_alerted_ids_count st < MAX_ALERTED_IDS)%nat) as [Hlt|Hge];
    cbn [g_alerted_ids g_alerted_ids_count set_alerted].
  - rewrite decide_True by lia. rewrite length_insert. split; [|lia].
    rewrite (take_S_r _ _ id) by (apply list_lookup_insert_eq; lia).
    by rewrite take_insert_ge by lia.
  - rewrite decide_False by lia. rewrite length_insert.
    assert (g_alerted_ids_count st = MAX_ALERTED_IDS) as -> by lia.
    rewrite shift_ids_spec by done.
    assert (length (drop 1 (g_alerted_ids st)) = (MAX_ALERTED_IDS - 1)%nat) as Hd
      by (rewrite length_drop; lia).
    assert (0 < MAX_ALERTED_IDS)%nat as Hpos by (unfold MAX_ALERTED_IDS; lia).
    rewrite length_app, Hd. cbn [length]. split; [|lia].
    rewrite (take_ge (g_alerted_ids st)) by lia.
    rewrite take_ge by (rewrite length_insert, length_app, Hd; cbn [length]; lia).
    replace (MAX_ALERTED_IDS - 1)%nat
      with (length (drop 1 (g_alerted_ids st)) + 0)%nat at 1 by lia.
    by rewrite insert_app_r.
Qed.

(** One quake of the alert loop: it rings exactly when it is eligible and
    its identifier is not in the ring, and then the identifier is pushed. *)
Lemma alert_quake_ring (alert_threshold : fp) (q : Earthquake) (st : state) :
  wf_ring st →
  let res := alert_quake alert_threshold q st in
  wf_ring res.1
  ∧ ((res.2 = [] ∧ ring res.1 = ring st
      ∧ (fge (mag q) alert_threshold = true → id q ∈ ring st))
     ∨ (res.2 = [Bell] ∧ ring res.1 = push (id q) (ring st)
        ∧ fge (mag q) alert_threshold = true ∧ id q ∉ ring st)).
Proof.
  intros Hwf. unfold alert_quake. cbv zeta.
  destruct (fge (mag q) alert_threshold); [|by split; [|left]].
  destruct (already_alerted _ _ _) eqn:Hin; cbn [fst snd].
  - apply already_alerted_spec in Hin. by split; [|left].
  - destruct (remember_id_ring (id q) st Hwf) as [Hring Hwf'].
    split; [done|right]. repeat split; [done|].
    intros Hin'%already_alerted_spec. congruence.
Qed.

End Ring.

Section RingHistory.

Variable alert_threshold : fp.

(** The bells of the alert loop are the identifiers it records. *)
Lemma alert_loop_bells (qs : list Earthquake) (st : state) :
  wf_ring st →
  bells (alert_loop alert_threshold qs st).2
  = length (alerted_ids_of alert_threshold qs st)
  ∧ wf_ring (alert_loop alert_threshold qs st).1.
Proof.
  revert st; induction qs as [|q qs IH]; intros st Hwf; cbn [alert_loop alerted_ids_of].
  { done. }
  destruct (alert_quake_ring alert_threshold q st Hwf) as [Hwf1 Hq].
  destruct (alert_quake alert_threshold q st) as [st1 out1]. cbn [fst snd] in *.
  destruct (IH st1 Hwf1) as [IHb IHwf].
  destruct (alert_loop alert_threshold qs st1) as [st2 out2]. cbn [fst snd] in *.
  split; [|done]. rewrite length_app, <- IHb. unfold bells.
  rewrite List.filter_app, length_app.
  by destruct Hq as [(-> & _)|(-> & _)].
Qed.

(** While [x] stays in the ring the identifiers recorded after it sit
    behind it, all different; once it has left, 50 different identifiers
    have been recorded after it. *)
Lemma alert_loop_behind (x : string) (qs : list Earthquake) (st : state)
    (old ins : list string) :
  wf_ring st →
  ring st = old ++ x :: ins →
  NoDup (x :: ins) →
  let st' := (alert_loop alert_threshold qs st).1 in
  let new := alerted_ids_of alert_threshold qs st in
  (∃ old', ring st' = old' ++ x :: ins ++ new)
  ∨ (∃ evictors rest,
        ins ++ new = evictors ++ rest
        ∧ length evictors = MAX_ALERTED_IDS ∧ NoDup evictors ∧ x ∉ evictors).
Proof.
  revert st old ins; induction qs as [|q qs IH]; intros st old ins Hwf Hring Hnd;
    cbn [alert_loop alerted_ids_of].
  { left. exists old. by rewrite app_nil_r. }
  destruct (alert_quake_ring alert_threshold q st Hwf) as [Hwf1 Hq].
  destruct (alert_quake alert_threshold q st) as [st1 out1]. cbn [fst snd] in *.
  destruct Hq as [(-> & Hsame & _)|(-> & Hpush & _ & Hfresh)].
  - rewrite decide_True by done. cbn [app].
    specialize (IH st1 old ins Hwf1).
    destruct (alert_loop alert_threshold qs st1) as [st2 out2]. cbn [fst snd] in *.
    apply IH; [congruence|done].
  - rewrite decide_False by done.
    set (y := id q) in *.
    assert (NoDup (x :: ins ++ [y])) as Hnd'.
    { rewrite Hring in Hfresh.
      rewrite app_comm_cons. apply NoDup_app. split; [done|]. split.
      - intros z Hz ->%list_elem_of_singleton. apply Hfresh.
        apply elem_of_app. by right.
      - apply NoDup_singleton. }
    assert (∀ old1, ring st1 = old1 ++ x :: ins ++ [y] →
              let st' := (let '(st2, out2) := alert_loop alert_threshold qs st1 in
                          (st2, [Bell] ++ out2)).1 in
              (∃ old', ring st' = old' ++ x :: ins ++ [y] ++ alerted_ids_of alert_threshold qs st1)
              ∨ (∃ evictors rest,
                    ins ++ [y] ++ alerted_ids_of alert_threshold qs st1 = evictors ++ rest
                    ∧ length evictors = MAX_ALERTED_IDS ∧ NoDup evictors ∧ x ∉ evictors))
      as Hstay.
    { intros old1 Hring1.
      specialize (IH st1 old1 (ins ++ [y]) Hwf1 Hring1 Hnd').
      destruct (alert_loop alert_threshold qs st1) as [st2 out2]. cbn [fst snd] in *.
      by rewrite <- !app_assoc in IH. }
    unfold push in Hpush. rewrite Hring in Hpush.
    destruct (decide (length (old ++ x :: ins) < MAX_ALERTED_IDS)%nat) as [Hlt|Hfull].
    + apply (Hstay old). by rewrite Hpush, <- app_assoc.
    + destruct old as [|o old].
      * right. exists (ins ++ [y]), (alerted_ids_of alert_threshold qs st1).
        assert (length (ring st) ≤ MAX_ALERTED_IDS)%nat as Hle.
        { unfold ring. rewrite length_take. destruct Hwf. lia. }
        rewrite Hring in Hle. cbn [app length] in Hle, Hfull.
        apply NoDup_cons in Hnd' as [Hx Hnd'].
        split; [by rewrite <- app_assoc|]. split; [|done].
        rewrite length_app. cbn [length]. lia.
      * apply (Hstay old). rewrite Hpush. cbn [app drop].
        by rewrite drop_0, <- app_assoc.
Qed.

End RingHistory.

(** C2.  Along every sequence of quakes that the alert loop processes, an
    identifier that has rung the bell rings it again only after 50 further
    identifiers, all different and different from it, have been recorded in
    the ring after it.  The ring is first-in first-out: a new identifier is
    appended, and when the 50 slots are full the oldest one is dropped
    first. *)
Theorem no_second_alert_before_eviction (alert_threshold : fp) (st : state)
    (q q' : Earthquake) (mid : list Earthquake) :
  wf_ring st →
  id q' = id q →
  (alert_quake alert_threshold q st).2 = [Bell] →
  let st1 := (alert_quake alert_threshold q st).1 in
  let st2 := (alert_loop alert_threshold mid st1).1 in
  (alert_quake alert_threshold q' st2).2 = [Bell] →
  (∃ evictors rest,
      alerted_ids_of alert_threshold mid st1 = evictors ++ rest
      ∧ length evictors = 50%nat ∧ NoDup evictors ∧ id q ∉ evictors)
  ∧ ring st1 = (if decide (length (ring st) < 50)%nat then ring st ++ [id q]
                else drop 1 (ring st) ++ [id q]).
Proof.
  intros Hwf Hid Hbell st1 st2 Hbell'.
  destruct (alert_quake_ring alert_threshold q st Hwf) as [Hwf1 Hq].
  fold st1 in Hwf1, Hq.
  destruct Hq as [(Hno & _)|(_ & Hpush & _ & Hfresh)]; [congruence|].
  split; [|exact Hpush].
  assert (∃ old, ring st1 = old ++ [id q]) as [old Hring].
  { rewrite Hpush. unfold push. case_decide; eauto. }
  destruct (alert_loop_behind alert_threshold (id q) mid st1 old [] Hwf1 Hring)
    as [[old' Hstill]|Hevicted]; [apply NoDup_singleton| |exact Hevicted].
  exfalso. fold st2 in Hstill.
  destruct (alert_loop_bells alert_threshold mid st1 Hwf1) as [_ Hwf2]. fold st2 in Hwf2.
  destruct (alert_quake_ring alert_threshold q' st2 Hwf2)
    as [_ [(Hno & _)|(_ & _ & _ & Hfresh')]]; [congruence|].
  apply Hfresh'. rewrite Hid, Hstill. apply elem_of_app. right. apply elem_of_cons. by left.
Qed.

Lemma no_second_alert_before_eviction_witness :
  ∃ evictors rest,
    alerted_ids_of 0 (numbered_quakes 50) (alert_quake 0 example_quake initial_state).1
    = evictors ++ rest
    ∧ length evictors = 50%nat ∧ NoDup evictors ∧ id example_quake ∉ evictors.
Proof.
  apply (no_second_alert_before_eviction 0 initial_state example_quake example_quake
           (numbered_quakes 50)).
  - split; [reflexivity|]. unfold MAX_ALERTED_IDS. simpl. lia.
  - reflexivity.
  - reflexivity.
  - vm_compute. reflexivity.
Defined.

(** ** Stale slots *)

Section StaleSlots.

Context `{Qsort}.

Lemma qsort_singleton {A : Type} (a : A) (compar : A → A → Z) :
  qsort [a] compar = [a].
Proof. apply Permutation_singleton_r, qsort_permutation. Qed.

Lemma stored_lookup (time : nat → Z) (st : state) (sel : list json_t)
    (k : nat) (value : json_t) :
  sel !! k = Some value →
  stored time st sel !! k = Some (fill_slot (time k) value (quake_at st k)).
Proof.
  intros Hk. unfold stored, stored_from. by rewrite list_lookup_imap, Hk.
Qed.

(** [fill_slot] writes [place] and [id] only when the feed has them. *)
Lemma fill_slot_absent (now : Z) (value : json_t) (old : Earthquake) :
  let properties := json_object_get (Some value) "properties" in
  (json_string_value (json_object_get properties "place") = None →
   place (fill_slot now value old) = place old)
  ∧ (json_string_value (json_object_get properties "id") = None →
     id (fill_slot now value old) = id old).
Proof. unfold fill_slot. simpl. by split; intros ->. Qed.

(** One quake per fetch: the run of the two example feeds. *)
Lemma stale_id_run :
  let clock := λ _ : nat, 1700000000 in
  let r1 := fetch_seismic_data 0 (6 # 1) (Body (Some first_feed)) clock initial_state in
  let r2 := fetch_seismic_data 0 (6 # 1) (Body (Some second_feed)) clock r1.1 in
  ranked r1.1 = [mkEarthquake (7 # 1) "Fiji" "5m ago" "us7"]
  ∧ bells r1.2 = 1%nat
  ∧ ranked r2.1 = [mkEarthquake (65 # 10) "Japan" "30s ago" "us7"]
  ∧ bells r2.2 = 0%nat.
Proof.
  intros clock r1 r2.
  assert (r1 = alert_loop (6 # 1) [mkEarthquake (7 # 1) "Fiji" "5m ago" "us7"]
                 (set_quakes (mkEarthquake (7 # 1) "Fiji" "5m ago" "us7"
                              :: replicate 199 zero_quake) 1 initial_state)) as Hr1.
  { subst r1. rewrite fetch_seismic_data_body by reflexivity.
    change (stored clock initial_state (retained 0 (feed_features first_feed)))
      with [mkEarthquake (7 # 1) "Fiji" "5m ago" "us7"].
    by rewrite qsort_singleton. }
  assert (r2 = alert_loop (6 # 1) [mkEarthquake (65 # 10) "Japan" "30s ago" "us7"]
                 (set_quakes (mkEarthquake (65 # 10) "Japan" "30s ago" "us7"
                              :: replicate 199 zero_quake) 1 r1.1)) as Hr2.
  { subst r2. rewrite fetch_seismic_data_body by (by rewrite Hr1).
    rewrite Hr1.
    change (retained 0 (feed_features second_feed))
      with [feature_without_id (65 # 10) "Japan" 1699999970000].
    unfold stored, stored_from. cbn [imap].
    rewrite qsort_singleton. reflexivity. }
  rewrite Hr2, Hr1. by vm_compute.
Qed.

End StaleSlots.

(** C9.  A retained feature is written to the slot of its rank in the
    scan; when the feed gives no string for [place] or for [id], that part
    of the record is what the slot held before the fetch: the text left
    there by a quake of an earlier cycle, and the empty string in a slot
    never written.  The record then enters the ranked list with that text,
    so such a quake can be taken for an unrelated earlier one: after a
    quake ["us7"] has rung the bell, a strong quake without [id] that lands
    in its slot carries ["us7"] and rings no bell. *)
Theorem stale_place_and_id `{Qsort} (min_magnitude alert_threshold : fp)
    (root : json_t) (time : nat → Z) (st : state) (k : nat) (value : json_t) :
  length (g_quakes st) = MAX_QUAKES →
  retained min_magnitude (feed_features root) !! k = Some value →
  let properties := json_object_get (Some value) "properties" in
  let st' := (fetch_seismic_data min_magnitude alert_threshold
                (Body (Some root)) time st).1 in
  (∃ record,
      stored time st (retained min_magnitude (feed_features root)) !! k = Some record
      ∧ record ∈ ranked st'
      ∧ (json_string_value (json_object_get properties "place") = None →
         place record = place (quake_at st k))
      ∧ (json_string_value (json_object_get properties "id") = None →
         id record = id (quake_at st k)))
  ∧ (place (quake_at initial_state k) = EmptyString ∧ id (quake_at initial_state k) = EmptyString)
  ∧ (let clock := λ _ : nat, 1700000000 in
     let r1 := fetch_seismic_data 0 (6 # 1) (Body (Some first_feed)) clock initial_state in
     let r2 := fetch_seismic_data 0 (6 # 1) (Body (Some second_feed)) clock r1.1 in
     ranked r1.1 = [mkEarthquake (7 # 1) "Fiji" "5m ago" "us7"]
     ∧ bells r1.2 = 1%nat
     ∧ ranked r2.1 = [mkEarthquake (65 # 10) "Japan" "30s ago" "us7"]
     ∧ bells r2.2 = 0%nat).
Proof.
  intros Hlen Hk properties st'. split; [|split; [|apply stale_id_run]].
  - exists (fill_slot (time k) value (quake_at st k)).
    pose proof (stored_lookup time st _ k value Hk) as Hstored.
    split; [done|]. split; [|apply fill_slot_absent].
    subst st'.
    destruct (ranked_after_body min_magnitude alert_threshold root time st Hlen)
      as (-> & _).
    rewrite qsort_permutation. by eapply list_elem_of_lookup_2.
  - unfold quake_at, initial_state. cbn [g_quakes].
    destruct (replicate MAX_QUAKES zero_quake !! k) as [q|] eqn:Hq; [|done].
    by apply lookup_replicate in Hq as [-> _].
Qed.

Lemma stale_place_and_id_witness :
  ∃ record,
    stored (λ _, 1700000000)
           (fetch_seismic_data 0 (6 # 1) (Body (Some first_feed))
              (λ _, 1700000000) initial_state).1
           (retained 0 (feed_features second_feed)) !! 0%nat = Some record
    ∧ record ∈ ranked (fetch_seismic_data 0 (6 # 1) (Body (Some second_feed))
                         (λ _, 1700000000)
                         (fetch_seismic_data 0 (6 # 1) (Body (Some first_feed))
                            (λ _, 1700000000) initial_state).1).1
    ∧ (json_string_value
         (json_object_get
            (json_object_get
               (Some (feature_without_id (65 # 10) "Japan" 1699999970000))
               "properties") "place") = None →
       place record
       = place (quake_at (fetch_seismic_data 0 (6 # 1) (Body (Some first_feed))
                            (λ _, 1700000000) initial_state).1 0))
    ∧ (json_string_value
         (json_object_get
            (json_object_get
               (Some (feature_without_id (65 # 10) "Japan" 1699999970000))
               "properties") "id") = None →
       id record
       = id (quake_at (fetch_seismic_data 0 (6 # 1) (Body (Some first_feed))
                         (λ _, 1700000000) initial_state).1 0)).
Proof.
  apply (stale_place_and_id 0 (6 # 1) second_feed (λ _, 1700000000)
           (fetch_seismic_data 0 (6 # 1) (Body (Some first_feed))
              (λ _, 1700000000) initial_state).1
           0%nat (feature_without_id (65 # 10) "Japan" 1699999970000)).
  - vm_compute. reflexivity.
  - reflexivity.
Defined.

(** ** fetch_lightning_data *)

Section Lightning.

Lemma int_of_long_long_fits (z : Z) : fits_int z → int_of_long_long z = z.
Proof.
  unfold fits_int, int_of_long_long. intros Hz.
  rewrite Z.mod_small; lia.
Qed.

Lemma int_of_long_long_range (z : Z) : fits_int (int_of_long_long z).
Proof.
  unfold fits_int, int_of_long_long.
  pose proof (Z.mod_pos_bound (z + 2 ^ 31) (2 ^ 32)). lia.
Qed.

(** A loop that stores [f i] in the slots [0 .. n). *)
Lemma foldl_insert_seq {A : Type} (f : nat → A) (l : list A) (n : nat) :
  (n ≤ length l)%nat →
  foldl (λ a i, <[i := f i]> a) l (seq 0 n) = (f <$> seq 0 n) ++ drop n l.
Proof.
  induction n as [|n IH]; intros Hn; [done|].
  rewrite seq_S, foldl_app, fmap_app, IH by lia. cbn [foldl Nat.add fmap list_fmap].
  destruct (lookup_lt_is_Some_2 l n) as [x Hx]; [lia|].
  rewrite (drop_S l x n) by done.
  rewrite insert_app_r_alt by (rewrite length_fmap, length_seq; lia).
  rewrite length_fmap, length_seq, Nat.sub_diag.
  cbn [insert list_insert]. by rewrite <- app_assoc.
Qed.

Lemma copy_hourly_lookup (hourly_codes : option json_t) (i : nat) :
  (i < 6)%nat →
  copy_hourly hourly_codes (replicate 6 0) !! i
  = Some (int_of_long_long (json_integer_value (json_array_get hourly_codes i))).
Proof.
  intros Hi. unfold copy_hourly.
  rewrite foldl_insert_seq by (rewrite length_replicate; lia).
  set (m := (6 `min` json_array_size hourly_codes)%nat).
  destruct (decide (i < m)%nat) as [Hlt|Hge].
  - rewrite lookup_app_l by (rewrite length_fmap, length_seq; lia).
    rewrite list_lookup_fmap, lookup_seq_lt by done. done.
  - rewrite lookup_app_r by (rewrite length_fmap, length_seq; lia).
    rewrite length_fmap, length_seq, lookup_drop.
    rewrite lookup_replicate_2 by lia.
    unfold json_array_get, json_array_size in *.
    rewrite lookup_ge_None_2 by lia. done.
Qed.

Lemma copy_hourly_length (hourly_codes : option json_t) :
  length (copy_hourly hourly_codes (replicate 6 0)) = 6%nat.
Proof.
  unfold copy_hourly. rewrite foldl_insert_seq by (rewrite length_replicate; lia).
  rewrite length_app, length_fmap, length_seq, length_drop, length_replicate. lia.
Qed.

(** The globals after a refresh whose body parses. *)
Lemma fetch_lightning_data_loaded (net : transfer) (root : json_t) (st : state) :
  loaded net = Some root →
  let st' := (fetch_lightning_data net st).1 in
  g_weather_code st' = int_of_long_long (feed_weather_code root)
  ∧ length (g_hourly_weather_codes st') = 6%nat
  ∧ ∀ i, (i < 6)%nat →
      g_hourly_weather_codes st' !! i
      = Some (int_of_long_long (json_integer_value (feed_hourly_codes root !! i))).
Proof.
  destruct net as [|n [|[root'|]]]; try done. intros [= ->].
  unfold fetch_lightning_data, feed_weather_code, feed_hourly_codes.
  cbn [fst g_weather_code g_hourly_weather_codes set_weather].
  split; [|split].
  - destruct (json_object_get (Some root) "current") as [[]|]; done.
  - destruct (json_object_get (Some root) "hourly") as [[]|]; try done.
    cbn [json_is_object].
    destruct (json_object_get _ "weather_code") as [[]|]; try done.
    apply copy_hourly_length.
  - intros i Hi.
    assert (replicate 6 0 !! i = Some (int_of_long_long (json_integer_value None)))
      as Hzero by (by rewrite lookup_replicate_2).
    destruct (json_object_get (Some root) "hourly") as [[]|]; try done.
    cbn [json_is_object].
    destruct (json_object_get _ "weather_code") as [[]|] eqn:Hcodes;
      cbn [json_is_array json_array_elements];
      try (by rewrite lookup_nil).
    by rewrite copy_hourly_lookup.
Qed.

Lemma fetch_lightning_data_body (root : json_t) (st : state) :
  let st' := (fetch_lightning_data (Body (Some root)) st).1 in
  g_weather_code st' = int_of_long_long (feed_weather_code root)
  ∧ length (g_hourly_weather_codes st') = 6%nat
  ∧ ∀ i, (i < 6)%nat →
      g_hourly_weather_codes st' !! i
      = Some (int_of_long_long (json_integer_value (feed_hourly_codes root !! i))).
Proof. by apply fetch_lightning_data_loaded. Qed.

(** A refresh without a parsed body leaves the zeroed snapshot; what is
    printed is what the callback printed. *)
Lemma fetch_lightning_data_no_body (net : transfer) (st : state) :
  loaded net = None →
  fetch_lightning_data net st
  = (set_weather 0 (replicate 6 0) st, callback_output (out_of_memory net)).
Proof. by destruct net as [|n [|[root|]]]. Qed.

End Lightning.

(** C5 (amended).  After a lightning refresh whose transfer fails or whose
    body does not parse, the current code and the six hourly codes are 0.
    After one whose body parses, the current code is the feed's current
    condition code (0 when absent) converted to [int], which is that code
    whenever it fits an [int]; the hourly array holds, at each of its six
    indices, the feed's hourly entry of that index converted in the same
    way, and 0 where the feed has no entry. *)
Theorem fetch_lightning_data_codes (net : transfer) (st : state) :
  let st' := (fetch_lightning_data net st).1 in
  (loaded net = None →
   g_weather_code st' = 0 ∧ g_hourly_weather_codes st' = replicate 6 0)
  ∧ ∀ root, loaded net = Some root →
      g_weather_code st' = int_of_long_long (feed_weather_code root)
      ∧ (fits_int (feed_weather_code root) → g_weather_code st' = feed_weather_code root)
      ∧ length (g_hourly_weather_codes st') = 6%nat
      ∧ ∀ i, (i < 6)%nat →
          match feed_hourly_codes root !! i with
          | Some entry =>
              g_hourly_weather_codes st' !! i
              = Some (int_of_long_long (json_integer_value (Some entry)))
              ∧ (fits_int (json_integer_value (Some entry)) →
                 g_hourly_weather_codes st' !! i = Some (json_integer_value (Some entry)))
          | None => g_hourly_weather_codes st' !! i = Some 0
          end.
Proof.
  intros st'. split.
  - intros Hnone. subst st'. by rewrite fetch_lightning_data_no_body.
  - intros root Hroot.
    destruct (fetch_lightning_data_loaded net root st Hroot) as (Hcode & Hlen & Hhourly).
    fold st' in Hcode, Hlen, Hhourly.
    split; [done|]. split; [|split; [done|]].
    + intros Hfit. by rewrite Hcode, int_of_long_long_fits.
    + intros i Hi. specialize (Hhourly i Hi).
      destruct (feed_hourly_codes root !! i) as [entry|]; [|done].
      split; [done|]. intros Hfit. by rewrite Hhourly, int_of_long_long_fits.
Qed.

Lemma fetch_lightning_data_codes_witness :
  (g_weather_code (fetch_lightning_data TransferFailed
                     (set_weather 95 [95; 95; 95; 95; 95; 95] initial_state)).1 = 0
   ∧ g_hourly_weather_codes (fetch_lightning_data TransferFailed
                     (set_weather 95 [95; 95; 95; 95; 95; 95] initial_state)).1
     = replicate 6 0)
  ∧ g_weather_code (fetch_lightning_data (Body (Some (forecast 95 [3; 96])))
                      initial_state).1 = 95.
Proof.
  split.
  - apply (fetch_lightning_data_codes TransferFailed
             (set_weather 95 [95; 95; 95; 95; 95; 95] initial_state)).
    reflexivity.
  - destruct (fetch_lightning_data_codes (Body (Some (forecast 95 [3; 96])))
                initial_state) as [_ Hbody].
    apply (Hbody (forecast 95 [3; 96])); [reflexivity|].
    change (fits_int 95). unfold fits_int. lia.
Defined.

Example fetch_lightning_data_example :
  g_hourly_weather_codes
    (fetch_lightning_data (Body (Some (forecast 2 [3; 96; 1; 0; 95; 80; 99; 99])))
       initial_state).1
  = [3; 96; 1; 0; 95; 80]
  ∧ g_hourly_weather_codes
      (fetch_lightning_data (Body (Some (forecast 2 [3; 96]))) initial_state).1
    = [3; 96; 0; 0; 0; 0].
Proof. split; reflexivity. Qed.

(** C5 as stated fails for a code outside the range of [int]: the feed's
    current code [2^32 + 95] is stored as 95, a thunderstorm code. *)
Lemma fetch_lightning_data_code_wraps :
  let root := forecast 4294967391 [] in
  let st' := (fetch_lightning_data (Body (Some root)) initial_state).1 in
  feed_weather_code root = 4294967391
  ∧ g_weather_code st' = 95
  ∧ g_weather_code st' ≠ feed_weather_code root.
Proof. by vm_compute. Qed.

(** ** The storm-active flag between renders *)

Section StormFlag.

Context `{Qsort}.

(** A seismic fetch leaves the weather, the flag and the location alone. *)
Lemma fetch_seismic_data_keeps (min_magnitude alert_threshold : fp) (net : transfer)
    (time : nat → Z) (st : state) :
  let st' := (fetch_seismic_data min_magnitude alert_threshold net time st).1 in
  g_weather_code st' = g_weather_code st
  ∧ g_hourly_weather_codes st' = g_hourly_weather_codes st
  ∧ g_is_storm_active st' = g_is_storm_active st
  ∧ g_latitude st' = g_latitude st
  ∧ g_longitude st' = g_longitude st.
Proof.
  unfold fetch_seismic_data, check_for_quake_alerts.
  destruct net as [|n [|[root|]]]; try done.
  set (st1 := scan_features _ _ _ _).
  pose proof (alert_loop_frame alert_threshold
                (take (g_quake_count (sort_quakes st1)) (g_quakes (sort_quakes st1)))
                (sort_quakes st1)) as (_ & _ & Hc & Hh & Hf & Hlat & Hlon).
  destruct (alert_loop _ _ (sort_quakes st1)) as [st2 out]. cbn [fst] in *.
  rewrite Hc, Hh, Hf, Hlat, Hlon.
  unfold sort_quakes. cbn [g_weather_code g_hourly_weather_codes g_is_storm_active
                           g_latitude g_longitude set_quakes]. subst st1.
  by destruct (scan_features_other_fields min_magnitude time
                 (json_array_elements (json_object_get (Some root) "features"))
                 (set_quakes (g_quakes st) 0 st)) as (_ & _ & -> & -> & -> & -> & ->).
Qed.

(** A lightning refresh leaves the quakes, the ring, the flag and the
    location alone. *)
Lemma fetch_lightning_data_keeps (net : transfer) (st : state) :
  let st' := (fetch_lightning_data net st).1 in
  g_quakes st' = g_quakes st
  ∧ g_quake_count st' = g_quake_count st
  ∧ g_alerted_ids st' = g_alerted_ids st
  ∧ g_alerted_ids_count st' = g_alerted_ids_count st
  ∧ g_is_storm_active st' = g_is_storm_active st
  ∧ g_latitude st' = g_latitude st
  ∧ g_longitude st' = g_longitude st.
Proof. unfold fetch_lightning_data. by destruct net as [|n [|[root|]]]. Qed.

Lemma fetch_seismic_data_storm_active (min_magnitude alert_threshold : fp)
    (net : transfer) (time : nat → Z) (st : state) :
  g_is_storm_active (fetch_seismic_data min_magnitude alert_threshold net time st).1
  = g_is_storm_active st.
Proof. apply fetch_seismic_data_keeps. Qed.

Lemma fetch_lightning_data_storm_active (net : transfer) (st : state) :
  g_is_storm_active (fetch_lightning_data net st).1 = g_is_storm_active st.
Proof. apply fetch_lightning_data_keeps. Qed.

(** A render under a warning: the bell rings exactly when the flag was
    false, and the flag is true afterwards. *)
Lemma render_lightning_warning (st : state) :
  storm_code (g_weather_code st) →
  let res := render_lightning st in
  banners res.2 = [Warning]
  ∧ (g_is_storm_active st = 0 → bells res.2 = 1%nat ∧ g_is_storm_active res.1 = 1)
  ∧ (g_is_storm_active st ≠ 0 →
     bells res.2 = 0%nat ∧ g_is_storm_active res.1 = g_is_storm_active st).
Proof.
  intros Hstorm%is_warning_spec. unfold render_lightning. rewrite Hstorm.
  destruct (Z.eqb_spec (g_is_storm_active st) 0) as [Hz|Hnz]; simpl.
  - split; [done|]. split; [done|]. by intros [].
  - split; [done|]. split; [by intros ?|done].
Qed.

End StormFlag.

(** C4.  The storm bell is edge-triggered.  A render that selects the
    warning banner while the storm-active flag is false rings the bell
    exactly once and sets the flag; when the render of the following cycle
    selects the warning banner again, the flag is still true, no bell rings
    and the flag stays true. *)
Theorem storm_alert_edge_triggered `{Qsort} (min_magnitude alert_threshold : fp)
    (now1 now2 : Z) (seismic lightning : transfer) (time : nat → Z) (st : state) :
  storm_code (g_weather_code st) →
  g_is_storm_active st = 0 →
  let r1 := render_display min_magnitude now1 st in
  let st2 := (fetch_lightning_data lightning
                (fetch_seismic_data min_magnitude alert_threshold seismic time r1.1).1).1 in
  let r2 := render_display min_magnitude now2 st2 in
  (banners r1.2 = [Warning] ∧ bells r1.2 = 1%nat ∧ g_is_storm_active r1.1 = 1)
  ∧ (storm_code (g_weather_code st2) →
     banners r2.2 = [Warning] ∧ bells r2.2 = 0%nat ∧ g_is_storm_active r2.1 = 1).
Proof.
  intros Hstorm Hflag r1 st2 r2.
  destruct (render_display_lightning min_magnitude now1 st) as (Hst1 & Hb1 & Hbell1).
  destruct (render_lightning_warning st Hstorm) as (Hw1 & Hoff & _).
  destruct (Hoff Hflag) as [Hone Hset].
  assert (g_is_storm_active r1.1 = 1) as Hflag1 by (subst r1; by rewrite Hst1).
  split.
  { subst r1. by rewrite Hb1, Hbell1. }
  intros Hstorm2.
  assert (g_is_storm_active st2 = 1) as Hflag2.
  { subst st2.
    by rewrite fetch_lightning_data_storm_active, fetch_seismic_data_storm_active. }
  destruct (render_display_lightning min_magnitude now2 st2) as (Hst2 & Hb2 & Hbell2).
  destruct (render_lightning_warning st2 Hstorm2) as (Hw2 & _ & Hon).
  destruct Hon as [Hnone Hkeep]; [lia|].
  subst r2. rewrite Hst2, Hb2, Hbell2, Hkeep. done.
Qed.

Lemma storm_alert_edge_triggered_witness :
  let st := set_weather 95 (replicate 6 0) initial_state in
  let r1 := render_display 0 1700000000 st in
  let st2 := (fetch_lightning_data (Body (Some (forecast 95 [])))
                (fetch_seismic_data 0 (6 # 1) TransferFailed (λ _, 1700000120) r1.1).1).1 in
  let r2 := render_display 0 1700000120 st2 in
  (banners r1.2 = [Warning] ∧ bells r1.2 = 1%nat ∧ g_is_storm_active r1.1 = 1)
  ∧ (banners r2.2 = [Warning] ∧ bells r2.2 = 0%nat ∧ g_is_storm_active r2.1 = 1).
Proof.
  intros st r1 st2 r2.
  destruct (storm_alert_edge_triggered 0 (6 # 1) 1700000000 1700000120
              TransferFailed (Body (Some (forecast 95 []))) (λ _, 1700000120) st)
    as [Hfirst Hsecond].
  - unfold storm_code. simpl. lia.
  - reflexivity.
  - split; [exact Hfirst|]. apply Hsecond. unfold storm_code. vm_compute. tauto.
Defined.

(** ** Argument parsing *)

Section Arguments.

Variables (atof : string → fp) (float_of_double : fp → fp).

(** The value that [-q] sets is 0 when the argument's value is below 0 and
    the argument's value otherwise; it is never below 0, and it is at least
    0 unless the argument's value is not-a-number, which stays. *)
Lemma parse_min_magnitude_clamped (arg : string) :
  let x := float_of_double (atof arg) in
  let m := parse_min_magnitude atof float_of_double arg in
  m = (if flt x 0 then Num 0 else x)
  ∧ flt m 0 = false
  ∧ (x ≠ NaN → fge m 0 = true ∧ (fge x 0 = true → m = x))
  ∧ (x = NaN → m = NaN).
Proof.
  unfold parse_min_magnitude. cbv zeta.
  destruct (flt (float_of_double (atof arg)) 0) eqn:Hlt.
  - split; [done|]. split; [done|]. split.
    + intros Hnum. split; [done|]. rewrite fge_not_flt, Hlt by done. done.
    + intros Hnan. rewrite Hnan in Hlt. done.
  - split; [done|]. split; [done|]. split; [|done].
    intros Hnum. split; [|done]. rewrite fge_not_flt, Hlt by done. done.
Qed.

End Arguments.

(** C7 (amended).  In the argument loop, [-q x] sets the display filter and
    the alert threshold both to the value of [x], or to 0 when that value is
    below 0, so that the alert threshold is the filter's value unless a
    later flag sets it; the value set is never below 0, and it is at least 0
    unless [x] reads as not-a-number, which is kept as it is.  [-l lat lon]
    sets the latitude and the longitude of the monitor location to the
    values of [lat] and [lon] and nothing else; [test] sets the alert
    threshold to 0 and leaves the filter as it is.  With the conversions of
    the C library the arguments [-q 5 -l 40.71 -74.00] give the filter 5,
    the alert threshold 5, the latitude that is the [float] nearest to
    40.71 and the longitude -74; no argument at all leaves the filter 0 and
    the threshold 6.0; [test] alone gives the threshold 0 and the filter 0,
    and after [-q x] the threshold 0 and the filter of [x]. *)
Theorem parse_args_flags (atof : string → fp) (float_of_double : fp → fp) :
  let parse := parse_args atof float_of_double in
  let value := λ arg, float_of_double (atof arg) in
  (∀ x rest s,
      let m := if flt (value x) 0 then Num 0 else value x in
      let s' := (parse ["-q"; x] s).1 in
      parse ("-q" :: x :: rest) s = parse rest s'
      ∧ min_magnitude s' = m ∧ alert_threshold s' = m ∧ monitor s' = monitor s
      ∧ flt m 0 = false
      ∧ (value x ≠ NaN → fge m 0 = true ∧ (fge (value x) 0 = true → m = value x))
      ∧ (value x = NaN → m = NaN))
  ∧ (∀ lat lon rest s,
        let s' := (parse ["-l"; lat; lon] s).1 in
        parse ("-l" :: lat :: lon :: rest) s = parse rest s'
        ∧ g_latitude (monitor s') = value lat
        ∧ g_longitude (monitor s') = value lon
        ∧ same_but_location (monitor s) (monitor s')
        ∧ min_magnitude s' = min_magnitude s
        ∧ alert_threshold s' = alert_threshold s)
  ∧ (∀ rest s,
        let s' := (parse ["test"] s).1 in
        parse ("test" :: rest) s = parse rest s'
        ∧ alert_threshold s' = 0%Q
        ∧ min_magnitude s' = min_magnitude s
        ∧ monitor s' = monitor s)
  ∧ (let res := parse_args Libc.atof Libc.float_of_double
                  ["-q"; "5"; "-l"; "40.71"; "-74.00"] initial_settings in
     res.2 = []
     ∧ min_magnitude res.1 = (5 # 1)%Q
     ∧ alert_threshold res.1 = (5 # 1)%Q
     ∧ g_latitude (monitor res.1) = (5335941 # 131072)%Q
     ∧ g_longitude (monitor res.1) = (- (74 # 1))%Q
     ∧ same_but_location initial_state (monitor res.1)
     ∧ ((4071 # 100) - (1 # 524288) <= 5335941 # 131072)%Q
     ∧ (5335941 # 131072 <= (4071 # 100) + (1 # 524288))%Q)
  ∧ (parse [] initial_settings = (mkSettings 0 (6 # 1) initial_state, []))
  ∧ (parse ["test"] initial_settings = (mkSettings 0 0 initial_state, []))
  ∧ (∀ x, parse ["-q"; x; "test"] initial_settings
          = (mkSettings (if flt (value x) 0 then Num 0 else value x) 0
               initial_state, [])).
Proof.
  intros parse value. subst parse value.
  split; [|split; [|split; [|split; [|split; [|split]]]]].
  - intros x rest s. cbv zeta.
    destruct (parse_min_magnitude_clamped atof float_of_double x)
      as (Hm & Hlt & Hnum & Hnan).
    cbn [parse_args streq fst min_magnitude alert_threshold monitor].
    rewrite <- Hm. done.
  - intros lat lon rest s. cbv zeta. done.
  - intros rest s. cbv zeta. done.
  - cbv zeta. by vm_compute.
  - done.
  - done.
  - intros x. cbn.
    by destruct (parse_min_magnitude_clamped atof float_of_double x) as (-> & _).
Qed.

Lemma parse_args_flags_witness :
  let value := λ arg, Libc.float_of_double (Libc.atof arg) in
  let clamped := λ arg, if flt (value arg) 0 then Num 0 else value arg in
  let parsed := λ arg,
    (parse_args Libc.atof Libc.float_of_double ["-q"; arg] initial_settings).1 in
  (min_magnitude (parsed "-2.5") = clamped "-2.5" ∧ fge (clamped "-2.5") 0 = true)
  ∧ (alert_threshold (parsed "5") = clamped "5" ∧ clamped "5" = value "5")
  ∧ (min_magnitude (parsed "nan") = clamped "nan" ∧ clamped "nan" = NaN).
Proof.
  intros value clamped parsed.
  destruct (parse_args_flags Libc.atof Libc.float_of_double) as [Hq _].
  split; [|split].
  - destruct (Hq "-2.5" [] initial_settings) as (_ & Hmin & _ & _ & _ & Hnum & _).
    split; [exact Hmin|]. apply Hnum. by vm_compute.
  - destruct (Hq "5" [] initial_settings) as (_ & _ & Halert & _ & _ & Hnum & _).
    split; [exact Halert|]. apply Hnum; by vm_compute.
  - destruct (Hq "nan" [] initial_settings) as (_ & Hmin & _ & _ & _ & _ & Hnan).
    split; [exact Hmin|]. apply Hnan. by vm_compute.
Defined.

(** C7 as stated fails for an argument that reads as not-a-number: after
    [-q nan] the filter and the alert threshold are not-a-number, which is
    not at least 0 and which no magnitude reaches, so that no quake is
    listed whatever the feed holds. *)
Lemma parse_args_not_a_number :
  let s := (parse_args Libc.atof Libc.float_of_double ["-q"; "nan"] initial_settings).1 in
  min_magnitude s = NaN
  ∧ alert_threshold s = NaN
  ∧ fge (min_magnitude s) 0 = false
  ∧ (∀ m : Q, fge m (min_magnitude s) = false)
  ∧ ∀ root time,
      ranked (fetch_seismic_data (min_magnitude s) (alert_threshold s)
                (Body (Some root)) time initial_state).1 = [].
Proof.
  cbv zeta.
  change (parse_args Libc.atof Libc.float_of_double ["-q"; "nan"] initial_settings)
    with (mkSettings NaN NaN initial_state, @nil event).
  cbn [fst min_magnitude alert_threshold].
  split; [done|]. split; [done|]. split; [done|]. split; [done|].
  intros root time.
  destruct (ranked_after_body NaN NaN root time initial_state) as (-> & _); [done|].
  assert (retained NaN (feed_features root) = []) as ->.
  { unfold retained, retained_from.
    induction (feed_features root) as [|v rest IH]; [done|]. exact IH. }
  apply Permutation_nil_r, qsort_permutation.
Qed.

Example parse_args_examples :
  (parse_args Libc.atof Libc.float_of_double ["-q"; "-2.5"] initial_settings).1
  = mkSettings 0 0 initial_state
  ∧ (parse_args Libc.atof Libc.float_of_double ["test"; "-q"; "5"]
       initial_settings).1
    = mkSettings (5 # 1) (5 # 1) initial_state
  ∧ (parse_args Libc.atof Libc.float_of_double [] initial_settings).1
    = mkSettings 0 (6 # 1) initial_state
  ∧ (parse_args Libc.atof Libc.float_of_double ["-q"] initial_settings).2
    = [PrintUnknownArgument "-q"].
Proof. by vm_compute. Qed.

(** ** The alert loop over several calls *)

Section AlertCalls.

Variable alert_threshold : fp.

(** Two calls in a row are one run over both lists. *)
Lemma alert_loop_app (qs1 qs2 : list Earthquake) (st : state) :
  alert_loop alert_threshold (qs1 ++ qs2) st
  = let '(st1, out1) := alert_loop alert_threshold qs1 st in
    let '(st2, out2) := alert_loop alert_threshold qs2 st1 in
    (st2, out1 ++ out2).
Proof.
  revert st; induction qs1 as [|q qs1 IH]; intros st; cbn [app alert_loop].
  - by destruct (alert_loop alert_threshold qs2 st).
  - destruct (alert_quake alert_threshold q st) as [st1 out1]. rewrite IH.
    destruct (alert_loop alert_threshold qs1 st1) as [st2 out2].
    destruct (alert_loop alert_threshold qs2 st2) as [st3 out3].
    by rewrite app_assoc.
Qed.

(** What a call rings and records depends on the ring alone. *)
Lemma alert_loop_ring_only (qs : list Earthquake) (st st' : state) :
  g_alerted_ids st' = g_alerted_ids st →
  g_alerted_ids_count st' = g_alerted_ids_count st →
  (alert_loop alert_threshold qs st').2 = (alert_loop alert_threshold qs st).2
  ∧ g_alerted_ids (alert_loop alert_threshold qs st').1
    = g_alerted_ids (alert_loop alert_threshold qs st).1
  ∧ g_alerted_ids_count (alert_loop alert_threshold qs st').1
    = g_alerted_ids_count (alert_loop alert_threshold qs st).1.
Proof.
  revert st st'; induction qs as [|q qs IH]; intros st st' Hids Hcount;
    cbn [alert_loop]; [done|].
  assert ((alert_quake alert_threshold q st').2 = (alert_quake alert_threshold q st).2
          ∧ g_alerted_ids (alert_quake alert_threshold q st').1
            = g_alerted_ids (alert_quake alert_threshold q st).1
          ∧ g_alerted_ids_count (alert_quake alert_threshold q st').1
            = g_alerted_ids_count (alert_quake alert_threshold q st).1)
    as (Hout & Hids1 & Hcount1).
  { unfold alert_quake, remember_id. rewrite Hids, Hcount.
    repeat case_match; cbn [fst snd g_alerted_ids g_alerted_ids_count set_alerted];
      by rewrite ?Hids, ?Hcount. }
  destruct (alert_quake alert_threshold q st) as [st1 out1].
  destruct (alert_quake alert_threshold q st') as [st1' out1'].
  cbn [fst snd] in *. subst out1'.
  destruct (IH st1 st1' Hids1 Hcount1) as (IHout & IHids & IHcount).
  destruct (alert_loop alert_threshold qs st1) as [st2 out2].
  destruct (alert_loop alert_threshold qs st1') as [st2' out2'].
  cbn [fst snd] in *. by subst out2'.
Qed.

End AlertCalls.

(** The 50th identifier recorded after a quake evicts it, the 49th does
    not. *)
Example ring_eviction_example :
  let st1 := (alert_quake 0 example_quake initial_state).1 in
  (alert_quake 0 example_quake (alert_loop 0 (numbered_quakes 49) st1).1).2 = []
  ∧ (alert_quake 0 example_quake (alert_loop 0 (numbered_quakes 50) st1).1).2 = [Bell]
  ∧ ring (alert_loop 0 (numbered_quakes 49) st1).1
    = "us7" :: (id <$> numbered_quakes 49).
Proof. by vm_compute. Qed.

(** ** The states that the program reaches *)

Section Reachable.

Context `{Qsort}.

Lemma wf_state_ring (st : state) : wf_state st → wf_ring st.
Proof. by intros (_ & _ & Hids & Hn & _). Qed.

Lemma initial_state_wf : wf_state initial_state.
Proof. unfold wf_state, MAX_QUAKES, MAX_ALERTED_IDS. simpl. repeat split; lia. Qed.

Lemma fetch_seismic_data_wf (min_magnitude alert_threshold : fp) (net : transfer)
    (time : nat → Z) (st : state) :
  wf_state st →
  wf_state (fetch_seismic_data min_magnitude alert_threshold net time st).1.
Proof.
  intros (Hq & Hc & Hids & Hn & Hh).
  assert (wf_state (set_quakes (g_quakes st) 0 st)) as Hcleared.
  { unfold wf_state. cbn. repeat split; try done. lia. }
  destruct (loaded net) as [root|] eqn:Hroot;
    [|by rewrite fetch_seismic_data_no_body by done].
  destruct (ranked_after_loaded min_magnitude alert_threshold net root time st Hq Hroot)
    as (_ & Hcount & Hlen).
  pose proof (retained_length min_magnitude (feed_features root)) as Hsel.
  rewrite (fetch_seismic_data_loaded _ _ _ root) in * by done. cbn [fst] in *.
  match goal with |- wf_state (alert_loop ?a ?qs ?st1).1 =>
    pose proof (alert_loop_frame a qs st1) as (_ & _ & _ & Hh' & _);
    destruct (alert_loop_bells a qs st1) as [_ [Hids' Hn']]; [done|];
    destruct (alert_loop a qs st1) as [st2 out2]
  end.
  cbn [fst] in *. unfold wf_state. rewrite Hcount, Hlen, Hh'. done.
Qed.

Lemma fetch_lightning_data_wf (net : transfer) (st : state) :
  wf_state st → wf_state (fetch_lightning_data net st).1.
Proof.
  intros (Hq & Hc & Hids & Hn & _).
  assert (length (g_hourly_weather_codes (fetch_lightning_data net st).1) = 6%nat) as Hh.
  { destruct (loaded net) as [root|] eqn:Hroot.
    - by apply (fetch_lightning_data_loaded net root).
    - by rewrite fetch_lightning_data_no_body. }
  destruct (fetch_lightning_data_keeps net st) as (Hq' & Hc' & Hids' & Hn' & _).
  unfold wf_state. rewrite Hh, Hq', Hc', Hids', Hn'. done.
Qed.

Lemma render_display_wf (min_magnitude : fp) (now : Z) (st : state) :
  wf_state st → wf_state (render_display min_magnitude now st).1.
Proof.
  intros Hwf. destruct (render_display_lightning min_magnitude now st) as (-> & _).
  unfold render_lightning. by repeat case_match.
Qed.

(** An iteration of the loop, step by step. *)
Lemma cycle_steps (min_magnitude alert_threshold : fp) (inp : cycle_input) (st : state) :
  let r1 := fetch_seismic_data min_magnitude alert_threshold
              (seismic_transfer inp) (seismic_clock inp) st in
  let r2 := fetch_lightning_data (lightning_transfer inp) r1.1 in
  let r3 := render_display min_magnitude (render_clock inp) r2.1 in
  cycle min_magnitude alert_threshold inp st
  = (r3.1, r1.2 ++ r2.2 ++ r3.2 ++ [PrintWaiting]).
Proof.
  unfold cycle.
  destruct (fetch_seismic_data _ _ _ _ st) as [st1 out1]. cbn [fst snd].
  destruct (fetch_lightning_data _ st1) as [st2 out2]. cbn [fst snd].
  by destruct (render_display _ _ st2) as [st3 out3].
Qed.

Lemma cycle_wf (min_magnitude alert_threshold : fp) (inp : cycle_input) (st : state) :
  wf_state st → wf_state (cycle min_magnitude alert_threshold inp st).1.
Proof.
  intros Hwf. rewrite cycle_steps. cbn [fst].
  by apply render_display_wf, fetch_lightning_data_wf, fetch_seismic_data_wf.
Qed.

(** The arrays keep their sizes through every iteration of the loop. *)
Lemma cycles_wf (min_magnitude alert_threshold : fp) (inputs : list cycle_input)
    (st : state) :
  wf_state st → wf_state (cycles min_magnitude alert_threshold inputs st).1.
Proof.
  revert st; induction inputs as [|inp inputs IH]; intros st Hwf; cbn [cycles]; [done|].
  pose proof (cycle_wf min_magnitude alert_threshold inp st Hwf) as H1.
  destruct (cycle _ _ inp st) as [st1 out1]. cbn [fst] in H1.
  specialize (IH st1 H1). by destruct (cycles _ _ inputs st1) as [st2 out2].
Qed.

Lemma parse_args_wf (atof : string → fp) (float_of_double : fp → fp)
    (args : list string) (s : settings) :
  wf_state (monitor s) →
  wf_state (monitor (parse_args atof float_of_double args s).1).
Proof.
  assert (∀ n args s, (length args ≤ n)%nat → wf_state (monitor s) →
            wf_state (monitor (parse_args atof float_of_double args s).1)) as Hn.
  { clear args s. induction n as [|n IH]; intros [|a rest] s Hlen Hwf;
      try done; cbn [length] in Hlen; [lia|].
    cbn [parse_args].
    assert (wf_state (monitor
              (if streq a "test"
               then parse_args atof float_of_double rest
                      (mkSettings (min_magnitude s) 0 (monitor s))
               else let '(s', out) := parse_args atof float_of_double rest s in
                    (s', PrintUnknownArgument a :: out)).1)) as Hother.
    { destruct (streq a "test"); [apply IH; [lia|done]|].
      specialize (IH rest s).
      destruct (parse_args atof float_of_double rest s). apply IH; [lia|done]. }
    destruct (streq a "-q"), (streq a "-l"), rest as [|x [|y rest']];
      try done; cbn [length] in Hlen; apply IH; try done; cbn [length]; lia. }
  by apply (Hn (length args)).
Qed.

(** Every state that [main] reaches has arrays of the declared sizes. *)
Lemma main_wf (atof : string → fp) (float_of_double : fp → fp)
    (argv : list string) (inputs : list cycle_input) :
  wf_state (main atof float_of_double argv inputs).1.
Proof.
  unfold main.
  pose proof (parse_args_wf atof float_of_double argv initial_settings
                initial_state_wf) as Hs.
  destruct (parse_args atof float_of_double argv initial_settings) as [s out0].
  cbn [fst] in Hs.
  pose proof (cycles_wf (min_magnitude s) (alert_threshold s) inputs (monitor s) Hs) as Hc.
  by destruct (cycles _ _ inputs (monitor s)) as [st out].
Qed.

End Reachable.

(** Two iterations of the loop: a quake rings the bell once, a storm
    warning once. *)
Example main_example :
  let inputs :=
    [mkCycleInput (Body (Some first_feed)) (λ _, 1700000000)
                  (Body (Some (forecast 95 [95; 3]))) 1700000001;
     mkCycleInput (Body (Some first_feed)) (λ _, 1700000120)
                  (Body (Some (forecast 95 [95; 3]))) 1700000121] in
  let res := main Libc.atof Libc.float_of_double ["-q"; "5"] inputs in
  bells res.2 = 2%nat
  ∧ banners res.2 = [Warning; Warning]
  ∧ ranked res.1 = [mkEarthquake (7 # 1) "Fiji" "7m ago" "us7"]
  ∧ ring res.1 = ["us7"].
Proof. by vm_compute. Qed.

(** ** Failed fetches *)

Section FailedFetch.

Context `{Qsort}.

Lemma only_bells_replicate (out : list event) :
  Forall (λ e, e = Bell) out → out = replicate (length out) Bell.
Proof. induction 1 as [|e out -> _ IH]; [done|]. cbn. by f_equal. Qed.

(** A fetch prints the lines of the callback and then rings. *)
Lemma fetch_seismic_data_output (min_magnitude alert_threshold : fp)
    (net : transfer) (time : nat → Z) (st : state) :
  ∃ rung, (fetch_seismic_data min_magnitude alert_threshold net time st).2
          = replicate (out_of_memory net) PrintNoMemory ++ replicate rung Bell.
Proof.
  unfold fetch_seismic_data, check_for_quake_alerts, callback_output.
  destruct net as [|n [|[root|]]]; try (exists 0%nat; cbn; by rewrite ?app_nil_r).
  match goal with |- context [alert_loop ?a ?qs ?st1] =>
    pose proof (alert_loop_only_bells a qs st1) as Hb;
    destruct (alert_loop a qs st1) as [st2 out] end.
  cbn [snd out_of_memory] in *. exists (length out).
  f_equal. by apply only_bells_replicate.
Qed.

(** What an iteration shows: the quake lines of the list that the seismic
    fetch left, and one banner. *)
Lemma cycle_shows (min_magnitude alert_threshold : fp) (inp : cycle_input) (st : state) :
  let r1 := fetch_seismic_data min_magnitude alert_threshold
              (seismic_transfer inp) (seismic_clock inp) st in
  let shown := (cycle min_magnitude alert_threshold inp st).2 in
  quake_lines shown = (λ q, (quake_color q, q)) <$> ranked r1.1
  ∧ length (banners shown) = 1%nat.
Proof.
  cbv zeta. rewrite cycle_steps. cbn [fst snd].
  destruct (quiet_shows_nothing _
              (fetch_seismic_data_quiet min_magnitude alert_threshold
                 (seismic_transfer inp) (seismic_clock inp) st)) as [Hb1 Hq1].
  destruct (fetch_seismic_data _ _ _ _ st) as [st1 out1]. cbn [fst snd] in *.
  destruct (quiet_shows_nothing _
              (fetch_lightning_data_quiet (lightning_transfer inp) st1)) as [Hb2 Hq2].
  destruct (fetch_lightning_data_keeps (lightning_transfer inp) st1) as (Hq & Hc & _).
  destruct (fetch_lightning_data _ st1) as [st2 out2]. cbn [fst snd] in *.
  pose proof (render_display_quake_lines min_magnitude (render_clock inp) st2) as Hlines.
  pose proof (render_display_one_banner min_magnitude (render_clock inp) st2) as Hone.
  destruct (render_display _ _ st2) as [st3 out3]. cbn [fst snd] in *.
  rewrite !quake_lines_app, !banners_app, Hb1, Hb2, Hq1, Hq2, Hlines.
  change (banners [PrintWaiting]) with (@nil banner).
  change (quake_lines [PrintWaiting]) with (@nil (color * Earthquake)).
  rewrite !app_nil_r. cbn [app]. unfold ranked. by rewrite Hq, Hc.
Qed.

(** The callback prints nothing but its one message. *)
Lemma receive_prints (pieces : list (list Byte.byte * option (list Byte.byte)))
    (chunk : MemoryStruct.t) :
  Forall (λ line, line = "Not enough memory (realloc returned NULL)")
         (receive pieces chunk).2.
Proof.
  revert chunk; induction pieces as [|[contents heap] pieces IH]; intros chunk;
    cbn [receive]; [constructor|].
  assert (Forall (λ line, line = "Not enough memory (realloc returned NULL)")
            (write_memory_callback contents 1 (Z.of_nat (length contents)) chunk heap).2)
    as Hcall.
  { unfold write_memory_callback, realloc. destruct heap; repeat constructor. }
  destruct (write_memory_callback contents 1 (Z.of_nat (length contents)) chunk heap)
    as [[chunk1 count] out1].
  cbn [snd] in Hcall. case_match; [|done].
  specialize (IH chunk1).
  destruct (receive pieces chunk1) as [[chunk2 ok] out2]. cbn [snd] in *.
  by apply Forall_app.
Qed.

End FailedFetch.

(** C6 (amended).  A fetch clears the ranked list first, so what it does
    depends on no earlier count.  When the transfer fails or the body does
    not parse the list is empty after the fetch and nothing else changes;
    the display of that iteration lists no quake and still shows its status
    banner, and the following fetch goes as if the failed one had not
    happened.  The fetch itself reports no error, but it is not always
    silent: during the transfer the callback prints its line each time it
    finds no memory, and these lines, and after them the bells, are all
    that a fetch puts on the output; a failed fetch without them prints
    nothing.  A fetch always returns and consults one transfer. *)
Theorem fetch_seismic_data_failure `{Qsort} (min_magnitude alert_threshold : fp)
    (net : transfer) (time : nat → Z) (st : state) :
  let res := fetch_seismic_data min_magnitude alert_threshold net time st in
  (∃ rung, res.2 = replicate (out_of_memory net) PrintNoMemory ++ replicate rung Bell)
  ∧ fetch_seismic_data min_magnitude alert_threshold net time
      (set_quakes (g_quakes st) 0 st) = res
  ∧ (loaded net = None →
     res = (set_quakes (g_quakes st) 0 st, replicate (out_of_memory net) PrintNoMemory)
     ∧ ranked res.1 = []
     ∧ (out_of_memory net = 0%nat → res.2 = [])
     ∧ (∀ net' time',
          fetch_seismic_data min_magnitude alert_threshold net' time' res.1
          = fetch_seismic_data min_magnitude alert_threshold net' time' st)
     ∧ ∀ lightning now,
         let shown := (cycle min_magnitude alert_threshold
                         (mkCycleInput net time lightning now) st).2 in
         quake_lines shown = [] ∧ length (banners shown) = 1%nat)
  ∧ ∀ pieces chunk completes json_loads,
      net = curl_easy_perform pieces chunk completes json_loads →
      out_of_memory net = length (receive pieces chunk).2
      ∧ Forall (λ line, line = "Not enough memory (realloc returned NULL)")
               (receive pieces chunk).2.
Proof.
  intros res. subst res.
  split; [apply fetch_seismic_data_output|].
  split; [apply fetch_seismic_data_clears|]. split.
  - intros Hnet.
    pose proof (cycle_shows min_magnitude alert_threshold) as Hshown.
    rewrite fetch_seismic_data_no_body in * by done.
    split; [done|]. split; [done|]. split; [|split].
    + intros Hzero. cbn [snd]. by rewrite Hzero.
    + intros net' time'. apply fetch_seismic_data_clears.
    + intros lightning now. cbv zeta.
      destruct (Hshown (mkCycleInput net time lightning now) st) as [Hlines Hone].
      cbn [seismic_transfer seismic_clock] in Hlines.
      rewrite fetch_seismic_data_no_body in Hlines by done. done.
  - intros pieces chunk completes json_loads ->. split; [|apply receive_prints].
    unfold curl_easy_perform. by destruct (receive pieces chunk) as [[chunk' taken] printed].
Qed.

Lemma fetch_seismic_data_failure_witness :
  let st1 := (fetch_seismic_data (3 # 1) (6 # 1) (Body (Some example_feed))
                (λ _, 1700000000) initial_state).1 in
  let res := fetch_seismic_data (3 # 1) (6 # 1) TransferFailed (λ _, 1700000000) st1 in
  let pieces := [([Byte.x7b], @None (list Byte.byte))] in
  ranked res.1 = []
  ∧ res.2 = []
  ∧ out_of_memory (curl_easy_perform pieces (fresh_chunk Byte.xff) true (λ _, None))
    = length (receive pieces (fresh_chunk Byte.xff)).2.
Proof.
  intros st1 res pieces.
  destruct (fetch_seismic_data_failure (3 # 1) (6 # 1) TransferFailed
              (λ _, 1700000000) st1) as (_ & _ & Hfail & _).
  destruct (Hfail eq_refl) as (_ & Hranked & Hsilent & _).
  split; [exact Hranked|]. split; [exact (Hsilent eq_refl)|].
  destruct (fetch_seismic_data_failure (3 # 1) (6 # 1)
              (curl_easy_perform pieces (fresh_chunk Byte.xff) true (λ _, None))
              (λ _, 1700000000) st1) as (_ & _ & _ & Hcurl).
  by destruct (Hcurl pieces (fresh_chunk Byte.xff) true (λ _, None) eq_refl).
Defined.

(** C6 as stated fails when the callback finds no memory: the transfer
    fails, and the fetch has printed the line of the callback. *)
Lemma fetch_seismic_data_out_of_memory :
  let net := curl_easy_perform [([Byte.x7b], None)] (fresh_chunk Byte.xff) true
               (λ _, None) in
  let res := fetch_seismic_data (3 # 1) (6 # 1) net (λ _, 1700000000) initial_state in
  net = Perform 1 TransferFailed
  ∧ loaded net = None
  ∧ (receive [([Byte.x7b], None)] (fresh_chunk Byte.xff)).2
    = ["Not enough memory (realloc returned NULL)"]
  ∧ res.2 = [PrintNoMemory].
Proof. by vm_compute. Qed.

(** * Further properties *)

(** ** format_time_ago and compare_quakes *)

(** X1.  The label never overflows its buffer.  With a buffer of at least
    one byte, whatever the clock and the timestamp, the text written is
    shorter than the buffer and is the start of the whole label; with a
    buffer of no byte nothing is written, so that the old text stays; and in
    [time_ago] the label has at most 19 characters. *)
Theorem format_time_ago_fits_buffer (now event_time_ms : Z) (buffer : string)
    (buffer_size : nat) :
  ((0 < buffer_size)%nat →
   (String.length (format_time_ago now event_time_ms buffer buffer_size)
    ≤ buffer_size - 1)%nat
   ∧ ∃ rest, relative_age now event_time_ms
             = format_time_ago now event_time_ms buffer buffer_size +:+ rest)
  ∧ format_time_ago now event_time_ms buffer 0 = buffer
  ∧ (String.length (format_time_ago now event_time_ms buffer TIME_AGO_SIZE)
     < TIME_AGO_SIZE)%nat.
Proof.
  rewrite !format_time_ago_snprintf. split; [|split; [done|]].
  - intros Hsize. split; [by apply snprintf_length|].
    destruct buffer_size as [|n]; [lia|]. cbn [snprintf]. apply substring_prefix.
  - pose proof (snprintf_length buffer TIME_AGO_SIZE (relative_age now event_time_ms))
      as Hlen.
    unfold TIME_AGO_SIZE in *. lia.
Qed.

Lemma format_time_ago_fits_buffer_witness :
  (String.length (format_time_ago 1700000000 1699999815000 "5m ago" 3) ≤ 3 - 1)%nat
  ∧ ∃ rest, relative_age 1700000000 1699999815000
            = format_time_ago 1700000000 1699999815000 "5m ago" 3 +:+ rest.
Proof.
  apply (format_time_ago_fits_buffer 1700000000 1699999815000 "5m ago" 3). lia.
Defined.

(** X2.  [compare_quakes] is a comparison function as [qsort] needs one: it
    returns -1, 0 or 1, swapping its arguments negates the result, the
    order it gives is transitive, and it returns 0 exactly for equal
    magnitudes, whatever the other fields are. *)
Theorem compare_quakes_order (a b c : Earthquake) :
  (compare_quakes a b = -1 ∨ compare_quakes a b = 0 ∨ compare_quakes a b = 1)
  ∧ compare_quakes b a = - compare_quakes a b
  ∧ (compare_quakes a b = 0 ↔ (mag a == mag b)%Q)
  ∧ (compare_quakes a b = -1 ↔ (mag b < mag a)%Q)
  ∧ (compare_quakes a b <= 0 → compare_quakes b c <= 0 → compare_quakes a c <= 0).
Proof.
  assert (∀ x y : Q, (x < y)%Q → (y < x)%Q → False) as Hasym.
  { intros x y Hxy Hyx. eapply Qlt_irrefl, Qlt_trans; eauto. }
  assert (∀ x y : Q, (x < y)%Q → (x == y)%Q → False) as Hne.
  { intros x y Hxy Heq. rewrite Heq in Hxy. by apply Qlt_irrefl in Hxy. }
  split; [|split; [|split; [|split]]].
  - destruct (compare_quakes_cases a b) as [[_ ->]|[[_ ->]|[_ ->]]]; auto.
  - destruct (compare_quakes_cases a b) as [[H ->]|[[H ->]|[H ->]]];
      destruct (compare_quakes_cases b a) as [[H' ->]|[[H' ->]|[H' ->]]];
      try done; exfalso; eauto using Qeq_sym.
  - destruct (compare_quakes_cases a b) as [[H ->]|[[H ->]|[H ->]]];
      split; try done; intros Heq; exfalso; eauto using Qeq_sym.
  - destruct (compare_quakes_cases a b) as [[H ->]|[[H ->]|[H ->]]];
      split; try done; intros Hlt; exfalso; eauto using Qeq_sym.
  - rewrite !compare_quakes_le. intros ??. by eapply Qle_trans.
Qed.

(** ** The ring as a history *)

Section RingAsHistory.

Lemma newest_short {A : Type} (k : nat) (l : list A) :
  (length l ≤ k)%nat → newest k l = l.
Proof. intros Hl. unfold newest. by replace (length l - k)%nat with 0%nat by lia. Qed.

Lemma newest_length {A : Type} (k : nat) (l : list A) :
  length (newest k l) = (length l `min` k)%nat.
Proof. unfold newest. rewrite length_drop. lia. Qed.

Lemma newest_app {A : Type} (k : nat) (l m : list A) :
  newest k (newest k l ++ m) = newest k (l ++ m).
Proof.
  destruct (decide (length l ≤ k)%nat) as [Hle|Hgt];
    [by rewrite (newest_short k l)|].
  unfold newest. rewrite !length_app, length_drop.
  replace (length l - (length l - k) + length m - k)%nat with (length m) by lia.
  replace (length l + length m - k)%nat with ((length l - k) + length m)%nat by lia.
  rewrite <- drop_drop. by rewrite (drop_app_le l) by lia.
Qed.

Lemma newest_app_ge {A : Type} (k : nat) (l m : list A) :
  (k ≤ length m)%nat → newest k (l ++ m) = newest k m.
Proof.
  intros Hk. unfold newest. rewrite length_app.
  replace (length l + length m - k)%nat with (length l + (length m - k))%nat by lia.
  by rewrite drop_app_add.
Qed.

Lemma elem_of_newest {A : Type} (k : nat) (l : list A) (x : A) :
  x ∈ newest k l → ∃ i, (length l - k ≤ i)%nat ∧ l !! i = Some x.
Proof.
  unfold newest. intros [i Hi]%list_elem_of_lookup. rewrite lookup_drop in Hi.
  exists (length l - k + i)%nat. split; [lia|done].
Qed.

Lemma push_newest (x : string) (r : list string) :
  (length r ≤ MAX_ALERTED_IDS)%nat → push x r = newest MAX_ALERTED_IDS (r ++ [x]).
Proof.
  unfold push, newest, MAX_ALERTED_IDS. intros Hr. rewrite length_app. cbn [length].
  case_decide.
  - by replace (length r + 1 - 50)%nat with 0%nat by lia.
  - replace (length r + 1 - 50)%nat with 1%nat by lia.
    destruct r as [|y r]; [simpl in *; lia|done].
Qed.

Lemma ring_length (st : state) : wf_ring st → (length (ring st) ≤ MAX_ALERTED_IDS)%nat.
Proof. intros [Hlen Hcount]. unfold ring. rewrite length_take. lia. Qed.

Lemma push_nodup (x : string) (r : list string) :
  NoDup r → x ∉ r → NoDup (push x r).
Proof.
  intros Hnd Hx. unfold push.
  assert (∀ r', NoDup r' → x ∉ r' → NoDup (r' ++ [x])) as Happ.
  { intros r' Hnd' Hx'. apply NoDup_app. split; [done|]. split; [|apply NoDup_singleton].
    by intros y Hy ->%list_elem_of_singleton. }
  case_decide; [by apply Happ|].
  apply Happ.
  - destruct r; [done|]. by apply NoDup_cons in Hnd as [_ ?].
  - intros Hin. apply Hx. destruct r; [done|]. apply elem_of_cons. by right.
Qed.

(** The ring after a run of the alert loop: the 50 newest of what it held
    followed by what the run recorded. *)
Lemma alert_loop_newest (alert_threshold : fp) (qs : list Earthquake) (st : state) :
  wf_ring st →
  ring (alert_loop alert_threshold qs st).1
  = newest MAX_ALERTED_IDS (ring st ++ alerted_ids_of alert_threshold qs st)
  ∧ (g_alerted_ids_count st ≤ g_alerted_ids_count (alert_loop alert_threshold qs st).1)%nat
  ∧ (NoDup (ring st) → NoDup (ring (alert_loop alert_threshold qs st).1)).
Proof.
  revert st; induction qs as [|q qs IH]; intros st Hwf; cbn [alert_loop alerted_ids_of].
  { rewrite app_nil_r, newest_short by (by apply ring_length). done. }
  destruct (alert_quake_ring alert_threshold q st Hwf) as [Hwf1 Hq].
  assert (g_alerted_ids_count st ≤ g_alerted_ids_count (alert_quake alert_threshold q st).1)%nat
    as Hmono.
  { unfold alert_quake, remember_id. repeat case_match; cbn; lia. }
  destruct (alert_quake alert_threshold q st) as [st1 out1]. cbn [fst snd] in *.
  destruct (IH st1 Hwf1) as (IHring & IHmono & IHnd).
  destruct (alert_loop alert_threshold qs st1) as [st2 out2]. cbn [fst snd] in *.
  split; [|split; [lia|]].
  - rewrite IHring. destruct Hq as [(-> & -> & _)|(-> & -> & _)].
    + by rewrite decide_True.
    + rewrite decide_False by done.
      rewrite push_newest by (by apply ring_length).
      by rewrite newest_app, <- app_assoc.
  - intros Hnd. apply IHnd. destruct Hq as [(_ & -> & _)|(_ & -> & _ & Hfresh)]; [done|].
    by apply push_nodup.
Qed.

(** When every quake of a run finds its identifier outside the 50 newest of
    the history so far, every quake rings. *)
Lemma alert_loop_all_ring (alert_threshold : fp) (qs : list Earthquake) (st : state)
    (history : list string) :
  wf_ring st →
  ring st = newest MAX_ALERTED_IDS history →
  Forall (eligible alert_threshold) qs →
  (∀ k q, qs !! k = Some q →
          id q ∉ newest MAX_ALERTED_IDS (history ++ (id <$> take k qs))) →
  alerted_ids_of alert_threshold qs st = id <$> qs.
Proof.
  revert st history; induction qs as [|q qs IH]; intros st history Hwf Hring Hel Hout;
    cbn [alert_loop alerted_ids_of]; [done|].
  apply Forall_cons in Hel as [Hq Hel].
  destruct (alert_quake_ring alert_threshold q st Hwf) as [Hwf1 Hstep].
  destruct (alert_quake alert_threshold q st) as [st1 out1]. cbn [fst snd] in *.
  destruct Hstep as [(_ & _ & Hin)|(-> & Hpush & _ & _)].
  { exfalso. specialize (Hout 0%nat q eq_refl). cbn [take fmap list_fmap] in Hout.
    rewrite app_nil_r, <- Hring in Hout. by apply Hout, Hin. }
  rewrite decide_False by done. cbn [app fmap list_fmap]. f_equal.
  apply (IH st1 (history ++ [id q])); [done| |done|].
  - rewrite Hpush, push_newest by (by apply ring_length).
    by rewrite Hring, newest_app.
  - intros k q' Hk. specialize (Hout (S k) q' Hk).
    cbn [take fmap list_fmap] in Hout. by rewrite <- app_assoc.
Qed.

End RingAsHistory.

(** X3.  [check_for_quake_alerts] keeps a history: after a call the ring
    holds the 50 newest of the identifiers it held followed by those that
    rang during the call, the bells of the call are as many as the
    identifiers it recorded, the ring's counter never goes down, and
    nothing but the ring changes. *)
Theorem check_for_quake_alerts_history (alert_threshold : fp) (st : state) :
  wf_ring st →
  let res := check_for_quake_alerts alert_threshold st in
  let rung := alerted_ids_of alert_threshold (ranked st) st in
  ring res.1 = newest 50 (ring st ++ rung)
  ∧ bells res.2 = length rung
  ∧ (g_alerted_ids_count st ≤ g_alerted_ids_count res.1 ≤ 50)%nat
  ∧ same_but_ring st res.1.
Proof.
  intros Hwf res rung. subst res rung. unfold check_for_quake_alerts. fold (ranked st).
  destruct (alert_loop_newest alert_threshold (ranked st) st Hwf) as (Hring & Hmono & _).
  destruct (alert_loop_bells alert_threshold (ranked st) st Hwf) as [Hbells [_ Hcount]].
  split; [exact Hring|]. split; [exact Hbells|].
  split; [by split|]. apply alert_loop_frame.
Qed.

Lemma check_for_quake_alerts_history_witness :
  ring (check_for_quake_alerts 0 (crowded_state 3)).1
  = newest 50 (ring (crowded_state 3)
               ++ alerted_ids_of 0 (ranked (crowded_state 3)) (crowded_state 3)).
Proof.
  apply (check_for_quake_alerts_history 0 (crowded_state 3)).
  split; [reflexivity|]. unfold MAX_ALERTED_IDS. simpl. lia.
Defined.

(** X4.  The ring does not cover a long list.  When the ranked list has
    more than 50 eligible quakes with different identifiers, none of them
    in the ring, a call rings for every one of them and leaves the last 50
    of them in the ring; and from that ring the next call over the same
    list rings for every one of them again, and so does every later one. *)
Theorem ring_overflow_rings_again (alert_threshold : fp) (st : state) :
  wf_ring st →
  NoDup (id <$> ranked st) →
  Forall (eligible alert_threshold) (ranked st) →
  (50 < length (ranked st))%nat →
  ring st = newest 50 (id <$> ranked st) ∨ (∀ q, q ∈ ranked st → id q ∉ ring st) →
  let res := check_for_quake_alerts alert_threshold st in
  bells res.2 = length (ranked st)
  ∧ ring res.1 = newest 50 (id <$> ranked st)
  ∧ ranked res.1 = ranked st.
Proof.
  intros Hwf Hnd Hel Hlong Hstart res.
  set (qs := ranked st) in *.
  assert (∃ history, ring st = newest MAX_ALERTED_IDS history
            ∧ newest MAX_ALERTED_IDS (history ++ (id <$> qs))
              = newest MAX_ALERTED_IDS (id <$> qs)
            ∧ ∀ k q, qs !! k = Some q →
                id q ∉ newest MAX_ALERTED_IDS (history ++ (id <$> take k qs)))
    as (history & Hring & Hnew & Hout).
  { assert (∀ k q i, qs !! k = Some q → (id <$> qs) !! i = Some (id q) → i = k) as Hidx.
    { intros k q i Hk Hi. eapply NoDup_lookup; [exact Hnd|exact Hi|].
      by rewrite list_lookup_fmap, Hk. }
    destruct Hstart as [Hfix|Hfresh].
    - exists (id <$> qs). split; [done|]. split.
      { apply newest_app_ge. rewrite length_fmap. unfold MAX_ALERTED_IDS. lia. }
      intros k q Hk [i [Hi Hlook]]%elem_of_newest.
      pose proof (lookup_lt_Some _ _ _ Hk) as Hklt.
      rewrite length_app, !length_fmap, length_take in Hi.
      unfold MAX_ALERTED_IDS in Hi.
      destruct (decide (i < length qs)%nat) as [Hlt|Hge].
      + rewrite lookup_app_l in Hlook by (by rewrite length_fmap).
        apply (Hidx k q i Hk) in Hlook. lia.
      + rewrite lookup_app_r in Hlook by (rewrite length_fmap; lia).
        rewrite length_fmap, list_lookup_fmap in Hlook.
        destruct (take k qs !! (i - length qs)%nat) as [q'|] eqn:Hq'; [|done].
        pose proof (lookup_lt_Some _ _ _ Hq') as Hlt'. rewrite length_take in Hlt'.
        rewrite lookup_take_lt in Hq' by lia.
        assert ((id <$> qs) !! (i - length qs)%nat = Some (id q)) as Hi'.
        { rewrite list_lookup_fmap, Hq'. exact Hlook. }
        apply (Hidx k q _ Hk) in Hi'. lia.
    - exists (ring st). split; [by rewrite newest_short by (by apply ring_length)|]. split.
      { apply newest_app_ge. rewrite length_fmap. unfold MAX_ALERTED_IDS. lia. }
      intros k q Hk [i [_ Hlook]]%elem_of_newest.
      pose proof (lookup_lt_Some _ _ _ Hk) as Hklt.
      destruct (decide (i < length (ring st))%nat) as [Hlt|Hge].
      + rewrite lookup_app_l in Hlook by done.
        apply (Hfresh q); [by eapply list_elem_of_lookup_2|].
        by eapply list_elem_of_lookup_2.
      + rewrite lookup_app_r in Hlook by lia.
        rewrite list_lookup_fmap in Hlook.
        destruct (take k qs !! (i - length (ring st))%nat) as [q'|] eqn:Hq'; [|done].
        pose proof (lookup_lt_Some _ _ _ Hq') as Hlt'. rewrite length_take in Hlt'.
        rewrite lookup_take_lt in Hq' by lia.
        assert ((id <$> qs) !! (i - length (ring st))%nat = Some (id q)) as Hi'.
        { rewrite list_lookup_fmap, Hq'. exact Hlook. }
        apply (Hidx k q _ Hk) in Hi'. lia. }
  pose proof (alert_loop_all_ring alert_threshold qs st history Hwf Hring Hel Hout) as Hall.
  destruct (alert_loop_newest alert_threshold qs st Hwf) as (Hring' & _ & _).
  destruct (alert_loop_bells alert_threshold qs st Hwf) as [Hbells _].
  pose proof (alert_loop_frame alert_threshold qs st) as (Hq & Hc & _).
  subst res. unfold check_for_quake_alerts. fold (ranked st). fold qs.
  rewrite Hbells, Hring', Hall, length_fmap. split; [done|]. split.
  - rewrite Hring, newest_app. exact Hnew.
  - unfold ranked. by rewrite Hq, Hc.
Qed.

Lemma ring_overflow_rings_again_witness :
  let st1 := (check_for_quake_alerts 0 (crowded_state 51)).1 in
  bells (check_for_quake_alerts 0 (crowded_state 51)).2 = 51%nat
  ∧ bells (check_for_quake_alerts 0 st1).2 = length (ranked st1).
Proof.
  assert (wf_ring (crowded_state 51)) as Hwf
    by (split; [reflexivity|unfold MAX_ALERTED_IDS; simpl; lia]).
  assert (NoDup (id <$> ranked (crowded_state 51))) as Hnd
    by (apply (bool_decide_unpack _); vm_compute; reflexivity).
  assert (Forall (eligible 0) (ranked (crowded_state 51))) as Hel
    by (apply (bool_decide_unpack _); vm_compute; reflexivity).
  assert (50 < length (ranked (crowded_state 51)))%nat as Hlong
    by (vm_compute; lia).
  destruct (ring_overflow_rings_again 0 (crowded_state 51) Hwf Hnd Hel Hlong)
    as (Hbells & Hring & Hranked).
  { right. intros q _. vm_compute. apply not_elem_of_nil. }
  intros st1. split; [exact Hbells|].
  apply (ring_overflow_rings_again 0 st1).
  - apply (alert_loop_bells 0 (ranked (crowded_state 51)) (crowded_state 51) Hwf).
  - subst st1. by rewrite Hranked.
  - subst st1. by rewrite Hranked.
  - subst st1. by rewrite Hranked.
  - left. subst st1. by rewrite Hranked.
Defined.

(** ** Invariants of the whole run *)

Section RunInvariants.

Context `{Qsort}.

(** Argument parsing touches the monitor state through [set_location]
    only. *)
Lemma parse_args_monitor (P : state → Prop) (atof : string → fp)
    (float_of_double : fp → fp) (args : list string) (s : settings) :
  (∀ lat lon st, P st → P (set_location lat lon st)) →
  P (monitor s) →
  P (monitor (parse_args atof float_of_double args s).1).
Proof.
  intros Hloc.
  assert (∀ n args s, (length args ≤ n)%nat → P (monitor s) →
            P (monitor (parse_args atof float_of_double args s).1)) as Hn.
  { clear args s. induction n as [|n IH]; intros [|a rest] s Hlen HP;
      try done; cbn [length] in Hlen; [lia|].
    cbn [parse_args].
    assert (P (monitor
              (if streq a "test"
               then parse_args atof float_of_double rest
                      (mkSettings (min_magnitude s) 0 (monitor s))
               else let '(s', out) := parse_args atof float_of_double rest s in
                    (s', PrintUnknownArgument a :: out)).1)) as Hother.
    { destruct (streq a "test"); [apply IH; [lia|done]|].
      specialize (IH rest s).
      destruct (parse_args atof float_of_double rest s). apply IH; [lia|done]. }
    destruct (streq a "-q"), (streq a "-l"), rest as [|x [|y rest']];
      try done; cbn [length] in Hlen; apply IH; try done; cbn [length]; try lia;
      by apply Hloc. }
  by apply (Hn (length args)).
Qed.

(** A property of the state that holds at the start and that each step of
    the loop keeps, in states with arrays of the declared sizes, holds in
    every state that [main] reaches. *)
Lemma main_invariant (P : state → Prop) (atof : string → fp)
    (float_of_double : fp → fp) (argv : list string) (inputs : list cycle_input) :
  P initial_state →
  (∀ lat lon st, P st → P (set_location lat lon st)) →
  (∀ m a net time st, wf_state st → P st → P (fetch_seismic_data m a net time st).1) →
  (∀ net st, P st → P (fetch_lightning_data net st).1) →
  (∀ m now st, P st → P (render_display m now st).1) →
  P (main atof float_of_double argv inputs).1.
Proof.
  intros Hinit Hloc Hseismic Hlightning Hrender. unfold main.
  pose proof (parse_args_monitor (λ st, wf_state st ∧ P st) atof float_of_double
                argv initial_settings) as Hs.
  destruct (parse_args atof float_of_double argv initial_settings) as [s out0].
  cbn [fst] in Hs.
  destruct Hs as [Hwf HP].
  { intros lat lon st [Hwf HP]. split; [exact Hwf|by apply Hloc]. }
  { split; [apply initial_state_wf|exact Hinit]. }
  assert (∀ st, wf_state st → P st →
            P (cycles (min_magnitude s) (alert_threshold s) inputs st).1) as Hcycles.
  { induction inputs as [|inp inputs IH]; intros st Hwf' HP'; cbn [cycles]; [done|].
    pose proof (cycle_wf (min_magnitude s) (alert_threshold s) inp st Hwf') as Hwf1.
    assert (P (cycle (min_magnitude s) (alert_threshold s) inp st).1) as HP1.
    { rewrite cycle_steps. cbn [fst]. by apply Hrender, Hlightning, Hseismic. }
    destruct (cycle _ _ inp st) as [st1 out1]. cbn [fst] in *.
    specialize (IH st1 Hwf1 HP1). by destruct (cycles _ _ inputs st1) as [st2 out2]. }
  specialize (Hcycles (monitor s) Hwf HP).
  by destruct (cycles _ _ inputs (monitor s)) as [st out].
Qed.

Lemma ring_ok_same (st st' : state) :
  g_alerted_ids st' = g_alerted_ids st →
  g_alerted_ids_count st' = g_alerted_ids_count st →
  ring_ok st → ring_ok st'.
Proof. unfold ring_ok, wf_ring, ring. by intros -> ->. Qed.

Lemma alert_loop_ring_ok (alert_threshold : fp) (qs : list Earthquake) (st : state) :
  ring_ok st → ring_ok (alert_loop alert_threshold qs st).1.
Proof.
  intros [Hwf Hnd]. split.
  - by apply alert_loop_bells.
  - by apply alert_loop_newest.
Qed.

Lemma fetch_seismic_data_ring_ok (min_magnitude alert_threshold : fp) (net : transfer)
    (time : nat → Z) (st : state) :
  ring_ok st → ring_ok (fetch_seismic_data min_magnitude alert_threshold net time st).1.
Proof.
  intros Hok. unfold fetch_seismic_data, check_for_quake_alerts.
  destruct net as [|n [|[root|]]]; try by apply (ring_ok_same st).
  match goal with |- context [alert_loop ?a ?qs ?st1] =>
    pose proof (alert_loop_ring_ok a qs st1) as Hloop;
    destruct (alert_loop a qs st1) as [st2 out] end.
  cbn [fst] in *. apply Hloop. apply (ring_ok_same st); [..|done];
    unfold sort_quakes; cbn [g_alerted_ids g_alerted_ids_count set_quakes].
  - by destruct (scan_features_other_fields min_magnitude time
                   (json_array_elements (json_object_get (Some root) "features"))
                   (set_quakes (g_quakes st) 0 st)) as (-> & _).
  - by destruct (scan_features_other_fields min_magnitude time
                   (json_array_elements (json_object_get (Some root) "features"))
                   (set_quakes (g_quakes st) 0 st)) as (_ & -> & _).
Qed.

End RunInvariants.

(** X5.  In every state that [main] reaches, whatever the arguments and the
    feeds, the ring holds at most 50 identifiers and none of them twice. *)
Theorem main_ring_no_duplicates `{Qsort} (atof : string → fp) (float_of_double : fp → fp)
    (argv : list string) (inputs : list cycle_input) :
  let st := (main atof float_of_double argv inputs).1 in
  NoDup (ring st) ∧ (length (ring st) ≤ 50)%nat.
Proof.
  intros st.
  assert (ring_ok st) as [Hwf Hnd].
  { subst st. apply (main_invariant ring_ok).
    - split; [split; [reflexivity|unfold MAX_ALERTED_IDS; simpl; lia]|]. constructor.
    - intros lat lon st. by apply ring_ok_same.
    - intros m a net time st _. apply fetch_seismic_data_ring_ok.
    - intros net st. apply ring_ok_same; apply fetch_lightning_data_keeps.
    - intros m now st.
      destruct (render_display_lightning m now st) as (-> & _).
      apply ring_ok_same; unfold render_lightning; by repeat case_match. }
  split; [done|]. by apply ring_length.
Qed.

(** ** Strings stay within their buffers *)

Section Buffers.

Context `{Qsort}.

Lemma strncpy_length (src : string) (n : nat) :
  (String.length (strncpy src n) ≤ n)%nat.
Proof. apply length_substring_le. Qed.

Lemma fill_slot_bounded (now : Z) (value : json_t) (old : Earthquake) :
  bounded_quake old → bounded_quake (fill_slot now value old).
Proof.
  intros (Hp & _ & Hi). unfold bounded_quake, fill_slot. cbn [place time_ago id].
  split; [|split].
  - case_match; [|done].
    pose proof (strncpy_length s (PLACE_SIZE - 1)). unfold PLACE_SIZE in *. lia.
  - rewrite format_time_ago_snprintf.
    pose proof (snprintf_length (time_ago old) TIME_AGO_SIZE
                  (relative_age now (json_integer_value
                     (json_object_get (json_object_get (Some value) "properties") "time")))).
    unfold TIME_AGO_SIZE in *. lia.
  - case_match; [|done].
    pose proof (strncpy_length s (ID_SIZE - 1)). unfold ID_SIZE in *. lia.
Qed.

Lemma zero_quake_bounded : bounded_quake zero_quake.
Proof. unfold bounded_quake, PLACE_SIZE, TIME_AGO_SIZE, ID_SIZE. simpl. lia. Qed.

Lemma quake_at_bounded (st : state) (k : nat) :
  Forall bounded_quake (g_quakes st) → bounded_quake (quake_at st k).
Proof.
  intros Hall. unfold quake_at.
  destruct (g_quakes st !! k) as [q|] eqn:Hq; [|apply zero_quake_bounded].
  eapply Forall_lookup_1; eauto.
Qed.

Lemma stored_bounded (time : nat → Z) (st : state) (sel : list json_t) :
  Forall bounded_quake (g_quakes st) → Forall bounded_quake (stored time st sel).
Proof.
  intros Hall. apply Forall_lookup. intros k q Hk.
  unfold stored, stored_from in Hk. rewrite list_lookup_imap in Hk.
  destruct (sel !! k) as [v|]; [|done]. injection Hk as <-.
  by apply fill_slot_bounded, quake_at_bounded.
Qed.

Lemma shift_ids_bounded (ids : list string) :
  Forall bounded_id ids → Forall bounded_id (shift_ids ids).
Proof.
  unfold shift_ids. generalize (seq 0 (MAX_ALERTED_IDS - 1)).
  intros ks. revert ids. induction ks as [|k ks IH]; intros ids Hids; [done|].
  cbn [foldl]. apply IH. apply Forall_insert; [done|].
  unfold alerted_id_at. destruct (ids !! S k) as [x|] eqn:Hx.
  - eapply Forall_lookup_1; eauto.
  - unfold bounded_id. simpl. lia.
Qed.

Lemma alert_loop_bounded (alert_threshold : fp) (qs : list Earthquake) (st : state) :
  Forall bounded_quake qs →
  Forall bounded_id (g_alerted_ids st) →
  Forall bounded_id (g_alerted_ids (alert_loop alert_threshold qs st).1).
Proof.
  revert st; induction qs as [|q qs IH]; intros st Hqs Hids; cbn [alert_loop]; [done|].
  apply Forall_cons in Hqs as [(_ & _ & Hq) Hqs].
  assert (Forall bounded_id (g_alerted_ids (alert_quake alert_threshold q st).1)) as H1.
  { unfold alert_quake, remember_id.
    repeat case_match; cbn [fst g_alerted_ids set_alerted]; try done;
      apply Forall_insert; try done; by apply shift_ids_bounded. }
  destruct (alert_quake alert_threshold q st) as [st1 out1]. cbn [fst] in H1.
  specialize (IH st1 Hqs H1).
  by destruct (alert_loop alert_threshold qs st1) as [st2 out2].
Qed.

Lemma fetch_seismic_data_bounded (min_magnitude alert_threshold : fp) (net : transfer)
    (time : nat → Z) (st : state) :
  wf_state st → bounded_state st →
  bounded_state (fetch_seismic_data min_magnitude alert_threshold net time st).1.
Proof.
  intros (Hlen & _) [Hq Hids].
  destruct (loaded net) as [root|] eqn:Hroot;
    [|by rewrite fetch_seismic_data_no_body by done].
  rewrite (fetch_seismic_data_loaded _ _ _ root) by done. cbn [fst].
  set (sel := retained min_magnitude (feed_features root)).
  set (sorted := qsort (stored time st sel) compare_quakes).
  assert (Forall bounded_quake sorted) as Hsorted.
  { subst sorted. rewrite qsort_permutation. by apply stored_bounded. }
  set (st1 := set_quakes _ _ st).
  pose proof (alert_loop_frame alert_threshold sorted st1) as (Hq' & _).
  split.
  - rewrite Hq'. subst st1. cbn [g_quakes set_quakes].
    apply Forall_app. split; [done|]. by apply Forall_drop.
  - by apply alert_loop_bounded.
Qed.

End Buffers.

(** X6.  No string ever outgrows its buffer.  In every state that [main]
    reaches, each record of the quake array has a place of at most 255
    characters, an age label of at most 19 and an identifier of at most 63,
    and each slot of the ring holds at most 63 characters: every [strcpy]
    into a 64-byte ring slot stays within the slot. *)
Theorem main_buffers_bounded `{Qsort} (atof : string → fp) (float_of_double : fp → fp)
    (argv : list string) (inputs : list cycle_input) :
  let st := (main atof float_of_double argv inputs).1 in
  Forall (λ q, (String.length (place q) ≤ 255)%nat
               ∧ (String.length (time_ago q) ≤ 19)%nat
               ∧ (String.length (id q) ≤ 63)%nat) (g_quakes st)
  ∧ Forall (λ s, (String.length s ≤ 63)%nat) (g_alerted_ids st).
Proof.
  intros st.
  assert (bounded_state st) as [Hq Hids].
  { subst st. apply (main_invariant bounded_state).
    - split; apply Forall_replicate; [apply zero_quake_bounded|].
      unfold bounded_id. simpl. lia.
    - by intros lat lon st.
    - intros m a net time st. apply fetch_seismic_data_bounded.
    - intros net st Hb. unfold bounded_state.
      by destruct (fetch_lightning_data_keeps net st) as (-> & _ & -> & _).
    - intros m now st Hb.
      destruct (render_display_lightning m now st) as (-> & _).
      unfold render_lightning. by repeat case_match. }
  split.
  - eapply Forall_impl; [exact Hq|].
    intros q (Hp & Ht & Hi). unfold PLACE_SIZE, TIME_AGO_SIZE, ID_SIZE in *. lia.
  - eapply Forall_impl; [exact Hids|]. intros s Hs. unfold bounded_id in Hs. lia.
Qed.

(** ** More on fetch_seismic_data *)

Section SeismicMore.

Context `{Qsort}.

Lemma retained_app_full (min_magnitude : fp) (features more : list json_t) :
  (MAX_QUAKES ≤ length (List.filter (λ v, fge (feature_mag v) min_magnitude) features))%nat →
  retained min_magnitude (features ++ more) = retained min_magnitude features.
Proof.
  intros Hfull. unfold retained, retained_from.
  rewrite Nat.sub_0_r, List.filter_app. by apply take_app_le.
Qed.

Lemma alert_loop_bells_le (alert_threshold : fp) (qs : list Earthquake) (st : state) :
  (bells (alert_loop alert_threshold qs st).2
   ≤ length (filter (eligible alert_threshold) qs))%nat.
Proof.
  revert st; induction qs as [|q qs IH]; intros st; cbn [alert_loop]; [done|].
  assert (bells (alert_quake alert_threshold q st).2
          ≤ (if decide (eligible alert_threshold q) then 1 else 0))%nat as Hq.
  { unfold alert_quake.
    destruct (decide (eligible alert_threshold q)) as [Hel|Hel]; unfold eligible in Hel.
    - rewrite Hel. case_match; cbn; lia.
    - destruct (fge (mag q) alert_threshold); [done|]. cbn. lia. }
  destruct (alert_quake alert_threshold q st) as [st1 out1].
  specialize (IH st1).
  destruct (alert_loop alert_threshold qs st1) as [st2 out2]. cbn [fst snd] in *.
  unfold bells in *. rewrite List.filter_app, length_app, filter_cons.
  destruct (decide (eligible alert_threshold q)); cbn [length]; lia.
Qed.

End SeismicMore.

(** X7.  The cap is on the scan.  Once 200 features have passed the
    magnitude filter, what follows in the feed is ignored, whatever its
    magnitude: a feed and the same feed with more features appended leave
    the same state and ring the same bells. *)
Theorem fetch_seismic_data_cap `{Qsort} (min_magnitude alert_threshold : fp)
    (root root' : json_t) (more : list json_t) (time : nat → Z) (st : state) :
  length (g_quakes st) = MAX_QUAKES →
  feed_features root' = feed_features root ++ more →
  (200 ≤ length (List.filter (λ v, fge (feature_mag v) min_magnitude)
                             (feed_features root)))%nat →
  fetch_seismic_data min_magnitude alert_threshold (Body (Some root')) time st
  = fetch_seismic_data min_magnitude alert_threshold (Body (Some root)) time st.
Proof.
  intros Hlen Hmore Hfull.
  rewrite !fetch_seismic_data_body by done.
  by rewrite Hmore, retained_app_full.
Qed.

Lemma fetch_seismic_data_cap_witness :
  fetch_seismic_data (3 # 1) (6 # 1)
    (Body (Some (feed (numbered_features 200
                       ++ [feature (9 # 1) "Sumatra" "big" 1699999970000]))))
    (λ _, 1700000000) initial_state
  = fetch_seismic_data (3 # 1) (6 # 1)
      (Body (Some (feed (numbered_features 200))))
      (λ _, 1700000000) initial_state.
Proof.
  apply (fetch_seismic_data_cap (3 # 1) (6 # 1) (feed (numbered_features 200))
           (feed (numbered_features 200
                  ++ [feature (9 # 1) "Sumatra" "big" 1699999970000]))
           [feature (9 # 1) "Sumatra" "big" 1699999970000]).
  - reflexivity.
  - reflexivity.
  - vm_compute. lia.
Defined.

(** X8.  Only displayed quakes ring.  After every fetch the bells of the
    fetch are at most as many as the quakes of the ranked list whose
    magnitude reaches the alert threshold, hence at most 200; a feature
    that the magnitude filter drops never rings. *)
Theorem fetch_seismic_data_bells_bound `{Qsort} (min_magnitude alert_threshold : fp)
    (net : transfer) (time : nat → Z) (st : state) :
  length (g_quakes st) = MAX_QUAKES →
  let res := fetch_seismic_data min_magnitude alert_threshold net time st in
  (bells res.2 ≤ length (filter (eligible alert_threshold) (ranked res.1)))%nat
  ∧ (length (filter (eligible alert_threshold) (ranked res.1)) ≤ 200)%nat.
Proof.
  intros Hlen res.
  assert (length (ranked res.1) ≤ 200)%nat as Hranked.
  { subst res. destruct (loaded net) as [root|] eqn:Hroot;
      [|rewrite fetch_seismic_data_no_body by done; unfold ranked; simpl; lia].
    destruct (ranked_after_loaded min_magnitude alert_threshold net root time st Hlen Hroot)
      as (-> & _).
    rewrite qsort_length, stored_length. apply retained_length. }
  split; [|by rewrite length_filter].
  subst res. destruct (loaded net) as [root|] eqn:Hroot.
  - destruct (ranked_after_loaded min_magnitude alert_threshold net root time st Hlen Hroot)
      as (-> & _).
    rewrite (fetch_seismic_data_loaded _ _ _ root) by done. cbn [snd].
    rewrite bells_app, callback_output_bells. apply alert_loop_bells_le.
  - rewrite fetch_seismic_data_no_body by done. cbn [fst snd].
    rewrite callback_output_bells. lia.
Qed.

Lemma fetch_seismic_data_bells_bound_witness :
  let res := fetch_seismic_data (3 # 1) (6 # 1) (Body (Some example_feed))
               (λ _, 1700000000) initial_state in
  (bells res.2 ≤ length (filter (eligible (6 # 1)) (ranked res.1)))%nat
  ∧ (length (filter (eligible (6 # 1)) (ranked res.1)) ≤ 200)%nat.
Proof.
  apply (fetch_seismic_data_bells_bound (3 # 1) (6 # 1) (Body (Some example_feed))
           (λ _, 1700000000) initial_state).
  reflexivity.
Defined.

(** ** More on render_display *)

Section RenderMore.

Lemma quake_color_tiers (q : Earthquake) :
  (quake_color q = COLOR_RED ↔ (6 # 1 <= mag q)%Q)
  ∧ (quake_color q = COLOR_YELLOW ↔ (4 # 1 <= mag q)%Q ∧ (mag q < 6 # 1)%Q)
  ∧ (quake_color q = COLOR_GREEN ↔ (mag q < 4 # 1)%Q).
Proof.
  unfold quake_color.
  assert (∀ x y : Q, (x < y)%Q → (y <= x)%Q → False) as Hno
    by (intros x y; apply Qlt_not_le).
  destruct (fge (mag q) (6 # 1)) eqn:H6.
  - apply fge_spec in H6.
    assert (4 # 1 <= mag q)%Q as H4 by (eapply Qle_trans; [|exact H6]; done).
    split; [done|]. split; split; try done.
    + intros [_ Hlt]. exfalso. exact (Hno _ _ Hlt H6).
    + intros Hlt. exfalso. exact (Hno _ _ Hlt H4).
  - assert (mag q < 6 # 1)%Q as Hlt6.
    { apply Qnot_le_lt. rewrite <- fge_spec. congruence. }
    destruct (fge (mag q) (4 # 1)) eqn:H4.
    + apply fge_spec in H4. split; [split; [done|]|split; split; try done].
      * intros Hge. exfalso. exact (Hno _ _ Hlt6 Hge).
      * intros Hlt. exfalso. exact (Hno _ _ Hlt H4).
    + assert (mag q < 4 # 1)%Q as Hlt4.
      { apply Qnot_le_lt. rewrite <- fge_spec. congruence. }
      split; [split; [done|]|split; split; try done].
      * intros Hge. exfalso. exact (Hno _ _ Hlt6 Hge).
      * intros [Hge _]. exfalso. exact (Hno _ _ Hlt4 Hge).
Qed.

(** A weaker quake never has a stronger colour. *)
Lemma quake_color_monotone (a b : Earthquake) :
  (mag b <= mag a)%Q → (tier (quake_color a) ≤ tier (quake_color b))%nat.
Proof.
  intros Hle.
  assert (∀ x y : Q, (x < y)%Q → (y <= x)%Q → False) as Hno
    by (intros x y; apply Qlt_not_le).
  destruct (quake_color a) eqn:Ha, (quake_color b) eqn:Hb; cbn; try lia; exfalso.
  - apply (proj1 (proj1 (proj2 (quake_color_tiers a)))) in Ha as [_ Ha].
    apply (proj1 (proj1 (quake_color_tiers b))) in Hb.
    apply (Hno _ _ Ha). by eapply Qle_trans.
  - apply (proj1 (proj2 (proj2 (quake_color_tiers a)))) in Ha.
    apply (proj1 (proj1 (quake_color_tiers b))) in Hb.
    apply (Hno _ _ Ha). eapply Qle_trans; [|exact Hle].
    eapply Qle_trans; [|exact Hb]. done.
  - apply (proj1 (proj2 (proj2 (quake_color_tiers a)))) in Ha.
    apply (proj1 (proj1 (proj2 (quake_color_tiers b)))) in Hb as [Hb _].
    apply (Hno _ _ Ha). by eapply Qle_trans.
Qed.

End RenderMore.

(** ** The display of a cycle *)

Section CycleDisplay.

Context `{Qsort}.

Lemma fetch_seismic_data_descending (min_magnitude alert_threshold : fp) (net : transfer)
    (time : nat → Z) (st : state) :
  length (g_quakes st) = MAX_QUAKES →
  let st' := (fetch_seismic_data min_magnitude alert_threshold net time st).1 in
  descending (ranked st') ∧ (length (ranked st') ≤ MAX_QUAKES)%nat.
Proof.
  intros Hlen st'. subst st'. destruct (loaded net) as [root|] eqn:Hroot;
    [|rewrite fetch_seismic_data_no_body by done; unfold ranked; simpl;
      split; [constructor|lia]].
  destruct (ranked_after_loaded min_magnitude alert_threshold net root time st Hlen Hroot)
    as (-> & _).
  split; [apply qsort_descending|].
  rewrite qsort_length, stored_length. apply retained_length.
Qed.

Lemma StronglySorted_fmap {A B : Type} (R : A → A → Prop) (R' : B → B → Prop)
    (f : A → B) (l : list A) :
  (∀ a b, R a b → R' (f a) (f b)) → StronglySorted R l → StronglySorted R' (f <$> l).
Proof.
  intros HR. induction 1 as [|a l Hl IH Ha]; cbn; constructor; [done|].
  apply Forall_fmap. eapply Forall_impl; [exact Ha|]. intros b. apply HR.
Qed.

End CycleDisplay.

(** X9.  The display of a cycle lists the ranked quakes, each once and in
    order, with the colour of its magnitude: red from 6.0, yellow from 4.0,
    green below.  There are at most 200 lines, and since the list is sorted
    no yellow or green line comes before a red one and no green line before
    a yellow one. *)
Theorem cycle_display_sorted `{Qsort} (min_magnitude alert_threshold : fp)
    (inp : cycle_input) (st : state) :
  length (g_quakes st) = MAX_QUAKES →
  let res := cycle min_magnitude alert_threshold inp st in
  quake_lines res.2 = (λ q, (quake_color q, q)) <$> ranked res.1
  ∧ (length (quake_lines res.2) ≤ 200)%nat
  ∧ StronglySorted (λ x y, (tier x.1 ≤ tier y.1)%nat) (quake_lines res.2)
  ∧ Forall (λ x, (x.1 = COLOR_RED ↔ (6 # 1 <= mag x.2)%Q)
                 ∧ (x.1 = COLOR_YELLOW ↔ (4 # 1 <= mag x.2)%Q ∧ (mag x.2 < 6 # 1)%Q)
                 ∧ (x.1 = COLOR_GREEN ↔ (mag x.2 < 4 # 1)%Q))
           (quake_lines res.2).
Proof.
  intros Hlen res. subst res. rewrite cycle_steps. cbn [fst snd].
  destruct (fetch_seismic_data_descending min_magnitude alert_threshold
              (seismic_transfer inp) (seismic_clock inp) st Hlen) as [Hdesc Hcount].
  destruct (quiet_shows_nothing _
              (fetch_seismic_data_quiet min_magnitude alert_threshold
                 (seismic_transfer inp) (seismic_clock inp) st)) as [_ Hquiet1].
  destruct (fetch_seismic_data _ _ _ _ st) as [st1 out1]. cbn [fst snd] in *.
  destruct (quiet_shows_nothing _
              (fetch_lightning_data_quiet (lightning_transfer inp) st1)) as [_ Hquiet2].
  destruct (fetch_lightning_data_keeps (lightning_transfer inp) st1) as (Hq2 & Hc2 & _).
  destruct (fetch_lightning_data _ st1) as [st2 out2]. cbn [fst snd] in *.
  assert (ranked st2 = ranked st1) as Hranked2
    by (unfold ranked; by rewrite Hq2, Hc2).
  pose proof (render_display_quake_lines min_magnitude (render_clock inp) st2) as Hlines.
  pose proof (render_display_same_but_flag min_magnitude (render_clock inp) st2)
    as (Hq3 & Hc3 & _).
  destruct (render_display min_magnitude (render_clock inp) st2) as [st3 out3].
  cbn [fst snd] in *.
  assert (ranked st3 = ranked st1) as Hranked3
    by (unfold ranked in *; by rewrite Hq3, Hc3, Hq2, Hc2).
  assert (quake_lines (out1 ++ out2 ++ out3 ++ [PrintWaiting])
          = (λ q, (quake_color q, q)) <$> ranked st1) as ->.
  { rewrite !quake_lines_app, Hquiet1, Hquiet2, Hlines, Hranked2.
    cbn. by rewrite app_nil_r. }
  rewrite Hranked3. split; [done|]. split; [|split].
  - rewrite length_fmap. unfold MAX_QUAKES in Hcount. lia.
  - eapply StronglySorted_fmap; [|exact Hdesc].
    intros a b Hab. cbn. by apply quake_color_monotone.
  - apply Forall_fmap, Forall_forall. intros q _. cbn. apply quake_color_tiers.
Qed.

Lemma cycle_display_sorted_witness :
  quake_lines (cycle (3 # 1) (6 # 1)
                 (mkCycleInput (Body (Some example_feed)) (λ _, 1700000000)
                               TransferFailed 1700000001) initial_state).2
  = [(COLOR_RED, mkEarthquake (61 # 10) "Chile" "16m ago" "us3");
     (COLOR_YELLOW, mkEarthquake (45 # 10) "Tonga" "30s ago" "us1")].
Proof.
  destruct (cycle_display_sorted (3 # 1) (6 # 1)
              (mkCycleInput (Body (Some example_feed)) (λ _, 1700000000)
                            TransferFailed 1700000001) initial_state) as (Hlines & _).
  - reflexivity.
  - rewrite Hlines. vm_compute. reflexivity.
Defined.

(** ** The lightning status over time *)

Section StatusOverTime.

Context `{Qsort}.

(** A render by cases on the warning condition and on the flag. *)
Lemma render_lightning_cases (st : state) :
  let res := render_lightning st in
  (storm_code (g_weather_code st) ∧ g_is_storm_active st = 0
   ∧ bells res.2 = 1%nat ∧ g_is_storm_active res.1 = 1)
  ∨ (storm_code (g_weather_code st) ∧ g_is_storm_active st ≠ 0
     ∧ bells res.2 = 0%nat ∧ g_is_storm_active res.1 = g_is_storm_active st)
  ∨ (¬ storm_code (g_weather_code st)
     ∧ bells res.2 = 0%nat ∧ g_is_storm_active res.1 = 0).
Proof.
  unfold render_lightning. rewrite <- is_warning_spec.
  destruct (is_warning st).
  - destruct (Z.eqb_spec (g_is_storm_active st) 0); [left|right; left]; done.
  - right; right. destruct (is_watch st); done.
Qed.

Lemma render_display_cases (min_magnitude : fp) (now : Z) (st : state) :
  let res := render_display min_magnitude now st in
  (storm_code (g_weather_code st) ∧ g_is_storm_active st = 0
   ∧ bells res.2 = 1%nat ∧ g_is_storm_active res.1 = 1)
  ∨ (storm_code (g_weather_code st) ∧ g_is_storm_active st ≠ 0
     ∧ bells res.2 = 0%nat ∧ g_is_storm_active res.1 = g_is_storm_active st)
  ∨ (¬ storm_code (g_weather_code st)
     ∧ bells res.2 = 0%nat ∧ g_is_storm_active res.1 = 0).
Proof.
  cbv zeta.
  destruct (render_display_lightning min_magnitude now st) as (-> & _ & ->).
  apply render_lightning_cases.
Qed.

Lemma state_eq_by_fields (st st' : state) :
  same_but_flag st st' → g_is_storm_active st' = g_is_storm_active st → st' = st.
Proof.
  destruct st, st'. unfold same_but_flag. cbn.
  intros (-> & -> & -> & -> & -> & -> & -> & ->) ->. done.
Qed.

End StatusOverTime.

(** X10.  A render changes nothing but the storm-active flag and rings at
    most one bell.  Rendering again at once rings no bell, shows the same
    banner and leaves the state as the first render left it. *)
Theorem render_display_twice (min_magnitude min_magnitude' : fp) (now now' : Z)
    (st : state) :
  let r1 := render_display min_magnitude now st in
  let r2 := render_display min_magnitude' now' r1.1 in
  same_but_flag st r1.1
  ∧ (bells r1.2 ≤ 1)%nat
  ∧ r2.1 = r1.1
  ∧ bells r2.2 = 0%nat
  ∧ banners r2.2 = banners r1.2.
Proof.
  intros r1 r2.
  pose proof (render_display_same_but_flag min_magnitude now st) as Hsame1.
  pose proof (render_display_same_but_flag min_magnitude' now' r1.1) as Hsame2.
  fold r1 in Hsame1. fold r2 in Hsame2.
  assert (g_weather_code r1.1 = g_weather_code st) as Hcode by apply Hsame1.
  assert (g_hourly_weather_codes r1.1 = g_hourly_weather_codes st) as Hhourly
    by apply Hsame1.
  pose proof (render_display_cases min_magnitude now st) as H1.
  pose proof (render_display_cases min_magnitude' now' r1.1) as H2.
  fold r1 in H1. fold r2 in H2. cbv zeta in H1, H2. rewrite Hcode in H2.
  assert (banners r2.2 = banners r1.2) as Hbanners.
  { subst r2 r1.
    destruct (render_display_lightning min_magnitude' now'
                (render_display min_magnitude now st).1) as (_ & -> & _).
    destruct (render_display_lightning min_magnitude now st) as (Hst & -> & _).
    rewrite Hst. unfold render_lightning at 1 3.
    assert (∀ s, g_weather_code s = g_weather_code st →
                 g_hourly_weather_codes s = g_hourly_weather_codes st →
                 is_warning s = is_warning st ∧ is_watch s = is_watch st) as Hsame.
    { intros s Hc Hh. unfold is_warning, is_watch, hourly_at. by rewrite Hc, Hh. }
    destruct (Hsame (render_lightning st).1) as [-> ->].
    { rewrite <- Hst. apply Hsame1. }
    { rewrite <- Hst. apply Hsame1. }
    by repeat case_match. }
  split; [exact Hsame1|].
  destruct H1 as [(Hs & Hf & Hb & Hf')|[(Hs & Hf & Hb & Hf')|(Hs & Hb & Hf')]];
    destruct H2 as [(Hs2 & Hf2 & Hb2 & Hf2')|[(Hs2 & Hf2 & Hb2 & Hf2')|(Hs2 & Hb2 & Hf2')]];
    try done; try lia;
    (split; [lia|]; split; [|by split]; apply state_eq_by_fields; [done|]; lia).
Qed.

(** X11.  The storm bell rings on a rising edge only.  With the flag 0 or 1,
    which is all it ever is, the render of a cycle rings exactly when the
    current code of that cycle is a thunderstorm code and the one of the
    cycle before was not; afterwards the flag is 1 exactly when the current
    code is a thunderstorm code. *)
Theorem storm_bell_rising_edge `{Qsort} (min_magnitude alert_threshold : fp)
    (now1 now2 : Z) (seismic lightning : transfer) (time : nat → Z) (st : state) :
  flag_is_boolean st →
  let r1 := render_display min_magnitude now1 st in
  let st2 := (fetch_lightning_data lightning
                (fetch_seismic_data min_magnitude alert_threshold seismic time r1.1).1).1 in
  let r2 := render_display min_magnitude now2 st2 in
  (bells r2.2 = 1%nat ↔ storm_code (g_weather_code st2) ∧ ¬ storm_code (g_weather_code st))
  ∧ (bells r2.2 ≤ 1)%nat
  ∧ (g_is_storm_active r2.1 = 1 ↔ storm_code (g_weather_code st2))
  ∧ flag_is_boolean r2.1.
Proof.
  intros Hflag r1 st2 r2.
  assert (g_is_storm_active st2 = g_is_storm_active r1.1) as Hkeep.
  { subst st2.
    destruct (fetch_lightning_data_keeps lightning
                (fetch_seismic_data min_magnitude alert_threshold seismic time r1.1).1)
      as (_ & _ & _ & _ & -> & _).
    apply fetch_seismic_data_keeps. }
  pose proof (render_display_cases min_magnitude now1 st) as H1.
  pose proof (render_display_cases min_magnitude now2 st2) as H2.
  fold r1 in H1. fold r2 in H2. cbv zeta in H1, H2. rewrite Hkeep in H2.
  unfold flag_is_boolean in *.
  destruct H1 as [(Hs & Hf & Hb & Hf')|[(Hs & Hf & Hb & Hf')|(Hs & Hb & Hf')]];
    destruct H2 as [(Hs2 & Hf2 & Hb2 & Hf2')|[(Hs2 & Hf2 & Hb2 & Hf2')|(Hs2 & Hb2 & Hf2')]];
    rewrite ?Hb2, ?Hf2'; repeat split; try tauto; try lia.
Qed.

Lemma storm_bell_rising_edge_witness :
  let st := set_weather 3 (replicate 6 0) initial_state in
  let r1 := render_display 0 1700000000 st in
  let st2 := (fetch_lightning_data (Body (Some (forecast 96 [])))
                (fetch_seismic_data 0 (6 # 1) TransferFailed (λ _, 1700000120) r1.1).1).1 in
  let r2 := render_display 0 1700000120 st2 in
  (bells r2.2 ≤ 1)%nat ∧ flag_is_boolean r2.1.
Proof.
  intros st r1 st2 r2.
  destruct (storm_bell_rising_edge 0 (6 # 1) 1700000000 1700000120
              TransferFailed (Body (Some (forecast 96 []))) (λ _, 1700000120) st)
    as (_ & Hle & _ & Hbool).
  - left. reflexivity.
  - split; [exact Hle|exact Hbool].
Defined.

(** X12.  The current hour of the forecast does not count for the watch:
    whatever is stored in [g_hourly_weather_codes[0]], a render shows the
    same banner, rings the same bells and leaves the same flag. *)
Theorem render_display_ignores_hour_0 (min_magnitude : fp) (now : Z) (code : Z)
    (st : state) :
  let st' := set_weather (g_weather_code st)
               (<[0%nat := code]> (g_hourly_weather_codes st)) st in
  banners (render_display min_magnitude now st').2
  = banners (render_display min_magnitude now st).2
  ∧ bells (render_display min_magnitude now st').2
    = bells (render_display min_magnitude now st).2
  ∧ g_is_storm_active (render_display min_magnitude now st').1
    = g_is_storm_active (render_display min_magnitude now st).1.
Proof.
  intros st'.
  destruct (render_display_lightning min_magnitude now st') as (-> & -> & ->).
  destruct (render_display_lightning min_magnitude now st) as (-> & -> & ->).
  assert (is_watch st' = is_watch st) as Hwatch.
  { assert (∀ i, i ≠ 0%nat → hourly_at st' i = hourly_at st i) as Hh.
    { intros i Hi. unfold hourly_at. subst st'.
      cbn [g_hourly_weather_codes set_weather].
      by rewrite list_lookup_insert_ne by lia. }
    unfold is_watch. cbn [seq existsb]. by rewrite !Hh by lia. }
  unfold render_lightning. rewrite Hwatch.
  change (is_warning st') with (is_warning st).
  change (g_is_storm_active st') with (g_is_storm_active st).
  by repeat case_match.
Qed.

(** X13.  A lightning refresh replaces the weather snapshot and nothing
    else: the codes after it do not depend on the codes before it, there are
    six hourly codes, every code fits an [int], and the quake list, the
    ring, the flag and the location are as before. *)
Theorem fetch_lightning_data_replaces (net : transfer) (st other : state) :
  let st' := (fetch_lightning_data net st).1 in
  g_weather_code st' = g_weather_code (fetch_lightning_data net other).1
  ∧ g_hourly_weather_codes st' = g_hourly_weather_codes (fetch_lightning_data net other).1
  ∧ length (g_hourly_weather_codes st') = 6%nat
  ∧ fits_int (g_weather_code st')
  ∧ Forall fits_int (g_hourly_weather_codes st')
  ∧ (g_quakes st' = g_quakes st
     ∧ g_quake_count st' = g_quake_count st
     ∧ g_alerted_ids st' = g_alerted_ids st
     ∧ g_alerted_ids_count st' = g_alerted_ids_count st
     ∧ g_is_storm_active st' = g_is_storm_active st
     ∧ g_latitude st' = g_latitude st
     ∧ g_longitude st' = g_longitude st).
Proof.
  intros st'. subst st'.
  assert (fits_int 0) as Hzero by (unfold fits_int; lia).
  split; [by destruct net as [|n [|[root|]]]|].
  split; [by destruct net as [|n [|[root|]]]|].
  split; [|split; [|split; [|apply fetch_lightning_data_keeps]]];
    (destruct (loaded net) as [root|] eqn:Hroot;
     [destruct (fetch_lightning_data_loaded net root st Hroot) as (Hcode & Hlen & Hhourly)
     |rewrite fetch_lightning_data_no_body by done; cbn [fst]]).
  - exact Hlen.
  - done.
  - rewrite Hcode. apply int_of_long_long_range.
  - exact Hzero.
  - apply Forall_lookup. intros i code Hi.
    pose proof (lookup_lt_Some _ _ _ Hi) as Hlt. rewrite Hlen in Hlt.
    rewrite Hhourly in Hi by done. injection Hi as <-. apply int_of_long_long_range.
  - by apply Forall_replicate.
Qed.

(** X14.  A failed refresh reads as clear weather.  After a lightning
    refresh whose transfer fails or whose body does not parse, the render
    shows the all-clear banner, rings no bell and clears the storm-active
    flag, whatever the weather and the flag were before. *)
Theorem lightning_failure_shows_all_clear (min_magnitude : fp) (now : Z)
    (net : transfer) (st : state) :
  loaded net = None →
  let res := render_display min_magnitude now (fetch_lightning_data net st).1 in
  banners res.2 = [AllClear] ∧ bells res.2 = 0%nat ∧ g_is_storm_active res.1 = 0.
Proof.
  intros Hnet res. subst res.
  destruct (render_display_lightning min_magnitude now (fetch_lightning_data net st).1)
    as (-> & -> & ->).
  by rewrite fetch_lightning_data_no_body.
Qed.

Lemma lightning_failure_shows_all_clear_witness :
  let st := set_storm_active 1 (set_weather 95 [95; 95; 95; 95; 95; 95] initial_state) in
  let res := render_display 0 1700000000 (fetch_lightning_data TransferFailed st).1 in
  banners res.2 = [AllClear] ∧ bells res.2 = 0%nat ∧ g_is_storm_active res.1 = 0.
Proof.
  apply (lightning_failure_shows_all_clear 0 1700000000 TransferFailed).
  reflexivity.
Defined.

(** ** More on argument parsing *)

Section ArgumentsMore.

Variables (atof : string → fp) (float_of_double : fp → fp).

(** Induction over the argument loop: what holds of the settings at the
    start and is kept by the three flags holds at the end; what holds of
    the output of the rest and is kept by an unknown-argument line holds of
    the output. *)
Lemma parse_args_induction (P : list string → settings → settings * list event → Prop) :
  (∀ s, P [] s (s, [])) →
  (∀ x rest s,
      let m := parse_min_magnitude atof float_of_double x in
      P rest (mkSettings m m (monitor s))
        (parse_args atof float_of_double rest (mkSettings m m (monitor s))) →
      P ("-q" :: x :: rest) s
        (parse_args atof float_of_double rest (mkSettings m m (monitor s)))) →
  (∀ x y rest s,
      let s' := mkSettings (min_magnitude s) (alert_threshold s)
                  (set_location (float_of_double (atof x))
                                (float_of_double (atof y)) (monitor s)) in
      P rest s' (parse_args atof float_of_double rest s') →
      P ("-l" :: x :: y :: rest) s (parse_args atof float_of_double rest s')) →
  (∀ rest s,
      let s' := mkSettings (min_magnitude s) 0 (monitor s) in
      P rest s' (parse_args atof float_of_double rest s') →
      P ("test" :: rest) s (parse_args atof float_of_double rest s')) →
  (∀ a rest s,
      a ≠ "test" → (a = "-q" → rest = []) → (a = "-l" → (length rest < 2)%nat) →
      P rest s (parse_args atof float_of_double rest s) →
      P (a :: rest) s
        ((parse_args atof float_of_double rest s).1,
         PrintUnknownArgument a :: (parse_args atof float_of_double rest s).2)) →
  ∀ args s, P args s (parse_args atof float_of_double args s).
Proof.
  intros Hnil Hq Hl Htest Hunknown.
  assert (∀ n args s, (length args ≤ n)%nat →
            P args s (parse_args atof float_of_double args s)) as Hn.
  { induction n as [|n IH]; intros [|a rest] s Hlen; try apply Hnil;
      cbn [length] in Hlen; [lia|].
    cbn [parse_args]. unfold streq.
    assert (P (a :: rest) s
              (if String.eqb a "test"
               then parse_args atof float_of_double rest
                      (mkSettings (min_magnitude s) 0 (monitor s))
               else let '(s', out) := parse_args atof float_of_double rest s in
                    (s', PrintUnknownArgument a :: out)) ∨ a = "-q" ∧ rest ≠ []
            ∨ a = "-l" ∧ (2 ≤ length rest)%nat) as Hother.
    { destruct (String.eqb_spec a "test") as [->|Htest'].
      { left. apply Htest, IH. lia. }
      destruct (String.eqb_spec a "-q") as [->|Hnq].
      { destruct rest as [|x rest]; [|right; left; done].
        left. specialize (Hunknown "-q" [] s).
        cbn [parse_args fst snd] in Hunknown. apply Hunknown; try done; apply Hnil. }
      destruct (String.eqb_spec a "-l") as [->|Hnl].
      { destruct (decide (length rest < 2)%nat) as [Hshort|Hlong];
          [|right; right; split; [done|lia]].
        left. specialize (Hunknown "-l" rest s).
        destruct (parse_args atof float_of_double rest s) as [s' out] eqn:Hrest.
        cbn [fst snd] in Hunknown. apply Hunknown; try done.
        rewrite <- Hrest. apply IH. lia. }
      left. specialize (Hunknown a rest s).
      destruct (parse_args atof float_of_double rest s) as [s' out] eqn:Hrest.
      cbn [fst snd] in Hunknown. apply Hunknown; try done.
      rewrite <- Hrest. apply IH. lia. }
    destruct (String.eqb_spec a "-q") as [->|Hnq].
    - destruct rest as [|x rest].
      + destruct Hother as [Ho|[[_ Ho]|[Ho _]]]; done.
      + apply Hq, IH. cbn [length] in Hlen. lia.
    - destruct (String.eqb_spec a "-l") as [->|Hnl].
      + destruct rest as [|x [|y rest]].
        * destruct Hother as [Ho|[[Ho _]|[_ Ho]]]; try done. cbn in Ho. lia.
        * destruct Hother as [Ho|[[Ho _]|[_ Ho]]]; try done. cbn in Ho. lia.
        * apply Hl, IH. cbn [length] in Hlen. lia.
      + destruct Hother as [Ho|[[Ho _]|[Ho _]]]; done. }
  intros args s. by apply (Hn (length args)).
Qed.

End ArgumentsMore.

Section ArgumentsOutput.

Variables (atof : string → fp) (float_of_double : fp → fp).

Lemma parse_args_thresholds_kept (args : list string) (s : settings) :
  thresholds_ok s → thresholds_ok (parse_args atof float_of_double args s).1.
Proof.
  apply (parse_args_induction atof float_of_double
           (λ _ s res, thresholds_ok s → thresholds_ok res.1)); clear args s.
  - done.
  - intros x rest s m IH _. apply IH. split; [|by left].
    apply parse_min_magnitude_clamped.
  - intros x y rest s s' IH Hs. by apply IH.
  - intros rest s s' IH [Hmin _]. apply IH. split; [exact Hmin|]. right; left. done.
  - intros a rest s _ _ _ IH Hs. by apply IH.
Qed.

(** With arguments none of which reads as not-a-number, thresholds that
    are at least 0 stay so. *)
Lemma parse_args_numbers_kept (args : list string) (s : settings) :
  (∀ x, x ∈ args → float_of_double (atof x) ≠ NaN) →
  fge (min_magnitude s) 0 = true ∧ fge (alert_threshold s) 0 = true →
  fge (min_magnitude (parse_args atof float_of_double args s).1) 0 = true
  ∧ fge (alert_threshold (parse_args atof float_of_double args s).1) 0 = true.
Proof.
  apply (parse_args_induction atof float_of_double
           (λ args s res,
              (∀ x, x ∈ args → float_of_double (atof x) ≠ NaN) →
              fge (min_magnitude s) 0 = true ∧ fge (alert_threshold s) 0 = true →
              fge (min_magnitude res.1) 0 = true
              ∧ fge (alert_threshold res.1) 0 = true)); clear args s.
  - done.
  - intros x rest s m IH Hnum _. apply IH.
    + intros x' Hx'. apply Hnum. by do 2 apply list_elem_of_further.
    + assert (fge m 0 = true) as Hm; [|by split].
      apply parse_min_magnitude_clamped, Hnum.
      apply list_elem_of_further, list_elem_of_here.
  - intros x y rest s s' IH Hnum Hs. apply IH; [|exact Hs].
    intros x' Hx'. apply Hnum. by do 3 apply list_elem_of_further.
  - intros rest s s' IH Hnum [Hmin _]. apply IH; [|by split].
    intros x' Hx'. apply Hnum. by apply list_elem_of_further.
  - intros a rest s _ _ _ IH Hnum Hs. apply IH; [|exact Hs].
    intros x' Hx'. apply Hnum. by apply list_elem_of_further.
Qed.

Lemma parse_args_output_unknown (args : list string) (s : settings) :
  Forall (λ e, ∃ a, a ∈ args ∧ e = PrintUnknownArgument a)
         (parse_args atof float_of_double args s).2
  ∧ (length (parse_args atof float_of_double args s).2 ≤ length args)%nat.
Proof.
  apply (parse_args_induction atof float_of_double
           (λ args _ res,
              Forall (λ e, ∃ a, a ∈ args ∧ e = PrintUnknownArgument a) res.2
              ∧ (length res.2 ≤ length args)%nat)); clear args s.
  - intros s. split; [constructor|done].
  - intros x rest s m [IH Hlen]. split; [|cbn [length]; lia].
    eapply Forall_impl; [exact IH|]. intros e (a & Ha & ->). exists a.
    split; [|done]. by do 2 apply list_elem_of_further.
  - intros x y rest s s' [IH Hlen]. split; [|cbn [length]; lia].
    eapply Forall_impl; [exact IH|]. intros e (a & Ha & ->). exists a.
    split; [|done]. by do 3 apply list_elem_of_further.
  - intros rest s s' [IH Hlen]. split; [|cbn [length]; lia].
    eapply Forall_impl; [exact IH|]. intros e (a & Ha & ->). exists a.
    split; [|done]. by apply list_elem_of_further.
  - intros a rest s _ _ _ [IH Hlen]. cbn [snd]. split; [|cbn [length]; lia].
    constructor.
    + exists a. split; [apply list_elem_of_here|done].
    + eapply Forall_impl; [exact IH|]. intros e (a' & Ha & ->). exists a'.
      split; [|done]. by apply list_elem_of_further.
Qed.

End ArgumentsOutput.

(** X15.  Whatever the arguments are, after argument parsing neither the
    display filter nor the alert threshold is below 0, and the alert
    threshold is the filter's value, or 0, or still the default 6.0 with
    the filter still 0.  When no argument reads as not-a-number, both are at
    least 0. *)
Theorem parse_args_thresholds (atof : string → fp) (float_of_double : fp → fp)
    (argv : list string) :
  let s := (parse_args atof float_of_double argv initial_settings).1 in
  flt (min_magnitude s) 0 = false
  ∧ flt (alert_threshold s) 0 = false
  ∧ (alert_threshold s = min_magnitude s
     ∨ alert_threshold s = 0%Q
     ∨ (alert_threshold s = (6 # 1)%Q ∧ min_magnitude s = 0%Q))
  ∧ ((∀ x, x ∈ argv → float_of_double (atof x) ≠ NaN) →
     fge (min_magnitude s) 0 = true ∧ fge (alert_threshold s) 0 = true).
Proof.
  intros s.
  assert (thresholds_ok s) as [Hmin Halert].
  { subst s. apply parse_args_thresholds_kept. split; [done|]. right; right. done. }
  split; [exact Hmin|]. split; [|split; [exact Halert|]].
  - destruct Halert as [->|[->|[-> _]]]; done.
  - intros Hnum. subst s. by apply parse_args_numbers_kept.
Qed.

Lemma parse_args_thresholds_witness :
  let s := (parse_args Libc.atof Libc.float_of_double ["-q"; "-2.5"; "test"]
              initial_settings).1 in
  fge (min_magnitude s) 0 = true ∧ fge (alert_threshold s) 0 = true.
Proof.
  apply (parse_args_thresholds Libc.atof Libc.float_of_double ["-q"; "-2.5"; "test"]).
  intros x Hx.
  repeat (apply elem_of_cons in Hx as [->|Hx]; [by vm_compute|]).
  by apply elem_of_nil in Hx.
Defined.

(** X16.  Arguments that are no flag are reported and skipped.  The output
    of argument parsing holds unknown-argument lines only, each for an
    argument of the command line and at most one per argument; an argument
    other than [-q], [-l] and [test] is reported and the rest is parsed as
    if it were not there; [-q] without a value and [-l] with fewer than two
    values are reported in the same way. *)
Theorem parse_args_unknown (atof : string → fp) (float_of_double : fp → fp)
    (args : list string) (s : settings) :
  let parse := parse_args atof float_of_double in
  Forall (λ e, ∃ a, a ∈ args ∧ e = PrintUnknownArgument a) (parse args s).2
  ∧ (length (parse args s).2 ≤ length args)%nat
  ∧ (∀ a, a ≠ "-q" → a ≠ "-l" → a ≠ "test" →
          parse (a :: args) s
          = ((parse args s).1, PrintUnknownArgument a :: (parse args s).2))
  ∧ parse ["-q"] s = (s, [PrintUnknownArgument "-q"])
  ∧ parse ["-l"] s = (s, [PrintUnknownArgument "-l"])
  ∧ (∀ x, parse ["-l"; x] s
          = ((parse [x] s).1, PrintUnknownArgument "-l" :: (parse [x] s).2)).
Proof.
  intros parse. subst parse.
  destruct (parse_args_output_unknown atof float_of_double args s) as [Hall Hlen].
  split; [exact Hall|]. split; [exact Hlen|]. split; [|split; [done|split; [done|]]].
  - intros a Hq Hl Ht. cbn [parse_args]. unfold streq.
    destruct (String.eqb_spec a "-q"); [done|].
    destruct (String.eqb_spec a "-l"); [done|].
    destruct (String.eqb_spec a "test"); [done|].
    by destruct (parse_args atof float_of_double args s).
  - intros x. cbn [parse_args]. unfold streq.
    change (String.eqb "-l" "-q") with false.
    change (String.eqb "-l" "-l") with true.
    change (String.eqb "-l" "test") with false. cbv iota.
    by destruct (if String.eqb x "-q" then _ else _).
Qed.

Lemma parse_args_unknown_witness :
  parse_args Libc.atof Libc.float_of_double ["--help"; "-q"; "5"] initial_settings
  = ((parse_args Libc.atof Libc.float_of_double ["-q"; "5"] initial_settings).1,
     PrintUnknownArgument "--help"
     :: (parse_args Libc.atof Libc.float_of_double ["-q"; "5"] initial_settings).2).
Proof.
  apply (parse_args_unknown Libc.atof Libc.float_of_double ["-q"; "5"]
           initial_settings); discriminate.
Defined.

(** ** The run as a whole *)

Section RunShape.

Context `{Qsort}.

(** One banner for each iteration of the loop; the location is not
    touched. *)
Lemma cycles_shape (min_magnitude alert_threshold : fp) (inputs : list cycle_input)
    (st : state) :
  let res := cycles min_magnitude alert_threshold inputs st in
  length (banners res.2) = length inputs
  ∧ g_latitude res.1 = g_latitude st
  ∧ g_longitude res.1 = g_longitude st.
Proof.
  revert st; induction inputs as [|inp inputs IH]; intros st; cbn [cycles]; [done|].
  assert (length (banners (cycle min_magnitude alert_threshold inp st).2) = 1%nat
          ∧ g_latitude (cycle min_magnitude alert_threshold inp st).1 = g_latitude st
          ∧ g_longitude (cycle min_magnitude alert_threshold inp st).1 = g_longitude st)
    as (Hb & Hlat & Hlon).
  { rewrite cycle_steps. cbn [fst snd].
    destruct (quiet_shows_nothing _
                (fetch_seismic_data_quiet min_magnitude alert_threshold
                   (seismic_transfer inp) (seismic_clock inp) st)) as [Hquiet1 _].
    pose proof (fetch_seismic_data_keeps min_magnitude alert_threshold
                  (seismic_transfer inp) (seismic_clock inp) st)
      as (_ & _ & _ & Hlat1 & Hlon1).
    destruct (fetch_seismic_data _ _ _ _ st) as [st1 out1]. cbn [fst snd] in *.
    destruct (quiet_shows_nothing _
                (fetch_lightning_data_quiet (lightning_transfer inp) st1)) as [Hquiet2 _].
    pose proof (fetch_lightning_data_keeps (lightning_transfer inp) st1)
      as (_ & _ & _ & _ & _ & Hlat2 & Hlon2).
    destruct (fetch_lightning_data _ st1) as [st2 out2]. cbn [fst snd] in *.
    pose proof (render_display_one_banner min_magnitude (render_clock inp) st2) as Hone.
    pose proof (render_display_same_but_flag min_magnitude (render_clock inp) st2)
      as (_ & _ & _ & _ & _ & _ & Hlat3 & Hlon3).
    destruct (render_display _ _ _) as [st3 out3]. cbn [fst snd] in *.
    rewrite !banners_app, Hquiet1, Hquiet2.
    change (banners [PrintWaiting]) with (@nil banner).
    rewrite app_nil_r. cbn [app]. split; [exact Hone|]. split; congruence. }
  destruct (cycle min_magnitude alert_threshold inp st) as [st1 out1].
  cbn [fst snd] in *.
  destruct (IH st1) as (IHb & IHlat & IHlon).
  destruct (cycles min_magnitude alert_threshold inputs st1) as [st2 out2].
  cbn [fst snd] in *. rewrite banners_app, length_app, Hb, IHb.
  split; [done|]. split; congruence.
Qed.

End RunShape.

(** X17.  A run of [main] shows one status banner for each iteration of its
    loop and none before; the monitor location after any number of
    iterations is the one that argument parsing left; and the storm-active
    flag is 0 or 1 throughout. *)
Theorem main_run_shape `{Qsort} (atof : string → fp) (float_of_double : fp → fp)
    (argv : list string) (inputs : list cycle_input) :
  let s := (parse_args atof float_of_double argv initial_settings).1 in
  let res := main atof float_of_double argv inputs in
  length (banners res.2) = length inputs
  ∧ g_latitude res.1 = g_latitude (monitor s)
  ∧ g_longitude res.1 = g_longitude (monitor s)
  ∧ flag_is_boolean res.1.
Proof.
  intros s res.
  assert (flag_is_boolean res.1) as Hflag.
  { subst res. apply (main_invariant flag_is_boolean).
    - by left.
    - by intros lat lon st.
    - intros m a net time st _. unfold flag_is_boolean.
      by destruct (fetch_seismic_data_keeps m a net time st) as (_ & _ & -> & _).
    - intros net st. unfold flag_is_boolean.
      by destruct (fetch_lightning_data_keeps net st) as (_ & _ & _ & _ & -> & _).
    - intros m now st Hb. unfold flag_is_boolean in *.
      destruct (render_display_cases m now st)
        as [(_ & _ & _ & ->)|[(_ & _ & _ & ->)|(_ & _ & ->)]]; tauto. }
  split; [|split; [|split; [|exact Hflag]]]; subst res s; unfold main;
    pose proof (parse_args_output_unknown atof float_of_double argv initial_settings)
      as [Hout _];
    destruct (parse_args atof float_of_double argv initial_settings) as [s out0];
    cbn [fst snd] in *;
    destruct (cycles_shape (min_magnitude s) (alert_threshold s) inputs (monitor s))
      as (Hb & Hlat & Hlon);
    destruct (cycles _ _ inputs (monitor s)) as [st out]; cbn [fst snd] in *;
    try done.
  rewrite banners_app.
  change (banners (PrintStartup ?a ?b ?c ?d :: out)) with (banners out).
  rewrite length_app, Hb.
  assert (banners out0 = []) as ->; [|done].
  clear -Hout. induction Hout as [|e out0 (a & _ & ->) _ IH]; [done|]. exact IH.
Qed.

(** ** write_memory_callback *)

Section WriteMemory.

Lemma memcpy_middle (pre mid post src : list Byte.byte) :
  length mid = length src →
  memcpy (pre ++ mid ++ post) (length pre) src (length src) = pre ++ src ++ post.
Proof.
  unfold memcpy. rewrite firstn_all. revert pre mid.
  induction src as [|y src IH]; intros pre [|m mid] Hlen; try done.
  cbn [list_inserts].
  replace (pre ++ (m :: mid) ++ post) with ((pre ++ [m]) ++ mid ++ post)
    by (by rewrite <- app_assoc).
  replace (S (length pre)) with (length (pre ++ [m]))
    by (rewrite length_app; cbn; lia).
  rewrite IH by (cbn in Hlen; lia).
  rewrite <- app_assoc. cbn [app].
  replace (length pre) with (length pre + 0)%nat at 1 by lia.
  by rewrite insert_app_r.
Qed.

(** A call that gets its block: the body grows by the piece, a terminator
    follows it, and the bytes that [realloc] left indeterminate do not
    show. *)
Lemma write_memory_callback_success (contents junk : list Byte.byte) (size nmemb : Z)
    (chunk : MemoryStruct.t) :
  chunk_ok chunk →
  size * nmemb = Z.of_nat (length contents) →
  MemoryStruct.size chunk + Z.of_nat (length contents) + 1 < 2 ^ 64 →
  write_memory_callback contents size nmemb chunk (Some junk)
  = (MemoryStruct.mk (chunk_body chunk ++ contents ++ [Byte.x00])
                     (MemoryStruct.size chunk + Z.of_nat (length contents)),
     Z.of_nat (length contents), []).
Proof.
  intros [Hsize Hlen] Hreal Hfit.
  unfold write_memory_callback, realloc, chunk_body, size_t.
  rewrite Hreal.
  rewrite (Z.mod_small (Z.of_nat (length contents))) by lia.
  rewrite !Z.mod_small by lia.
  set (s := Z.to_nat (MemoryStruct.size chunk)) in *.
  replace (Z.to_nat (MemoryStruct.size chunk + Z.of_nat (length contents) + 1))
    with (s + length contents + 1)%nat by lia.
  replace (Z.to_nat (MemoryStruct.size chunk + Z.of_nat (length contents)))
    with (s + length contents)%nat by lia.
  rewrite Nat2Z.id.
  f_equal. f_equal. f_equal.
  set (block := resize _ _ _).
  assert (length block = (s + length contents + 1)%nat) as Hblen
    by (subst block; apply length_resize).
  assert (∃ mid t, block = take s (MemoryStruct.memory chunk) ++ mid ++ [t]
                   ∧ length mid = length contents) as (mid & t & Hblock & Hmid).
  { destruct (drop (s + length contents) block) as [|t [|t' rest]] eqn:Hlast;
      try (apply (f_equal length) in Hlast; rewrite length_drop in Hlast;
           cbn in Hlast; lia).
    exists (take (length contents) (drop s block)), t. split.
    - rewrite <- Hlast.
      rewrite <- (take_drop s block) at 1. f_equal.
      + subst block. rewrite take_resize_le by lia.
        rewrite resize_app_le by lia. by rewrite resize_le by lia.
      + rewrite <- (take_drop (length contents) (drop s block)) at 1.
        by rewrite drop_drop.
    - rewrite length_take, length_drop. lia. }
  assert (length (take s (MemoryStruct.memory chunk)) = s) as Hpre
    by (rewrite length_take; lia).
  clearbody block. subst block.
  pose proof (memcpy_middle (take s (MemoryStruct.memory chunk)) mid [t]
                contents Hmid) as Hcopy.
  rewrite Hpre in Hcopy. rewrite Hcopy.
  rewrite app_assoc.
  replace (s + length contents)%nat
    with (length (take s (MemoryStruct.memory chunk) ++ contents) + 0)%nat
    by (rewrite length_app; lia).
  rewrite insert_app_r. cbn [insert list_insert]. by rewrite <- app_assoc.
Qed.

End WriteMemory.

Section ReceiveBody.

Lemma write_memory_callback_keeps_ok (contents junk : list Byte.byte) (size nmemb : Z)
    (chunk : MemoryStruct.t) :
  chunk_ok chunk →
  size * nmemb = Z.of_nat (length contents) →
  MemoryStruct.size chunk + Z.of_nat (length contents) + 1 < 2 ^ 64 →
  let chunk' := (write_memory_callback contents size nmemb chunk (Some junk)).1.1 in
  chunk_ok chunk' ∧ chunk_body chunk' = chunk_body chunk ++ contents.
Proof.
  intros Hok Hreal Hfit. cbv zeta.
  rewrite write_memory_callback_success by done. cbn [fst].
  destruct Hok as [Hsize Hlen]. unfold chunk_ok, chunk_body.
  cbn [MemoryStruct.size MemoryStruct.memory].
  assert (length (take (Z.to_nat (MemoryStruct.size chunk)) (MemoryStruct.memory chunk))
          = Z.to_nat (MemoryStruct.size chunk)) as Hpre by (rewrite length_take; lia).
  split; [split; [lia|]|].
  - rewrite !length_app, Hpre. cbn [length]. lia.
  - rewrite app_assoc. apply take_app_length'. rewrite length_app, Hpre. lia.
Qed.

(** A transfer in which every call gets its block. *)
Lemma receive_all (pieces : list (list Byte.byte * list Byte.byte))
    (chunk : MemoryStruct.t) :
  chunk_ok chunk →
  MemoryStruct.size chunk + Z.of_nat (length (concat (fst <$> pieces))) + 1 < 2 ^ 64 →
  let res := receive ((λ p, (p.1, Some p.2)) <$> pieces) chunk in
  res.1.2 = true ∧ res.2 = []
  ∧ chunk_ok res.1.1
  ∧ chunk_body res.1.1 = chunk_body chunk ++ concat (fst <$> pieces)
  ∧ (pieces ≠ [] ∨ MemoryStruct.memory chunk = chunk_body chunk ++ [Byte.x00] →
     MemoryStruct.memory res.1.1 = chunk_body res.1.1 ++ [Byte.x00]).
Proof.
  revert chunk; induction pieces as [|[contents junk] pieces IH]; intros chunk Hok Hfit.
  { cbv zeta. cbn [fmap list_fmap receive concat fst snd]. rewrite app_nil_r.
    split; [done|]. split; [done|]. split; [done|]. split; [done|].
    intros [Hne|Hterm]; [done|exact Hterm]. }
  cbn [fmap list_fmap concat fst snd receive] in *.
  rewrite length_app in Hfit.
  pose proof (write_memory_callback_success contents junk 1
                (Z.of_nat (length contents)) chunk Hok) as Hcall.
  destruct (write_memory_callback_keeps_ok contents junk 1
              (Z.of_nat (length contents)) chunk Hok) as [Hok1 Hbody1]; [lia..|].
  rewrite Hcall in * by lia. cbn [fst] in Hok1, Hbody1.
  rewrite Z.eqb_refl.
  set (chunk1 := MemoryStruct.mk _ _) in *.
  assert (MemoryStruct.memory chunk1 = chunk_body chunk1 ++ [Byte.x00]) as Hterm.
  { rewrite Hbody1. subst chunk1. cbn [MemoryStruct.memory]. by rewrite app_assoc. }
  specialize (IH chunk1 Hok1).
  destruct (receive ((λ p, (p.1, Some p.2)) <$> pieces) chunk1) as [[chunk2 ok] out2].
  cbn [fst snd] in *.
  destruct IH as (Hok' & Hout & Hok2 & Hbody2 & Hmem2).
  { subst chunk1. cbn [MemoryStruct.size]. lia. }
  split; [done|]. split; [done|]. split; [done|].
  split; [by rewrite Hbody2, Hbody1, <- app_assoc|].
  intros _. apply Hmem2. by right.
Qed.

End ReceiveBody.

(** X18.  One call of the callback that gets its block appends the piece
    to the body and puts a zero byte after it: the block is the body so
    far, the piece and the terminator, whatever [realloc] left in the new
    bytes and whatever byte ended the old block; the count returned is the
    length of the piece and nothing is printed. *)
Theorem write_memory_callback_appends (contents junk : list Byte.byte) (size nmemb : Z)
    (chunk : MemoryStruct.t) :
  chunk_ok chunk →
  size * nmemb = Z.of_nat (length contents) →
  MemoryStruct.size chunk + Z.of_nat (length contents) + 1 < 2 ^ 64 →
  let res := write_memory_callback contents size nmemb chunk (Some junk) in
  MemoryStruct.memory res.1.1 = chunk_body chunk ++ contents ++ [Byte.x00]
  ∧ MemoryStruct.size res.1.1 = MemoryStruct.size chunk + Z.of_nat (length contents)
  ∧ res.1.2 = Z.of_nat (length contents)
  ∧ res.2 = []
  ∧ chunk_ok res.1.1
  ∧ chunk_body res.1.1 = chunk_body chunk ++ contents.
Proof.
  intros Hok Hreal Hfit res.
  destruct (write_memory_callback_keeps_ok contents junk size nmemb chunk Hok Hreal Hfit)
    as [Hok' Hbody]. fold res in Hok', Hbody.
  subst res. rewrite write_memory_callback_success in * by done. done.
Qed.

Lemma write_memory_callback_appends_witness :
  MemoryStruct.memory
    (write_memory_callback [Byte.x7b; Byte.x7d] 1 2 (fresh_chunk Byte.xff)
       (Some [Byte.xaa; Byte.xbb])).1.1
  = chunk_body (fresh_chunk Byte.xff) ++ [Byte.x7b; Byte.x7d] ++ [Byte.x00].
Proof.
  apply (write_memory_callback_appends [Byte.x7b; Byte.x7d] [Byte.xaa; Byte.xbb] 1 2
           (fresh_chunk Byte.xff)).
  - split; [cbn; lia|reflexivity].
  - reflexivity.
  - cbn. lia.
Defined.

(** X19.  A transfer in which every call gets its block leaves the whole
    body for [json_loads]: starting from the chunk of [malloc(1)], after the
    pieces of a body, at least one, the block is the pieces one after the
    other and a zero byte, [size] is their total length, the transfer went
    through and nothing was printed. *)
Theorem receive_whole_body (pieces : list (list Byte.byte * list Byte.byte))
    (b : Byte.byte) :
  pieces ≠ [] →
  Z.of_nat (length (concat (fst <$> pieces))) + 1 < 2 ^ 64 →
  let res := receive ((λ p, (p.1, Some p.2)) <$> pieces) (fresh_chunk b) in
  MemoryStruct.memory res.1.1 = concat (fst <$> pieces) ++ [Byte.x00]
  ∧ MemoryStruct.size res.1.1 = Z.of_nat (length (concat (fst <$> pieces)))
  ∧ res.1.2 = true
  ∧ res.2 = [].
Proof.
  intros Hne Hfit res.
  assert (chunk_ok (fresh_chunk b)) as Hok by (split; [cbn; lia|reflexivity]).
  destruct (receive_all pieces (fresh_chunk b) Hok) as (Hgo & Hout & Hok' & Hbody & Hmem).
  { cbn [MemoryStruct.size fresh_chunk]. lia. }
  fold res in Hgo, Hout, Hok', Hbody, Hmem.
  change (chunk_body (fresh_chunk b)) with (@nil Byte.byte) in Hbody.
  cbn [app] in Hbody.
  split; [|split; [|by split]].
  - rewrite Hmem by (by left). by rewrite Hbody.
  - destruct Hok' as [Hsize Hlen]. apply (f_equal length) in Hbody.
    unfold chunk_body in Hbody. rewrite length_take in Hbody. lia.
Qed.

Lemma receive_whole_body_witness :
  let res := receive [([Byte.x7b], Some [Byte.xaa]); ([Byte.x7d], Some [])]
                     (fresh_chunk Byte.xff) in
  MemoryStruct.memory res.1.1 = [Byte.x7b; Byte.x7d; Byte.x00]
  ∧ MemoryStruct.size res.1.1 = 2
  ∧ res.1.2 = true
  ∧ res.2 = [].
Proof.
  apply (receive_whole_body [([Byte.x7b], [Byte.xaa]); ([Byte.x7d], [])] Byte.xff).
  - discriminate.
  - cbn. lia.
Defined.

(** X20.  When [realloc] fails the callback prints its message, returns 0
    and leaves the chunk as it was.  For a piece that is not empty that
    ends the transfer: the later pieces are not delivered, and the body
    received so far is still in the chunk.  For an empty piece the count 0
    is the count given, so the transfer goes on after the message. *)
Theorem receive_out_of_memory (contents : list Byte.byte) (size nmemb : Z)
    (rest : list (list Byte.byte * option (list Byte.byte))) (chunk : MemoryStruct.t) :
  write_memory_callback contents size nmemb chunk None
  = (chunk, 0, ["Not enough memory (realloc returned NULL)"])
  ∧ (contents ≠ [] →
     receive ((contents, None) :: rest) chunk
     = (chunk, false, ["Not enough memory (realloc returned NULL)"]))
  ∧ receive (([], None) :: rest) chunk
    = ((receive rest chunk).1.1, (receive rest chunk).1.2,
       "Not enough memory (realloc returned NULL)" :: (receive rest chunk).2).
Proof.
  split; [done|]. split.
  - intros Hne. cbn [receive].
    change (write_memory_callback contents 1 (Z.of_nat (length contents)) chunk None)
      with (chunk, 0, ["Not enough memory (realloc returned NULL)"]).
    cbv iota beta.
    destruct (Z.eqb_spec 0 (Z.of_nat (length contents))) as [Heq|_]; [|done].
    destruct contents; [done|]. cbn [length] in Heq. lia.
  - cbn [receive length].
    change (write_memory_callback [] 1 (Z.of_nat 0) chunk None)
      with (chunk, 0, ["Not enough memory (realloc returned NULL)"]).
    cbv iota beta. change (0 =? Z.of_nat 0) with true. cbv iota.
    by destruct (receive rest chunk) as [[chunk2 ok] out2].
Qed.

Lemma receive_out_of_memory_witness :
  receive [([Byte.x7b], None); ([Byte.x7d], Some [])] (fresh_chunk Byte.xff)
  = (fresh_chunk Byte.xff, false, ["Not enough memory (realloc returned NULL)"]).
Proof.
  apply (receive_out_of_memory [Byte.x7b] 1 1 [([Byte.x7d], Some [])]
           (fresh_chunk Byte.xff)).
  discriminate.
Defined.
